(** * terraform-provider-postgresql: privilege reconciliation and role elevation

    A shallow embedding of the schema, grant and extension resources of the
    provider (package [postgresql]) and the properties of its policy diff,
    identifier formats, elevation steps and catalog locking.

    Conventions of the embedding:
    - a Go [string] is a [string] (a sequence of bytes); [[]string] is
      [list string]; a [*schema.Set] of strings is the list its [List()]
      method returns;
    - a Go map is a [gmap]; [range] over a map is a fold over the map
      (Go leaves the order unspecified, no statement below depends on it);
    - a function that returns [error] returns a [Res]; a run-time panic
      (failed type assertion, index out of range) is the [Panic] result;
    - [*sql.Tx] and the client's [catalogLock] are threaded as a trace of
      events; what the database answers is an oracle over that trace. *)

From Stdlib Require Import Ascii String List Permutation.
From stdpp Require Import base option list sorting strings gmap.

#[local] Set Warnings "-clear-no-such-hyp".
#[local] Set Warnings "-level-tolerance".

(** ** Results of fallible Go code *)

Definition Error := string.

Inductive Res (A : Type) : Type :=
| Ok (a : A)
| Fail (e : Error)
| Panic (msg : string).
Arguments Ok {A} a.
Arguments Fail {A} e.
Arguments Panic {A} msg.

Definition res_bind {A B} (r : Res A) (k : A → Res B) : Res B :=
  match r with
  | Ok a => k a
  | Fail e => Fail e
  | Panic m => Panic m
  end.

Notation "x <~ r ;; k" := (res_bind r (λ x, k))
  (at level 100, r at next level, right associativity).

Definition is_ok {A} (r : Res A) : bool :=
  match r with Ok _ => true | _ => false end.

(** A slice access [parts[i]]: out of range is a run-time panic. *)
Definition index {A} (l : list A) (i : nat) : Res A :=
  match l !! i with
  | Some x => Ok x
  | None => Panic "index out of range"
  end.

(** ** The [strings] and [sort] functions the package calls *)

Module GoStrings.

(** [strings.Join(elems, sep)]. *)
Fixpoint Join (elems : list string) (sep : string) : string :=
  match elems with
  | [] => ""
  | x :: rest =>
      match rest with
      | [] => x
      | _ :: _ => x +:+ sep +:+ Join rest sep
      end
  end.

(** [strings.Split(s, sep)] for a separator of one byte, the only kind
    the package passes ([":"], [","], ["."]). A string without the
    separator, the empty string included, yields the one-element slice. *)
Fixpoint Split (s : string) (sep : ascii) : list string :=
  match s with
  | EmptyString => [EmptyString]
  | String a rest =>
      if Ascii.eqb a sep then EmptyString :: Split rest sep
      else match Split rest sep with
           | [] => [String a EmptyString]
           | h :: t => String a h :: t
           end
  end.

(** [strings.Contains(s, substr)] for a [substr] of one byte. *)
Fixpoint Contains (s : string) (c : ascii) : bool :=
  match s with
  | EmptyString => false
  | String a rest => Ascii.eqb a c || Contains rest c
  end.

(** [sort.Strings]: ascending in Go's [<] on strings, which compares
    byte by byte. The sorted arrangement of a list is unique, so any
    sorting algorithm computes this function. *)
Definition sortStrings (l : list string) : list string :=
  merge_sort String.le l.

(** [strings.ToLower] on the ASCII letters. Go also maps the upper-case
    letters outside ASCII; the results below use only that [ToLower] is
    a function of its argument. *)
Definition lowerByte (a : ascii) : ascii :=
  let n := nat_of_ascii a in
  if (65 <=? n)%nat && (n <=? 90)%nat then ascii_of_nat (n + 32) else a.

Fixpoint ToLower (s : string) : string :=
  match s with
  | EmptyString => EmptyString
  | String a rest => String (lowerByte a) (ToLower rest)
  end.

(** [strings.ToUpper] on the ASCII letters. *)
Definition upperByte (a : ascii) : ascii :=
  let n := nat_of_ascii a in
  if (97 <=? n)%nat && (n <=? 122)%nat then ascii_of_nat (n - 32) else a.

Fixpoint ToUpper (s : string) : string :=
  match s with
  | EmptyString => EmptyString
  | String a rest => String (upperByte a) (ToUpper rest)
  end.

End GoStrings.
Import GoStrings.


(** [pq.QuoteIdentifier]: the name up to its first NUL byte, every double
    quote doubled, wrapped in double quotes. *)
Definition dquote : ascii := "034".

Fixpoint quoteBody (name : string) : string :=
  match name with
  | EmptyString => EmptyString
  | String a rest =>
      if Ascii.eqb a "000" then EmptyString
      else if Ascii.eqb a dquote then String dquote (String dquote (quoteBody rest))
      else String a (quoteBody rest)
  end.

Definition QuoteIdentifier (name : string) : string :=
  String dquote (quoteBody name +:+ String dquote EmptyString).

(** ** Statements *)

(** A statement handed to [Exec]. Text assembled by the package itself is
    kept as text; the statements that the ACL library and the membership
    helpers assemble are kept as syntax and rendered by [sqlText]. *)
Inductive Stmt : Type :=
| Sql (text : string)
| AclGrant (priv : string) (withGrantOption : bool) (target role : string)
| AclRevoke (priv : string) (grantOptionFor : bool) (target role : string)
| GrantMembership (role member : string)
| RevokeMembership (role member : string).

Global Instance Stmt_eq_dec : EqDecision Stmt.
Proof. solve_decision. Defined.

Definition sqlText (s : Stmt) : string :=
  match s with
  | Sql text => text
  | AclGrant priv wgo target role =>
      "GRANT " +:+ priv +:+ " ON SCHEMA " +:+ QuoteIdentifier target +:+ " TO "
        +:+ QuoteIdentifier role +:+ (if wgo then " WITH GRANT OPTION" else "")
  | AclRevoke priv gof target role =>
      "REVOKE" +:+ (if gof then " GRANT OPTION FOR" else "") +:+ " " +:+ priv
        +:+ " ON SCHEMA " +:+ QuoteIdentifier target +:+ " FROM " +:+ QuoteIdentifier role
  | GrantMembership role member =>
      "GRANT " +:+ QuoteIdentifier role +:+ " TO " +:+ QuoteIdentifier member
  | RevokeMembership role member =>
      "REVOKE " +:+ QuoteIdentifier role +:+ " FROM " +:+ QuoteIdentifier member
  end.

(** ** ACL values of the [postgresql-acl] library *)

Module acl.

(** [acl.Privileges] is a [uint16] bit mask, one bit per privilege. *)
Definition NoPrivs : Z := 0.
Definition Usage : Z := Z.shiftl 1 9.
Definition Create : Z := Z.shiftl 1 10.

(** [acl.Schema]: the privileges of one role on a schema. *)
Record Schema : Type := mkSchema {
  Privileges : Z;
  GrantOptions : Z;
  Role : string;
}.

Global Instance Schema_eq_dec : EqDecision Schema.
Proof. solve_decision. Defined.

Definition zero : Schema :=
  {| Privileges := NoPrivs; GrantOptions := NoPrivs; Role := "" |}.

Definition GetPrivilege (s : Schema) (x : Z) : bool :=
  negb (Z.land (Privileges s) x =? 0)%Z.

Definition GetGrantOption (s : Schema) (x : Z) : bool :=
  negb (Z.land (GrantOptions s) x =? 0)%Z.

(** [s.Merge(x)]: the union of both bit masks; the receiver's role, or
    the argument's when the receiver is PUBLIC (the empty role). *)
Definition Merge (s x : Schema) : Schema :=
  {| Privileges := Z.lor (Privileges s) (Privileges x);
     GrantOptions := Z.lor (GrantOptions s) (GrantOptions x);
     Role := if bool_decide (Role s = "") then Role x else Role s |}.

(** [s.Grants(target)]: one statement per privilege held, CREATE first. *)
Definition Grants (s : Schema) (target : string) : list Stmt :=
  (if GetPrivilege s Create
   then [AclGrant "CREATE" (GetGrantOption s Create) target (Role s)] else [])
  ++ (if GetPrivilege s Usage
      then [AclGrant "USAGE" (GetGrantOption s Usage) target (Role s)] else []).

(** [s.Revokes(target)]: the matching revocations. *)
Definition Revokes (s : Schema) (target : string) : list Stmt :=
  (if GetPrivilege s Create
   then [AclRevoke "CREATE" (GetGrantOption s Create) target (Role s)] else [])
  ++ (if GetPrivilege s Usage
      then [AclRevoke "USAGE" (GetGrantOption s Usage) target (Role s)] else []).

End acl.

Global Arguments acl.Grants : simpl never.
Global Arguments acl.Revokes : simpl never.

(** ** Resource data and the client *)

(** A value stored under a key of a policy fragment
    ([map[string]interface{}]): the schema of the resource declares the
    role as a string and the four privilege switches as booleans. *)
Inductive Attr : Type :=
| ABool (b : bool)
| AString (s : string).

Global Instance Attr_eq_dec : EqDecision Attr.
Proof. solve_decision. Defined.

(** The type assertions [v.(bool)] and [v.(string)]; a missing key yields
    the nil interface, whose assertion panics as well. *)
Definition asBool (v : option Attr) : Res bool :=
  match v with
  | Some (ABool b) => Ok b
  | _ => Panic "interface conversion: interface {} is not bool"
  end.

Definition asString (v : Attr) : Res string :=
  match v with
  | AString s => Ok s
  | _ => Panic "interface conversion: interface {} is not string"
  end.

Definition schemaPolicyCreateAttr : string := "create".
Definition schemaPolicyCreateWithGrantAttr : string := "create_with_grant".
Definition schemaPolicyRoleAttr : string := "role".
Definition schemaPolicyUsageAttr : string := "usage".
Definition schemaPolicyUsageWithGrantAttr : string := "usage_with_grant".

(** [*schema.ResourceData] of a [postgresql_schema]: the attributes read
    with [d.Get], and for those queried with [d.GetChange] the prior value. *)
Record SchemaData : Type := {
  s_id : string;
  s_name : string;
  s_name_prior : string;
  s_database : string;
  s_owner : string;
  s_owner_prior : string;
  s_if_not_exists : bool;
  s_drop_cascade : bool;
  s_policy : list (gmap string Attr);
  s_policy_prior : list (gmap string Attr);
}.

(** [*schema.ResourceData] of a [postgresql_grant]. *)
Record GrantData : Type := {
  g_id : string;
  g_role : string;
  g_database : string;
  g_schema : string;
  g_object_type : string;
  g_tables : list string;
  g_privileges : list string;
  g_with_grant_option : bool;
}.

(** [*schema.ResourceData] of a [postgresql_extension]. *)
Record ExtensionData : Type := {
  e_id : string;
  e_name : string;
  e_schema : string;
  e_schema_prior : string;
  e_version : string;
  e_version_prior : string;
  e_database : string;
}.

Inductive featureName : Type :=
| featureSchemaCreateIfNotExist
| featureExtension
| featurePrivileges.

(** [*Client]: what the operations read from it. [databaseUsername] is the
    result of [c.config.getDatabaseUsername()]; [validatePrivileges] is
    the configuration check run before a grant is applied. *)
Record Client : Type := {
  databaseName : string;
  databaseUsername : string;
  version : string;
  featureSupported : featureName → bool;
  validatePrivileges : GrantData → option Error;
}.

Definition s_SetId (d : SchemaData) (id : string) : SchemaData :=
  {| s_id := id; s_name := s_name d; s_name_prior := s_name_prior d;
     s_database := s_database d; s_owner := s_owner d;
     s_owner_prior := s_owner_prior d; s_if_not_exists := s_if_not_exists d;
     s_drop_cascade := s_drop_cascade d; s_policy := s_policy d;
     s_policy_prior := s_policy_prior d |}.

Definition g_SetId (d : GrantData) (id : string) : GrantData :=
  {| g_id := id; g_role := g_role d; g_database := g_database d;
     g_schema := g_schema d; g_object_type := g_object_type d;
     g_tables := g_tables d; g_privileges := g_privileges d;
     g_with_grant_option := g_with_grant_option d |}.

Definition e_SetId (d : ExtensionData) (id : string) : ExtensionData :=
  {| e_id := id; e_name := e_name d; e_schema := e_schema d;
     e_schema_prior := e_schema_prior d; e_version := e_version d;
     e_version_prior := e_version_prior d; e_database := e_database d |}.

(** ** Identifiers *)

(** Modelled from the spec: [getDatabase] is not among the sources; the
    spec calls its result the target database of the resource. It is the
    resource's own database attribute when that is set and the client's
    database otherwise, as [getDatabaseForExtension] computes it. *)
Definition getDatabase (d : SchemaData) (c : Client) : string :=
  if bool_decide (s_database d ≠ "") then s_database d else databaseName c.

Definition generateSchemaID (d : SchemaData) (c : Client) : string :=
  Join [getDatabase d c; s_name d] ".".

Definition getSchemaNameFromID (ID : string) : Res string :=
  index (Split ID ".") 0.

Definition getDBSchemaName (d : SchemaData) (client : Client)
  : Res (string * string) :=
  let database := getDatabase d client in
  let schemaName := s_name d in
  if bool_decide (schemaName = "") then
    let parsed := Split (s_id d) "." in
    if bool_decide (length parsed ≠ 2) then
      Fail ("schema ID " +:+ s_id d
            +:+ " has not the expected format 'database.schema'")
    else
      database <~ index parsed 0 ;;
      schemaName <~ index parsed 1 ;;
      Ok (database, schemaName)
  else Ok (database, schemaName).

Definition getDatabaseForExtension (d : ExtensionData) (client : Client) : string :=
  if bool_decide (e_database d ≠ "") then e_database d else databaseName client.

Definition generateExtensionID (d : ExtensionData) (client : Client) : string :=
  Join [e_name d; getDatabaseForExtension d client] ".".

(** [splitted[:len(splitted)-1]] is in range, [strings.Split] returning at
    least one element. *)
Definition getExtensionNameFromID (ID : string) : string :=
  let splitted := Split ID "." in
  Join (take (length splitted - 1) splitted) "".

Definition tableGrantIdDelimiter : string := ":".
Definition tableGrantIdDelimiterByte : ascii := ":".

Definition getStringsFromSet (set : list string) : list string := set.

Definition generateGrantID (d : GrantData) : string :=
  let parts := [g_role d; g_database d] in
  let objectType := g_object_type d in
  let parts :=
    if bool_decide (objectType ≠ "database") then parts ++ [g_schema d]
    else parts in
  let parts := parts ++ [objectType] in
  let tables := getStringsFromSet (g_tables d) in
  if bool_decide (length tables = 0) then Join parts "_"
  else
    let privileges := getStringsFromSet (g_privileges d) in
    let tables := sortStrings tables in
    let privileges := sortStrings privileges in
    let parts := parts ++ [Join tables ","] in
    let parts := parts ++ [Join privileges ","] in
    Join parts tableGrantIdDelimiter.

Definition readTableGrantID (d : GrantData)
  : Res (string * string * string * string * list string * list string) :=
  let parts := Split (g_id d) tableGrantIdDelimiterByte in
  role <~ index parts 0 ;;
  database <~ index parts 1 ;;
  schema <~ index parts 2 ;;
  objectType <~ index parts 3 ;;
  tables <~ index parts 4 ;;
  let tables := Split tables "," in
  privileges <~ index parts 5 ;;
  let privileges := Split privileges "," in
  Ok (role, database, schema, objectType, tables, privileges).

(** ** Policy fragments and the diff engine *)

Definition schemaPolicyToACL (policyMap : gmap string Attr) : Res acl.Schema :=
  let rolePolicy := acl.zero in
  create <~ asBool (policyMap !! schemaPolicyCreateAttr) ;;
  let rolePolicy :=
    if create
    then acl.mkSchema (Z.lor (acl.Privileges rolePolicy) acl.Create)
           (acl.GrantOptions rolePolicy) (acl.Role rolePolicy)
    else rolePolicy in
  createWithGrant <~ asBool (policyMap !! schemaPolicyCreateWithGrantAttr) ;;
  let rolePolicy :=
    if createWithGrant
    then acl.mkSchema (Z.lor (acl.Privileges rolePolicy) acl.Create)
           (Z.lor (acl.GrantOptions rolePolicy) acl.Create) (acl.Role rolePolicy)
    else rolePolicy in
  usage <~ asBool (policyMap !! schemaPolicyUsageAttr) ;;
  let rolePolicy :=
    if usage
    then acl.mkSchema (Z.lor (acl.Privileges rolePolicy) acl.Usage)
           (acl.GrantOptions rolePolicy) (acl.Role rolePolicy)
    else rolePolicy in
  usageWithGrant <~ asBool (policyMap !! schemaPolicyUsageWithGrantAttr) ;;
  let rolePolicy :=
    if usageWithGrant
    then acl.mkSchema (Z.lor (acl.Privileges rolePolicy) acl.Usage)
           (Z.lor (acl.GrantOptions rolePolicy) acl.Usage) (acl.Role rolePolicy)
    else rolePolicy in
  match policyMap !! schemaPolicyRoleAttr with
  | Some roleRaw =>
      role <~ asString roleRaw ;;
      Ok (acl.mkSchema (acl.Privileges rolePolicy) (acl.GrantOptions rolePolicy) role)
  | None => Ok rolePolicy
  end.

(** [schemaPolicyToHCL]: the fragment that declares an ACL. *)
Definition schemaPolicyToHCL (s : acl.Schema) : gmap string Attr :=
  <[schemaPolicyRoleAttr := AString (acl.Role s)]>
    (<[schemaPolicyCreateAttr := ABool (acl.GetPrivilege s acl.Create)]>
       (<[schemaPolicyCreateWithGrantAttr := ABool (acl.GetGrantOption s acl.Create)]>
          (<[schemaPolicyUsageAttr := ABool (acl.GetPrivilege s acl.Usage)]>
             (<[schemaPolicyUsageWithGrantAttr
                := ABool (acl.GetGrantOption s acl.Usage)]> ∅)))).

(** One round of the loops that fill [oldLookupMap] and [newLookupMap]:
    a fragment with a role is stored under the lower-cased role, replacing
    what was stored there; a fragment without the key is skipped. *)
Definition lookupStore (lookupMap : gmap string (gmap string Attr))
    (schemaPolicy : gmap string Attr) : Res (gmap string (gmap string Attr)) :=
  match schemaPolicy !! schemaPolicyRoleAttr with
  | Some roleRaw =>
      role <~ asString roleRaw ;;
      let roleKey := ToLower role in
      Ok (<[roleKey := schemaPolicy]> lookupMap)
  | None => Ok lookupMap
  end.

Fixpoint buildLookupMap (policies : list (gmap string Attr))
    (lookupMap : gmap string (gmap string Attr))
  : Res (gmap string (gmap string Attr)) :=
  match policies with
  | [] => Ok lookupMap
  | v :: rest =>
      lookupMap <~ lookupStore lookupMap v ;;
      buildLookupMap rest lookupMap
  end.

(** The three loops of [schemaChangedPolicies] over the lookup maps. *)
Definition droppedLoop (oldLookupMap newLookupMap : gmap string (gmap string Attr))
  : gmap string (gmap string Attr) :=
  map_fold (λ kOld vOld (droppedRoles : gmap string (gmap string Attr)),
              match newLookupMap !! kOld with
              | None => <[kOld := vOld]> droppedRoles
              | Some _ => droppedRoles
              end) ∅ oldLookupMap.

Definition addedLoop (oldLookupMap newLookupMap : gmap string (gmap string Attr))
  : gmap string (gmap string Attr) :=
  map_fold (λ kNew vNew (addedRoles : gmap string (gmap string Attr)),
              match oldLookupMap !! kNew with
              | None => <[kNew := vNew]> addedRoles
              | Some _ => addedRoles
              end) ∅ newLookupMap.

Definition updatedLoop (oldLookupMap newLookupMap : gmap string (gmap string Attr))
  : gmap string (list (gmap string Attr)) * gmap string (gmap string Attr) :=
  map_fold (λ kOld vOld
              (acc : gmap string (list (gmap string Attr))
                     * gmap string (gmap string Attr)),
              match newLookupMap !! kOld with
              | Some vNew =>
                  if decide (vOld = vNew)
                  then (acc.1, <[kOld := vOld]> acc.2)
                  else (<[kOld := [vOld; vNew]]> acc.1, acc.2)
              | None => acc
              end) (∅, ∅) oldLookupMap.

(** [schemaChangedPolicies(old, new)]. [reflect.DeepEqual] on two
    fragments is equality of the maps. The values of the third result are
    the two-element slices [[vOld, vNew]]. *)
Definition schemaChangedPolicies (old new : list (gmap string Attr))
  : Res (gmap string (gmap string Attr) * gmap string (gmap string Attr)
         * gmap string (list (gmap string Attr)) * gmap string (gmap string Attr)) :=
  oldLookupMap <~ buildLookupMap old ∅ ;;
  newLookupMap <~ buildLookupMap new ∅ ;;
  let droppedRoles := droppedLoop oldLookupMap newLookupMap in
  let addedRoles := addedLoop oldLookupMap newLookupMap in
  let '(updatedRoles, unchangedRoles) := updatedLoop oldLookupMap newLookupMap in
  Ok (droppedRoles, addedRoles, updatedRoles, unchangedRoles).

(** The role-keyed container that [resourcePostgreSQLSchemaCreate] builds
    from the declared fragments: a fragment whose key is taken is merged
    into the stored ACL. *)
Fixpoint mergePolicies (policiesList : list (gmap string Attr))
    (schemaPolicies : gmap string acl.Schema) : Res (gmap string acl.Schema) :=
  match policiesList with
  | [] => Ok schemaPolicies
  | policyMap :: rest =>
      rolePolicy <~ schemaPolicyToACL policyMap ;;
      let roleKey := ToLower (acl.Role rolePolicy) in
      let schemaPolicies :=
        match schemaPolicies !! roleKey with
        | Some existingRolePolicy =>
            <[roleKey := acl.Merge existingRolePolicy rolePolicy]> schemaPolicies
        | None => <[roleKey := rolePolicy]> schemaPolicies
        end in
      mergePolicies rest schemaPolicies
  end.

(** ** Queries and the event trace *)

(** A read of the catalog. Queries whose text is in the sources carry it;
    those issued by helpers outside the sources are named by their purpose. *)
Inductive Query : Type :=
| QSql (text : string) (args : list string)
| QTablesOwner (schemaName : string)
| QSchemaOwner (schemaName : string)
| QRoleExists (role : string)
| QDbExists (database : string)
| QSchemaExists (schemaName : string)
| QPrivileges (objectType role target : string) (objects : list string).

Global Instance Query_eq_dec : EqDecision Query.
Proof. solve_decision. Defined.

(** The answer to [QueryRow(...).Scan(...)]. *)
Inductive RowResult : Type :=
| Row (cols : list string)
| ErrNoRows
| RowErr (e : Error).

(** Transactions are numbered in the order they are opened. A query made
    on the client's own connection carries no transaction. *)
Definition Tx := nat.

(** An event of an operation: a step on the catalog lock, or a call on a
    transaction; [Exec] and [Commit] are recorded with the error they
    returned, if any. *)
Inductive Event : Type :=
| ELock
| EUnlock
| ERLock
| ERUnlock
| EBegin (tx : Tx) (database : string)
| EExec (tx : Tx) (s : Stmt) (err : option Error)
| EQuery (tx : option Tx) (q : Query)
| ECommit (tx : Tx) (err : option Error)
| ERollback (tx : Tx).

Global Instance Event_eq_dec : EqDecision Event.
Proof. solve_decision. Defined.

Definition is_begin (e : Event) : bool :=
  match e with EBegin _ _ => true | _ => false end.

(** What lies outside the package: the answers of the database, given the
    events so far, and the text codec of the ACL library. *)
Record World : Type := {
  begin_result : list Event → string → option Error;
  exec_result : list Event → Tx → Stmt → option Error;
  commit_result : list Event → Tx → option Error;
  row_result : list Event → option Tx → Query → RowResult;
  rows_result : list Event → option Tx → Query → Res (list (list string));
  already_member : Error → bool;
  acl_parse : string → Res acl.Schema;
  acl_new_schema : acl.Schema → Res acl.Schema;
}.

(** ** The monad of operations: a result and the extended trace *)

Definition M (A : Type) : Type := list Event → Res A * list Event.

Definition ret {A} (a : A) : M A := λ t, (Ok a, t).

Definition bind {A B} (m : M A) (k : A → M B) : M B :=
  λ t, match m t with
       | (Ok a, t') => k a t'
       | (Fail e, t') => (Fail e, t')
       | (Panic msg, t') => (Panic msg, t')
       end.

Notation "x <- m ;; k" := (bind m (λ x, k))
  (at level 100, m at next level, right associativity).
Notation "m ;; k" := (bind m (λ _, k))
  (at level 100, right associativity).

Definition fail {A} (e : Error) : M A := λ t, (Fail e, t).
Definition panic {A} (msg : string) : M A := λ t, (Panic msg, t).
Definition lift {A} (r : Res A) : M A := λ t, (r, t).
Definition emit (e : Event) : M unit := λ t, (Ok tt, t ++ [e]).

(** [defer cleanup] followed by [body]: the cleanup runs when the body is
    left, whatever its result, and does not change that result. *)
Definition defer {A} (cleanup : M unit) (body : M A) : M A :=
  λ t, let '(r, t1) := body t in (r, (cleanup t1).2).

(** [errwrap.Wrapf(prefix ++ "{{err}}", err)] and [fmt.Errorf("...: %w")]. *)
Definition wrap (prefix : string) (e : Error) : Error := prefix +:+ e.

(** [if err != nil { return errwrap.Wrapf(prefix, err) }] around a call. *)
Definition wrapped {A} (prefix : string) (m : M A) : M A :=
  λ t, match m t with
       | (Fail e, t') => (Fail (wrap prefix e), t')
       | other => other
       end.

(** The outcome of a computation as a value, for code that goes on after
    an error. *)
Definition attempt {A} (m : M A) : M (Res A) :=
  λ t, let '(r, t') := m t in (Ok r, t').

(** [d.HasChange(attr)]. *)
Definition HasChange {A} `{EqDecision A} (prior current : A) : bool :=
  bool_decide (prior ≠ current).

(** [if err != nil { return wrap(err) }]. *)
Definition check (prefix : string) (err : option Error) : M unit :=
  match err with
  | None => ret tt
  | Some e => fail (wrap prefix e)
  end.

(** Go's [for _, x := range xs] with a body that may return early. *)
Fixpoint forEach {A} (xs : list A) (body : A → M unit) : M unit :=
  match xs with
  | [] => ret tt
  | x :: rest => body x ;; forEach rest body
  end.

Section Primitives.
Context (W : World).

Definition Lock : M unit := emit ELock.
Definition Unlock : M unit := emit EUnlock.
Definition RLock : M unit := emit ERLock.
Definition RUnlock : M unit := emit ERUnlock.

Definition Exec (tx : Tx) (s : Stmt) : M (option Error) :=
  λ t, let err := exec_result W t tx s in (Ok err, t ++ [EExec tx s err]).

Definition QueryRow (tx : option Tx) (q : Query) : M RowResult :=
  λ t, (Ok (row_result W t tx q), t ++ [EQuery tx q]).

Definition QueryRows (tx : option Tx) (q : Query) : M (Res (list (list string))) :=
  λ t, (Ok (rows_result W t tx q), t ++ [EQuery tx q]).

Definition Commit (tx : Tx) : M (option Error) :=
  λ t, let err := commit_result W t tx in (Ok err, t ++ [ECommit tx err]).

(** Modelled from the spec: [startTransaction] is not among the sources;
    the spec lists it as [beginTransaction(targetDatabase) -> Transaction
    | error]. A transaction that opens is recorded with its number. *)
Definition startTransaction (database : string) : M Tx :=
  λ t, match begin_result W t database with
       | Some e => (Fail e, t)
       | None =>
           let tx := length (filter is_begin t) in
           (Ok tx, t ++ [EBegin tx database])
       end.

(** Modelled from the spec: [deferredRollback] is not among the sources;
    the spec has [Transaction.rollback()] safe to call after commit, where
    it is a no-op, and every exit path that does not commit rolled back. *)
Definition deferredRollback (tx : Tx) : M unit := emit (ERollback tx).

End Primitives.

(** ** Helpers of the package that the operations call *)

Section Helpers.
Context (W : World).

(** Modelled from the spec: [grantRoleMembership] is not among the
    sources. The spec's elevation protocol skips the grant when the actor
    is the target role or the target is empty; otherwise it attempts
    [GRANT targetRole TO actorRole] in the transaction, and a failure
    because the actor already holds the membership counts as success
    without marking the membership as granted by this call. The result
    is that mark. *)
Definition grantRoleMembership (txn : Tx) (role member : string) : M bool :=
  if bool_decide (member = role ∨ role = "") then ret false
  else
    err <- Exec W txn (GrantMembership role member) ;;
    match err with
    | None => ret true
    | Some e => if already_member W e then ret false else fail e
    end.

(** Modelled from the spec: [revokeRoleMembership] is not among the
    sources; the spec issues [REVOKE targetRole FROM actorRole] in the
    same transaction and reports its failure. *)
Definition revokeRoleMembership (txn : Tx) (role member : string) : M unit :=
  err <- Exec W txn (RevokeMembership role member) ;;
  check "" err.

(** The grant steps of [withRolesGranted]: the roles whose membership
    this call granted, and the error that stopped the loop, if any. *)
Fixpoint grantRoles (txn : Tx) (actor : string) (roles : list string)
  : M (list string * option Error) :=
  match roles with
  | [] => ret ([], None)
  | role :: rest =>
      granted <- attempt (grantRoleMembership txn role actor) ;;
      match granted with
      | Ok true =>
          more <- grantRoles txn actor rest ;;
          ret (role :: more.1, more.2)
      | Ok false => grantRoles txn actor rest
      | Fail e => ret ([], Some e)
      | Panic msg => panic msg
      end
  end.

(** The revoke steps of [withRolesGranted]: every membership granted by
    the call is revoked; the failures are merged. *)
Fixpoint revokeRoles (txn : Tx) (actor : string) (granted : list string)
  : M (option Error) :=
  match granted with
  | [] => ret None
  | role :: rest =>
      err <- Exec W txn (RevokeMembership role actor) ;;
      more <- revokeRoles txn actor rest ;;
      ret (match err, more with
           | None, more => more
           | Some e, None => Some e
           | Some e, Some e' => Some (e +:+ "; " +:+ e')
           end)
  end.

Definition mergeOutcome (outcome : Res unit) (revokeErr : option Error) : Res unit :=
  match outcome, revokeErr with
  | Panic msg, _ => Panic msg
  | outcome, None => outcome
  | Ok _, Some e => Fail e
  | Fail e, Some e' => Fail (e +:+ "; " +:+ e')
  end.

(** Modelled from the spec: [withRolesGranted] is not among the sources;
    it is the spec's [withElevatedRole] for each of the roles in turn,
    with the connected user as the actor. Membership is granted where
    needed, then [fn] runs; whatever the outcome of [fn], every
    membership granted by this call is revoked in the same transaction
    before returning, and a failure of a revoke is merged into the
    returned error. *)
Definition withRolesGranted (txn : Tx) (actor : string) (roles : list string)
    (fn : M unit) : M unit :=
  elevation <- grantRoles txn actor roles ;;
  outcome <- attempt (match elevation.2 with
                      | None => fn
                      | Some e => fail e
                      end) ;;
  revokeErr <- revokeRoles txn actor elevation.1 ;;
  lift (mergeOutcome outcome revokeErr).

(** Modelled from the spec: [dbExists], [roleExists] and [schemaExists]
    are not among the sources; each is a lookup in the catalog whose
    missing row is the spec's soft not-found signal and whose other
    errors are returned. *)
Definition lookupExists (tx : option Tx) (q : Query) : M bool :=
  row <- QueryRow W tx q ;;
  match row with
  | Row _ => ret true
  | ErrNoRows => ret false
  | RowErr e => fail e
  end.

Definition dbExists (tx : option Tx) (database : string) : M bool :=
  lookupExists tx (QDbExists database).
Definition roleExists (tx : Tx) (role : string) : M bool :=
  lookupExists (Some tx) (QRoleExists role).
Definition schemaExists (tx : Tx) (schemaName : string) : M bool :=
  lookupExists (Some tx) (QSchemaExists schemaName).

(** Modelled from the spec: [getTablesOwner] and [getSchemaOwner] are not
    among the sources; they read from the catalog the owners of the
    tables of a schema and the owner of the schema, the roles whose
    ownership the spec's reconciler borrows. *)
Definition getTablesOwner (txn : Tx) (schemaName : string) : M (list string) :=
  rows <- QueryRows W (Some txn) (QTablesOwner schemaName) ;;
  rows <- lift rows ;;
  ret (List.concat rows).

Definition getSchemaOwner (txn : Tx) (schemaName : string) : M string :=
  row <- QueryRow W (Some txn) (QSchemaOwner schemaName) ;;
  match row with
  | Row cols => ret (hd "" cols)
  | ErrNoRows => fail "sql: no rows in result set"
  | RowErr e => fail e
  end.

Definition sliceContainsStr (haystack : list string) (needle : string) : bool :=
  bool_decide (needle ∈ haystack).

End Helpers.

(** ** The schema resource *)

Definition s_SetRead (d : SchemaData) (schemaName schemaOwner database : string)
  : SchemaData :=
  {| s_id := s_id d; s_name := schemaName; s_name_prior := s_name_prior d;
     s_database := database; s_owner := schemaOwner;
     s_owner_prior := s_owner_prior d; s_if_not_exists := s_if_not_exists d;
     s_drop_cascade := s_drop_cascade d; s_policy := s_policy d;
     s_policy_prior := s_policy_prior d |}.

Section SchemaResource.
Context (W : World).

Definition setSchemaName (txn : Tx) (d : SchemaData) (c : Client) : M SchemaData :=
  if negb (HasChange (s_name_prior d) (s_name d)) then ret d
  else
    let o := s_name_prior d in
    let n := s_name d in
    if bool_decide (n = "") then fail "Error setting schema name to an empty string"
    else
      let sql := "ALTER SCHEMA " +:+ QuoteIdentifier o +:+ " RENAME TO "
                 +:+ QuoteIdentifier n in
      err <- Exec W txn (Sql sql) ;;
      check "Error updating schema NAME: " err ;;
      ret (s_SetId d (generateSchemaID d c)).

Definition setSchemaOwner (txn : Tx) (d : SchemaData) : M unit :=
  if negb (HasChange (s_owner_prior d) (s_owner d)) then ret tt
  else
    let schemaName := s_name d in
    let schemaOwner := s_owner d in
    if bool_decide (schemaOwner = "")
    then fail "Error setting schema owner to an empty string"
    else
      let sql := "ALTER SCHEMA " +:+ QuoteIdentifier schemaName +:+ " OWNER TO "
                 +:+ QuoteIdentifier schemaOwner in
      err <- Exec W txn (Sql sql) ;;
      check "Error updating schema OWNER: " err.

(** The loop of [setSchemaPolicy] over the dropped roles. A role that is
    named is looked up in [pg_roles]: without a row nothing is appended,
    another error is returned, with a row the revocations are appended. *)
Fixpoint droppedQueries (txn : Tx) (schemaName : string)
    (dropped : list (string * gmap string Attr)) (queries : list Stmt)
  : M (list Stmt) :=
  match dropped with
  | [] => ret queries
  | (_, pMap) :: rest =>
      rolePolicy <- lift (schemaPolicyToACL pMap) ;;
      queries <-
        (if bool_decide (acl.Role rolePolicy ≠ "") then
           row <- QueryRow W (Some txn)
                    (QSql "SELECT TRUE FROM pg_catalog.pg_roles WHERE rolname = $1"
                       [acl.Role rolePolicy]) ;;
           match row with
           | ErrNoRows => ret queries
           | RowErr e => fail (wrap "Error reading schema: " e)
           | Row _ => ret (queries ++ acl.Revokes rolePolicy schemaName)
           end
         else ret queries) ;;
      droppedQueries txn schemaName rest queries
  end.

(** The loop over the added roles. *)
Fixpoint addedQueries (schemaName : string)
    (added : list (string * gmap string Attr)) (queries : list Stmt)
  : Res (list Stmt) :=
  match added with
  | [] => Ok queries
  | (_, pMap) :: rest =>
      rolePolicy <~ schemaPolicyToACL pMap ;;
      addedQueries schemaName rest (queries ++ acl.Grants rolePolicy schemaName)
  end.

(** The loop over the updated roles: for each the revocations of the old
    fragment, then the grants of the new one. *)
Fixpoint updatedQueries (schemaName : string)
    (updated : list (string * list (gmap string Attr))) (queries : list Stmt)
  : Res (list Stmt) :=
  match updated with
  | [] => Ok queries
  | (_, policies) :: rest =>
      if bool_decide (length policies ≠ 2)
      then Panic "expected 2 policies, old and new"
      else
        oldPolicies <~ index policies 0 ;;
        rolePolicy <~ schemaPolicyToACL oldPolicies ;;
        let queries := queries ++ acl.Revokes rolePolicy schemaName in
        newPolicies <~ index policies 1 ;;
        rolePolicy <~ schemaPolicyToACL newPolicies ;;
        let queries := queries ++ acl.Grants rolePolicy schemaName in
        updatedQueries schemaName rest queries
  end.

(** [setSchemaPolicy] from the result of the diff on: the statements of
    the three loops, then their execution. *)
Definition applyChangedPolicies (txn : Tx) (schemaName : string)
    (dropped added : gmap string (gmap string Attr))
    (updated : gmap string (list (gmap string Attr))) : M unit :=
  queries <- droppedQueries txn schemaName (map_to_list dropped) [] ;;
  queries <- lift (addedQueries schemaName (map_to_list added) queries) ;;
  queries <- lift (updatedQueries schemaName (map_to_list updated) queries) ;;
  forEach queries (λ query,
    err <- Exec W txn query ;;
    check "Error updating schema DCL: " err).

Definition setSchemaPolicy (txn : Tx) (d : SchemaData) : M unit :=
  if negb (HasChange (s_policy_prior d) (s_policy d)) then ret tt
  else
    let schemaName := s_name d in
    let oldList := s_policy_prior d in
    let newList := s_policy d in
    changed <- lift (schemaChangedPolicies oldList newList) ;;
    let '(dropped, added, updated, _) := changed in
    applyChangedPolicies txn schemaName dropped added updated.

(** The loop of [resourcePostgreSQLSchemaReadImpl] over the ACL items. *)
Fixpoint readPolicies (schemaACLs : list string)
    (schemaPolicies : gmap string acl.Schema) : Res (gmap string acl.Schema) :=
  match schemaACLs with
  | [] => Ok schemaPolicies
  | aclStr :: rest =>
      match acl_parse W aclStr with
      | Fail e => Fail (wrap "Error parsing aclitem: " e)
      | Panic msg => Panic msg
      | Ok aclItem =>
          match acl_new_schema W aclItem with
          | Fail e => Fail (wrap "invalid perms for schema: " e)
          | Panic msg => Panic msg
          | Ok schemaACL =>
              let roleKey := ToLower (acl.Role schemaACL) in
              let mergedPolicy :=
                match schemaPolicies !! roleKey with
                | Some existingRolePolicy => acl.Merge existingRolePolicy schemaACL
                | None => schemaACL
                end in
              readPolicies rest (<[roleKey := mergedPolicy]> schemaPolicies)
          end
      end
  end.

Definition resourcePostgreSQLSchemaReadImpl (d : SchemaData) (c : Client)
  : M SchemaData :=
  names <- lift (getDBSchemaName d c) ;;
  let '(database, schemaName) := names in
  txn <- startTransaction W database ;;
  defer (deferredRollback txn) (
    row <- QueryRow W (Some txn)
             (QSql "SELECT pg_catalog.pg_get_userbyid(n.nspowner), COALESCE(n.nspacl, '{}'::aclitem[])::TEXT[] FROM pg_catalog.pg_namespace n WHERE n.nspname=$1"
                [schemaName]) ;;
    match row with
    | ErrNoRows => ret (s_SetId d "")
    | RowErr e => fail (wrap "Error reading schema: " e)
    | Row cols =>
        let schemaOwner := hd "" cols in
        let schemaACLs := tl cols in
        _ <- lift (readPolicies schemaACLs ∅) ;;
        let d := s_SetRead d schemaName schemaOwner database in
        ret (s_SetId d (generateSchemaID d c))
    end).

Definition resourcePostgreSQLSchemaCreate (d : SchemaData) (c : Client)
  : M SchemaData :=
  let database := getDatabase d c in
  Lock ;;
  defer Unlock (
    txn <- startTransaction W database ;;
    defer (deferredRollback txn) (
      let schemaName := s_name d in
      let schemaOwner := s_owner d in
      row <- QueryRow W (Some txn)
               (QSql "SELECT TRUE FROM pg_catalog.pg_namespace WHERE nspname = $1"
                  [schemaName]) ;;
      queries <-
        match row with
        | ErrNoRows =>
            ret [Sql ("CREATE SCHEMA "
                      +:+ (if featureSupported c featureSchemaCreateIfNotExist
                              && s_if_not_exists d
                           then "IF NOT EXISTS " else "")
                      +:+ QuoteIdentifier schemaName
                      +:+ (if bool_decide (schemaOwner ≠ "")
                           then " AUTHORIZATION " +:+ QuoteIdentifier schemaOwner
                           else ""))]
        | _ => setSchemaOwner txn d ;; ret []
        end ;;
      schemaPolicies <-
        lift (if bool_decide (s_policy d ≠ [])
              then mergePolicies (s_policy d) ∅ else Ok ∅) ;;
      let queries :=
        queries ++ List.concat ((λ policy, acl.Grants policy.2 schemaName)
                                  <$> map_to_list schemaPolicies) in
      let currentUser := databaseUsername c in
      ownerGranted <-
        (if bool_decide (schemaOwner ≠ "") then
           wrapped ("Error granting owner membership for schema "
                    +:+ schemaName +:+ ": ")
             (grantRoleMembership W txn schemaOwner currentUser)
         else ret false) ;;
      forEach queries (λ query,
        err <- Exec W txn query ;;
        check ("Error creating schema " +:+ schemaName +:+ ": ") err) ;;
      (if ownerGranted : bool then
         wrapped ("Error revoking owner membership for schema "
                  +:+ schemaName +:+ ": ")
           (revokeRoleMembership W txn schemaOwner currentUser)
       else ret tt) ;;
      err <- Commit W txn ;;
      check "Error committing schema: " err ;;
      let d := s_SetId d (generateSchemaID d c) in
      resourcePostgreSQLSchemaReadImpl d c)).

Definition resourcePostgreSQLSchemaDelete (d : SchemaData) (c : Client)
  : M SchemaData :=
  let database := getDatabase d c in
  Lock ;;
  defer Unlock (
    txn <- startTransaction W database ;;
    defer (deferredRollback txn) (
      let schemaName := s_name d in
      let schemaOwner := s_owner d in
      let dropMode := if s_drop_cascade d then "CASCADE" else "RESTRICT" in
      let currentUser := databaseUsername c in
      ownerGranted <-
        (if bool_decide (schemaOwner ≠ "") then
           wrapped ("Error granting owner membership for schema "
                    +:+ schemaName +:+ ": ")
             (grantRoleMembership W txn schemaOwner currentUser)
         else ret false) ;;
      let sql := "DROP SCHEMA " +:+ QuoteIdentifier schemaName +:+ " " +:+ dropMode in
      err <- Exec W txn (Sql sql) ;;
      check "Error deleting schema: " err ;;
      (if ownerGranted : bool then
         wrapped ("Error revoking owner membership for schema "
                  +:+ schemaName +:+ ": ")
           (revokeRoleMembership W txn schemaOwner currentUser)
       else ret tt) ;;
      err <- Commit W txn ;;
      check "Error committing schema: " err ;;
      ret (s_SetId d ""))).

Definition resourcePostgreSQLSchemaExists (d : SchemaData) (c : Client) : M bool :=
  RLock ;;
  defer RUnlock (
    names <- lift (getDBSchemaName d c) ;;
    let '(database, schemaName) := names in
    exists_ <- dbExists W None database ;;
    if negb exists_ then ret false
    else
      txn <- startTransaction W database ;;
      defer (deferredRollback txn) (
        row <- QueryRow W (Some txn)
                 (QSql "SELECT n.nspname FROM pg_catalog.pg_namespace n WHERE n.nspname=$1"
                    [schemaName]) ;;
        match row with
        | ErrNoRows => ret false
        | RowErr e => fail (wrap "Error reading schema: " e)
        | Row _ => ret true
        end)).

Definition resourcePostgreSQLSchemaRead (d : SchemaData) (c : Client)
  : M SchemaData :=
  RLock ;;
  defer RUnlock (resourcePostgreSQLSchemaReadImpl d c).

Definition resourcePostgreSQLSchemaUpdate (d : SchemaData) (c : Client)
  : M SchemaData :=
  let database := getDatabase d c in
  Lock ;;
  defer Unlock (
    txn <- startTransaction W database ;;
    defer (deferredRollback txn) (
      let schemaName := s_name d in
      let schemaOwner := s_owner d in
      let currentUser := databaseUsername c in
      ownerGranted <-
        (if bool_decide (schemaOwner ≠ "") then
           wrapped ("Error granting owner membership for schema "
                    +:+ schemaName +:+ ": ")
             (grantRoleMembership W txn schemaOwner currentUser)
         else ret false) ;;
      d <- setSchemaName txn d c ;;
      setSchemaOwner txn d ;;
      setSchemaPolicy txn d ;;
      (if ownerGranted : bool then
         wrapped ("Error revoking owner membership for schema "
                  +:+ schemaName +:+ ": ")
           (revokeRoleMembership W txn schemaOwner currentUser)
       else ret tt) ;;
      err <- Commit W txn ;;
      check "Error committing schema: " err ;;
      resourcePostgreSQLSchemaReadImpl d c)).

End SchemaResource.

(** ** The grant resource *)

Definition createGrantQuery (d : GrantData) (privileges tables : list string) : string :=
  let objectType := ToUpper (g_object_type d) in
  let query :=
    if bool_decide (objectType = "DATABASE") then
      "GRANT " +:+ Join privileges "," +:+ " ON DATABASE "
        +:+ QuoteIdentifier (g_database d) +:+ " TO " +:+ QuoteIdentifier (g_role d)
    else if bool_decide (objectType = "TABLE" ∨ objectType = "SEQUENCE"
                         ∨ objectType = "FUNCTION") then
      if bool_decide (0 < length tables) then
        "GRANT " +:+ Join privileges "," +:+ " ON TABLE " +:+ Join tables ","
          +:+ " TO " +:+ QuoteIdentifier (g_role d)
      else
        "GRANT " +:+ Join privileges "," +:+ " ON ALL " +:+ objectType
          +:+ "S IN SCHEMA " +:+ QuoteIdentifier (g_schema d) +:+ " TO "
          +:+ QuoteIdentifier (g_role d)
    else "" in
  if g_with_grant_option d then query +:+ " WITH GRANT OPTION" else query.

Definition createRevokeQuery (d : GrantData) (tables : list string) : string :=
  let objectType := ToUpper (g_object_type d) in
  if bool_decide (objectType = "DATABASE") then
    "REVOKE ALL PRIVILEGES ON DATABASE " +:+ QuoteIdentifier (g_database d)
      +:+ " FROM " +:+ QuoteIdentifier (g_role d)
  else if bool_decide (objectType = "TABLE" ∨ objectType = "SEQUENCE"
                       ∨ objectType = "FUNCTION") then
    if bool_decide (0 < length tables) then
      "REVOKE ALL PRIVILEGES ON TABLE " +:+ Join tables "," +:+ " FROM "
        +:+ QuoteIdentifier (g_role d)
    else
      "REVOKE ALL PRIVILEGES ON ALL " +:+ objectType +:+ "S IN SCHEMA "
        +:+ QuoteIdentifier (g_schema d) +:+ " FROM " +:+ QuoteIdentifier (g_role d)
  else "".

Section GrantResource.
Context (W : World).

Definition grantRolePrivileges (txn : Tx) (d : GrantData) : M unit :=
  let privileges := getStringsFromSet (g_privileges d) in
  let tables := getStringsFromSet (g_tables d) in
  let query := createGrantQuery d privileges tables in
  err <- Exec W txn (Sql query) ;;
  check "" err.

Definition revokeRolePrivileges (txn : Tx) (d : GrantData) : M unit :=
  let tables := getStringsFromSet (g_tables d) in
  let query := createRevokeQuery d tables in
  err <- Exec W txn (Sql query) ;;
  check "could not execute revoke query: " err.

Definition getRolesToGrantForSchema (txn : Tx) (schemaName : string)
  : M (list string) :=
  owners <- getTablesOwner W txn schemaName ;;
  schemaOwner <- getSchemaOwner W txn schemaName ;;
  ret (if negb (sliceContainsStr owners schemaOwner)
       then owners ++ [schemaOwner] else owners).

Definition checkRoleDBSchemaExists (client : Client) (d : GrantData) : M bool :=
  txn <- startTransaction W "" ;;
  defer (deferredRollback txn) (
    let role := g_role d in
    exists_ <- roleExists W txn role ;;
    if negb exists_ then ret false
    else
      let database := g_database d in
      exists_ <- dbExists W (Some txn) database ;;
      if negb exists_ then ret false
      else if bool_decide (g_object_type d ≠ "database") then
        dbTxn <- startTransaction W database ;;
        defer (deferredRollback dbTxn) (
          let pgSchema := g_schema d in
          exists_ <- schemaExists W dbTxn pgSchema ;;
          if negb exists_ then ret false else ret true)
      else ret true).

(** [readRolePrivileges] by its reads: the one query of the branch taken
    and the errors returned. For a table grant whose identifier holds the
    delimiter the identifier is parsed first. What the rows write back
    into [d] is not part of the trace and is left out. *)
Definition readTableRolePrivileges (txn : Tx) (d : GrantData) : M unit :=
  parsed <- lift (readTableGrantID d) ;;
  let '(role, _, schemaName, _, tables, _) := parsed in
  rows <- QueryRows W (Some txn) (QPrivileges "table" role schemaName tables) ;;
  match rows with
  | Ok _ => ret tt
  | Fail e => fail (wrap "could not read table privileges: " e)
  | Panic msg => panic msg
  end.

Definition readDatabaseRolePrivileges (txn : Tx) (d : GrantData) : M unit :=
  rows <- QueryRows W (Some txn)
            (QPrivileges "database" (g_role d) (g_database d) []) ;;
  match rows with
  | Ok _ => ret tt
  | Fail e => fail (wrap "could not read database privileges: " e)
  | Panic msg => panic msg
  end.

Definition readRolePrivileges (txn : Tx) (d : GrantData) : M unit :=
  let object_type := ToUpper (g_object_type d) in
  if bool_decide (object_type = "DATABASE") then readDatabaseRolePrivileges txn d
  else if bool_decide (g_object_type d = "table")
          && Contains (g_id d) tableGrantIdDelimiterByte
  then readTableRolePrivileges txn d
  else
    let objectType := g_object_type d in
    rows <- QueryRows W (Some txn)
              (QPrivileges objectType (g_role d) (g_schema d) []) ;;
    _ <- lift rows ;;
    ret tt.

Definition resourcePostgreSQLGrantRead (d : GrantData) (client : Client)
  : M GrantData :=
  if negb (featureSupported client featurePrivileges) then
    fail ("postgresql_grant resource is not supported for this Postgres version ("
          +:+ version client +:+ ")")
  else
    RLock ;;
    defer RUnlock (
      exists_ <- checkRoleDBSchemaExists client d ;;
      if negb exists_ then ret (g_SetId d "")
      else
        let d := g_SetId d (generateGrantID d) in
        txn <- startTransaction W (g_database d) ;;
        defer (deferredRollback txn) (
          readRolePrivileges txn d ;;
          ret d)).

Definition resourcePostgreSQLGrantCreate (d : GrantData) (client : Client)
  : M GrantData :=
  if negb (featureSupported client featurePrivileges) then
    fail ("postgresql_grant resource is not supported for this Postgres version ("
          +:+ version client +:+ ")")
  else
    match validatePrivileges client d with
    | Some e => fail e
    | None =>
        let database := g_database d in
        let schemaName := g_schema d in
        Lock ;;
        defer Unlock (
          txn <- startTransaction W database ;;
          defer (deferredRollback txn) (
            owners <-
              (if bool_decide (g_object_type d ≠ "database")
               then getRolesToGrantForSchema txn schemaName
               else ret []) ;;
            withRolesGranted W txn (databaseUsername client) owners (
              revokeRolePrivileges txn d ;;
              grantRolePrivileges txn d) ;;
            err <- Commit W txn ;;
            check "could not commit transaction: " err ;;
            let d := g_SetId d (generateGrantID d) in
            txn <- startTransaction W database ;;
            defer (deferredRollback txn) (
              readRolePrivileges txn d ;;
              ret d)))
    end.

Definition resourcePostgreSQLGrantDelete (d : GrantData) (client : Client)
  : M GrantData :=
  if negb (featureSupported client featurePrivileges) then
    fail ("postgresql_grant resource is not supported for this Postgres version ("
          +:+ version client +:+ ")")
  else
    Lock ;;
    defer Unlock (
      txn <- startTransaction W (g_database d) ;;
      defer (deferredRollback txn) (
        owners <-
          (if bool_decide (g_object_type d ≠ "database")
           then getRolesToGrantForSchema txn (g_schema d)
           else ret []) ;;
        withRolesGranted W txn (databaseUsername client) owners (
          revokeRolePrivileges txn d) ;;
        err <- Commit W txn ;;
        check "could not commit transaction: " err ;;
        ret d)).

End GrantResource.

(** ** The extension resource *)

Definition e_SetRead (d : ExtensionData) (extName extSchema extVersion database : string)
  : ExtensionData :=
  {| e_id := e_id d; e_name := extName; e_schema := extSchema;
     e_schema_prior := e_schema_prior d; e_version := extVersion;
     e_version_prior := e_version_prior d; e_database := database |}.

Section ExtensionResource.
Context (W : World).

Definition extensionUnsupported (c : Client) : Error :=
  "postgresql_extension resource is not supported for this Postgres version ("
  +:+ version c +:+ ")".

Definition resourcePostgreSQLExtensionReadImpl (d : ExtensionData) (c : Client)
  : M ExtensionData :=
  let database := getDatabaseForExtension d c in
  txn <- startTransaction W database ;;
  defer (deferredRollback txn) (
    row <- QueryRow W (Some txn)
             (QSql "SELECT e.extname, n.nspname, e.extversion FROM pg_catalog.pg_extension e, pg_catalog.pg_namespace n WHERE n.oid = e.extnamespace AND e.extname = $1"
                [e_name d]) ;;
    match row with
    | ErrNoRows => ret (e_SetId d "")
    | RowErr e => fail (wrap "Error reading extension: " e)
    | Row cols =>
        let d := e_SetRead d (nth 0 cols "") (nth 1 cols "") (nth 2 cols "")
                   database in
        ret (e_SetId d (generateExtensionID d c))
    end).

Definition resourcePostgreSQLExtensionCreate (d : ExtensionData) (c : Client)
  : M ExtensionData :=
  if negb (featureSupported c featureExtension) then fail (extensionUnsupported c)
  else
    Lock ;;
    defer Unlock (
      let extName := e_name d in
      let b := "CREATE EXTENSION IF NOT EXISTS " +:+ QuoteIdentifier extName in
      let b := if bool_decide (e_schema d ≠ "")
               then b +:+ " SCHEMA " +:+ QuoteIdentifier (e_schema d) else b in
      let b := if bool_decide (e_version d ≠ "")
               then b +:+ " VERSION " +:+ QuoteIdentifier (e_version d) else b in
      let database := getDatabaseForExtension d c in
      txn <- startTransaction W database ;;
      defer (deferredRollback txn) (
        let sql := b in
        err <- Exec W txn (Sql sql) ;;
        check "" err ;;
        err <- Commit W txn ;;
        check "Error creating extension: " err ;;
        let d := e_SetId d (generateExtensionID d c) in
        resourcePostgreSQLExtensionReadImpl d c)).

Definition resourcePostgreSQLExtensionExists (d : ExtensionData) (c : Client)
  : M bool :=
  if negb (featureSupported c featureExtension) then fail (extensionUnsupported c)
  else
    Lock ;;
    defer Unlock (
      let database := getDatabaseForExtension d c in
      txn <- startTransaction W database ;;
      defer (deferredRollback txn) (
        let query := "SELECT extname FROM pg_catalog.pg_extension WHERE extname = $1" in
        row <- QueryRow W (Some txn) (QSql query [e_name d]) ;;
        match row with
        | ErrNoRows => ret false
        | RowErr e => fail e
        | Row _ => ret true
        end)).

Definition resourcePostgreSQLExtensionRead (d : ExtensionData) (c : Client)
  : M ExtensionData :=
  if negb (featureSupported c featureExtension) then fail (extensionUnsupported c)
  else
    RLock ;;
    defer RUnlock (resourcePostgreSQLExtensionReadImpl d c).

Definition resourcePostgreSQLExtensionDelete (d : ExtensionData) (c : Client)
  : M ExtensionData :=
  if negb (featureSupported c featureExtension) then fail (extensionUnsupported c)
  else
    Lock ;;
    defer Unlock (
      let extName := e_name d in
      let database := getDatabaseForExtension d c in
      txn <- startTransaction W database ;;
      defer (deferredRollback txn) (
        let sql := "DROP EXTENSION " +:+ QuoteIdentifier extName in
        err <- Exec W txn (Sql sql) ;;
        check "" err ;;
        err <- Commit W txn ;;
        check "Error deleting extension: " err ;;
        ret (e_SetId d ""))).

Definition setExtSchema (txn : Tx) (d : ExtensionData) : M unit :=
  if negb (HasChange (e_schema_prior d) (e_schema d)) then ret tt
  else
    let extName := e_name d in
    let n := e_schema d in
    if bool_decide (n = "")
    then fail "Error setting extension name to an empty string"
    else
      let sql := "ALTER EXTENSION " +:+ QuoteIdentifier extName +:+ " SET SCHEMA "
                 +:+ QuoteIdentifier n in
      err <- Exec W txn (Sql sql) ;;
      check "Error updating extension SCHEMA: " err.

Definition setExtVersion (txn : Tx) (d : ExtensionData) : M unit :=
  if negb (HasChange (e_version_prior d) (e_version d)) then ret tt
  else
    let extName := e_name d in
    let b := "ALTER EXTENSION " +:+ QuoteIdentifier extName +:+ " UPDATE" in
    let n := e_version d in
    let b := if bool_decide (n ≠ "") then b +:+ " TO " +:+ QuoteIdentifier n else b in
    let sql := b in
    err <- Exec W txn (Sql sql) ;;
    check "Error updating extension version: " err.

Definition resourcePostgreSQLExtensionUpdate (d : ExtensionData) (c : Client)
  : M ExtensionData :=
  if negb (featureSupported c featureExtension) then fail (extensionUnsupported c)
  else
    Lock ;;
    defer Unlock (
      let database := getDatabaseForExtension d c in
      txn <- startTransaction W database ;;
      defer (deferredRollback txn) (
        setExtSchema txn d ;;
        setExtVersion txn d ;;
        err <- Commit W txn ;;
        check "Error updating extension: " err ;;
        resourcePostgreSQLExtensionReadImpl d c)).

End ExtensionResource.

(** ** Definitions used in the statements *)

(** A field that holds neither the [":"] of the identifier nor the [","]
    of its lists. *)
Definition plain (s : string) : Prop :=
  Contains s ":" = false ∧ Contains s "," = false.

Global Instance plain_dec s : Decision (plain s).
Proof. unfold plain. apply _. Defined.

(** The fields every grant identifier starts with. *)
Definition grantIDHead (d : GrantData) : list string :=
  [g_role d; g_database d]
  ++ (if bool_decide (g_object_type d ≠ "database") then [g_schema d] else [])
  ++ [g_object_type d].

(** Sample grants. *)
Definition grant_db_tables : GrantData :=
  {| g_id := ""; g_role := "alice"; g_database := "app"; g_schema := "";
     g_object_type := "database"; g_tables := ["t1"];
     g_privileges := ["SELECT"]; g_with_grant_option := false |}.

Definition grant_no_privileges : GrantData :=
  {| g_id := ""; g_role := "alice"; g_database := "app"; g_schema := "public";
     g_object_type := "table"; g_tables := ["t1"];
     g_privileges := []; g_with_grant_option := false |}.

Definition grant_all_tables : GrantData :=
  {| g_id := ""; g_role := "alice"; g_database := "app"; g_schema := "public";
     g_object_type := "table"; g_tables := [];
     g_privileges := ["SELECT"]; g_with_grant_option := false |}.

Definition grant_two_tables : GrantData :=
  {| g_id := ""; g_role := "alice"; g_database := "app"; g_schema := "public";
     g_object_type := "table"; g_tables := ["t2"; "t1"];
     g_privileges := ["UPDATE"; "SELECT"]; g_with_grant_option := false |}.

(** Sample schemas and client. *)
Definition client0 : Client :=
  {| databaseName := "postgres"; databaseUsername := "terraform";
     version := "11.0.0"; featureSupported := λ _, true;
     validatePrivileges := λ _, None |}.

Definition schema_named (database name : string) : SchemaData :=
  {| s_id := ""; s_name := name; s_name_prior := name; s_database := database;
     s_owner := ""; s_owner_prior := ""; s_if_not_exists := true;
     s_drop_cascade := false; s_policy := []; s_policy_prior := [] |}.

(** A fragment whose role, when it has one, is a string, as the schema of
    the resource declares it. *)
Definition roleTyped (p : gmap string Attr) : Prop :=
  ∀ v, p !! schemaPolicyRoleAttr = Some v → ∃ role, v = AString role.

(** A fragment with the four privilege switches and a string role if any:
    one that [schemaPolicyToACL] converts. *)
Definition wellFormed (p : gmap string Attr) : Prop :=
  ∃ a, schemaPolicyToACL p = Ok a.

(** A fragment that carries a role string. *)
Definition hasRole (p : gmap string Attr) : Prop :=
  ∃ role, p !! schemaPolicyRoleAttr = Some (AString role).

(** The role key of a fragment, when it carries a role string. *)
Definition roleKey (p : gmap string Attr) : option string :=
  match p !! schemaPolicyRoleAttr with
  | Some (AString role) => Some (ToLower role)
  | _ => None
  end.

(** The lower-cased role keys of a list of fragments. *)
Definition roleKeys (l : list (gmap string Attr)) : gset string :=
  list_to_set (omap roleKey l).

(** A fragment as the resource schema shapes it. *)
Definition fragment (role : string) (create createWithGrant usage usageWithGrant : bool)
  : gmap string Attr :=
  <[schemaPolicyRoleAttr := AString role]>
    (<[schemaPolicyCreateAttr := ABool create]>
       (<[schemaPolicyCreateWithGrantAttr := ABool createWithGrant]>
          (<[schemaPolicyUsageAttr := ABool usage]>
             (<[schemaPolicyUsageWithGrantAttr := ABool usageWithGrant]> ∅)))).

(** Sample policy lists: one role declared in two fragments, and the
    second of these fragments alone. *)
Definition policies_alice_split : list (gmap string Attr) :=
  [fragment "alice" true false false false;
   fragment "Alice" false false true false].

Definition policies_alice_usage : list (gmap string Attr) :=
  [fragment "Alice" false false true false].

Definition policies_bob : list (gmap string Attr) :=
  [fragment "bob" false false true false].

(** ** Protocols over the event trace *)

(** A protocol is an automaton over events: [advance p e] is the phase
    after event [e] in phase [p], or [None] when the protocol forbids [e]
    there. [run] reads a whole trace. *)
Section Protocol.
Context {S : Type} (advance : S → Event → option S).

Fixpoint run (p : S) (evs : list Event) : option S :=
  match evs with
  | [] => Some p
  | e :: rest =>
      match advance p e with
      | Some q => run q rest
      | None => None
      end
  end.

(** [m] started in phase [p] extends the trace by events the protocol
    admits, and when it returns a value the value and the phase reached
    satisfy [Φ]. *)
Definition obeys {A} (p : S) (Φ : A → S → Prop) (m : M A) : Prop :=
  ∀ t, ∃ r evs q,
    m t = (r, t ++ evs) ∧ run p evs = Some q ∧ ∀ a, r = Ok a → Φ a q.

End Protocol.

(** The one-phase protocol that admits the events satisfying [P]. *)
Definition only (P : Event → bool) (p : unit) (e : Event) : option unit :=
  if P e then Some tt else None.

(** [e1] occurs in the trace and [e2] occurs later. *)
Definition precedes (e1 e2 : Event) (t : list Event) : Prop :=
  ∃ t1 t2 t3, t = t1 ++ e1 :: t2 ++ e2 :: t3.

(** ** The elevation protocol of the schema operations *)

(** Where a schema operation stands in its transaction: open, with or
    without a membership granted by the operation itself; membership
    revoked; committed; or stopped by a failed step. *)
Inductive Phase : Type :=
| Open (granted : bool)
| Revoked
| Committed
| Stopped.

Global Instance Phase_eq_dec : EqDecision Phase.
Proof. solve_decision. Defined.

(** A statement other than a grant or revoke of role membership. *)
Definition plainStmt (s : Stmt) : bool :=
  match s with
  | Sql _ | AclGrant _ _ _ _ | AclRevoke _ _ _ _ => true
  | GrantMembership _ _ | RevokeMembership _ _ => false
  end.

Definition after (err : option Error) (p : Phase) : option Phase :=
  match err with
  | None => Some p
  | Some _ => Some Stopped
  end.

(** The protocol for transaction [txn], owner role [owner] and connected
    user [user]. Statements and the commit belong to [txn]. Membership of
    [owner] is granted to [user] at most once, while nothing is granted
    yet; it is revoked only while granted; the commit comes with nothing
    granted or after the revoke; after a failed step or the commit nothing
    more is executed. Other events are free. *)
Definition elevation (W : World) (txn : Tx) (owner user : string)
    (p : Phase) (e : Event) : option Phase :=
  match e with
  | EExec tx s err =>
      if bool_decide (tx = txn) then
        match p, s with
        | Open false, GrantMembership role member =>
            if bool_decide (role = owner ∧ member = user) then
              match err with
              | None => Some (Open true)
              | Some e => if already_member W e then Some (Open false)
                          else Some Stopped
              end
            else None
        | Open true, RevokeMembership role member =>
            if bool_decide (role = owner ∧ member = user)
            then after err Revoked else None
        | Open granted, (Sql _ | AclGrant _ _ _ _ | AclRevoke _ _ _ _) =>
            after err (Open granted)
        | _, _ => None
        end
      else None
  | ECommit tx err =>
      if bool_decide (tx = txn) then
        match p with
        | Open false | Revoked => after err Committed
        | _ => None
        end
      else None
  | _ => Some p
  end.

(** The three operations on a schema that elevate. *)
Definition schemaOperations (W : World)
  : list (SchemaData → Client → M SchemaData) :=
  [resourcePostgreSQLSchemaCreate W; resourcePostgreSQLSchemaUpdate W;
   resourcePostgreSQLSchemaDelete W].

Definition isRevokeMembership (e : Event) : bool :=
  match e with
  | EExec _ (RevokeMembership _ _) _ => true
  | _ => false
  end.

Definition isCommit (e : Event) : bool :=
  match e with
  | ECommit _ _ => true
  | _ => false
  end.

(** A statement executed or a commit, as opposed to a read, the opening or
    rollback of a transaction, or a step on the lock. *)
Definition isStep (e : Event) : bool :=
  match e with
  | EExec _ _ _ | ECommit _ _ => true
  | _ => false
  end.

Definition orStopped (err : option Error) (p : Phase) : Phase :=
  match err with
  | None => p
  | Some _ => Stopped
  end.

(** Sample worlds: one where every call succeeds and the catalog holds
    no row, and one where the database refuses every statement the
    package assembles but grants and revokes membership. *)
Definition world_ok : World :=
  {| begin_result := λ _ _, None;
     exec_result := λ _ _ _, None;
     commit_result := λ _ _, None;
     row_result := λ _ _ _, ErrNoRows;
     rows_result := λ _ _ _, Ok [];
     already_member := λ _, false;
     acl_parse := λ _, Fail "malformed aclitem";
     acl_new_schema := Ok |}.

Definition world_refusing : World :=
  {| begin_result := λ _ _, None;
     exec_result := λ _ _ s,
       match s with
       | Sql _ => Some "permission denied"
       | _ => None
       end;
     commit_result := λ _ _, None;
     row_result := λ _ _ _, ErrNoRows;
     rows_result := λ _ _ _, Ok [];
     already_member := λ _, false;
     acl_parse := λ _, Fail "malformed aclitem";
     acl_new_schema := Ok |}.

Definition schema_owned : SchemaData :=
  {| s_id := ""; s_name := "app"; s_name_prior := "app"; s_database := "";
     s_owner := "owner"; s_owner_prior := "owner"; s_if_not_exists := true;
     s_drop_cascade := false; s_policy := []; s_policy_prior := [] |}.

(** The events that are no statement and no commit. *)
Definition noStep (e : Event) : bool := negb (isStep e).

Definition isGrantMembership (e : Event) : bool :=
  match e with
  | EExec _ (GrantMembership _ _) _ => true
  | _ => false
  end.

Definition grant_on_schema : GrantData :=
  {| g_id := ""; g_role := "alice"; g_database := "app"; g_schema := "public";
     g_object_type := "table"; g_tables := [];
     g_privileges := ["SELECT"; "INSERT"]; g_with_grant_option := false |}.

(** A world where every call succeeds, the tables of the schema belong to
    [tables_owner] and the schema to [schema_owner]. *)
Definition world_owned : World :=
  {| begin_result := λ _ _, None;
     exec_result := λ _ _ _, None;
     commit_result := λ _ _, None;
     row_result := λ _ _ q,
       match q with
       | QSchemaOwner _ => Row ["schema_owner"]
       | _ => Row []
       end;
     rows_result := λ _ _ q,
       match q with
       | QTablesOwner _ => Ok [["tables_owner"]]
       | _ => Ok []
       end;
     already_member := λ _, false;
     acl_parse := λ _, Fail "malformed aclitem";
     acl_new_schema := Ok |}.

(** The object types that the resource schema admits. *)
Definition allowedObjectTypes : list string :=
  ["database"; "table"; "sequence"; "function"].

(** The objects of a grant, as its two statements name them after [ON]. *)
Definition grantTarget (d : GrantData) (tables : list string) : string :=
  if bool_decide (g_object_type d = "database")
  then "DATABASE " +:+ QuoteIdentifier (g_database d)
  else if bool_decide (0 < length tables)
       then "TABLE " +:+ Join tables ","
       else "ALL " +:+ ToUpper (g_object_type d) +:+ "S IN SCHEMA "
            +:+ QuoteIdentifier (g_schema d).

(** The roles whose membership the grants [gs] gave: those of the grants
    that succeeded, in their order. *)
Definition grantedRoles (gs : list Event) : list string :=
  omap (λ e, match e with
             | EExec _ (GrantMembership role _) None => Some role
             | _ => None
             end) gs.

(** The order of the statements and the commit of one grant operation in
    transaction [txn]: the elevation grants [gs]; then the [body], which
    is [revokeAll] followed, only if it succeeded, by [grant]; then the
    elevation revokes [rs], one for each membership that a grant of [gs]
    gave, in the same order, and no other; then the [tail], which holds
    the commit and is there only when every statement before it
    succeeded. An operation that returns without error has committed. *)
Definition inGrantOrder (txn : Tx) (actor : string) (revokeAll grant : Stmt)
    (ok : bool) (steps : list Event) : Prop :=
  ∃ gs body rs tail,
    steps = gs ++ body ++ rs ++ tail
    ∧ Forall (λ e, ∃ role err, e = EExec txn (GrantMembership role actor) err) gs
    ∧ (body = []
       ∨ (∃ err, body = [EExec txn revokeAll (Some err)])
       ∨ (∃ err, body = [EExec txn revokeAll None; EExec txn grant err]))
    ∧ Forall2 (λ role e, ∃ err, e = EExec txn (RevokeMembership role actor) err)
        (grantedRoles gs) rs
    ∧ (tail = []
       ∨ ∃ cerr, tail = [ECommit txn cerr]
                 ∧ body = [EExec txn revokeAll None; EExec txn grant None]
                 ∧ Forall (λ e, ∃ role,
                             e = EExec txn (RevokeMembership role actor) None) rs)
    ∧ (ok = true → tail = [ECommit txn None]).

(** What the unit of work of a grant leaves in the trace: the revoke of
    all privileges and, only if it succeeded, the grant. *)
Definition grantBody (revokeAll grant : Stmt) (txn : Tx) (r : Res unit)
    (body : list Event) : Prop :=
  (∃ err, body = [EExec txn revokeAll (Some err)] ∧ is_ok r = false)
  ∨ (∃ err, body = [EExec txn revokeAll None; EExec txn grant err]
            ∧ (is_ok r = true → err = None)).

(** The events that are no step on the catalog lock. *)
Definition unlocked (e : Event) : bool :=
  match e with
  | ELock | EUnlock | ERLock | ERUnlock => false
  | _ => true
  end.

(** [m] adds to the trace only events that satisfy [P]. *)
Definition emitsOnly {A} (P : Event → bool) (m : M A) : Prop :=
  obeys (only P) tt (λ _ _, True) m.

Definition extension_pgcrypto : ExtensionData :=
  {| e_id := ""; e_name := "pgcrypto"; e_schema := ""; e_schema_prior := "";
     e_version := ""; e_version_prior := ""; e_database := "" |}.

(** How an operation holds the catalog lock: it takes the lock first,
    in the given mode, releases it last, and does not touch the lock in
    between, so that every transaction it opens lies inside. *)
Inductive LockMode : Type := Exclusive | Shared.

Definition acquire (mode : LockMode) : Event :=
  match mode with Exclusive => ELock | Shared => ERLock end.

Definition release (mode : LockMode) : Event :=
  match mode with Exclusive => EUnlock | Shared => ERUnlock end.

Definition holdsLock (mode : LockMode) (t : list Event) : Prop :=
  ∃ mid, t = acquire mode :: mid ++ [release mode]
         ∧ Forall (λ e, unlocked e = true) mid.

(** The lookup of a role in [pg_roles] that [setSchemaPolicy] makes
    before it revokes from a dropped role. *)
Definition roleQuery (role : string) : Query :=
  QSql "SELECT TRUE FROM pg_catalog.pg_roles WHERE rolname = $1" [role].

(** A statement that revokes a schema privilege from [role], and an event
    that executes one. *)
Definition revokesFrom (role : string) (s : Stmt) : bool :=
  match s with
  | AclRevoke _ _ _ r => bool_decide (r = role)
  | _ => false
  end.

Definition revokesRole (role : string) (e : Event) : bool :=
  match e with
  | EExec _ s _ => revokesFrom role s
  | _ => false
  end.

Definition policies_bob_dropped : SchemaData :=
  {| s_id := "postgres.app"; s_name := "app"; s_name_prior := "app";
     s_database := ""; s_owner := ""; s_owner_prior := "";
     s_if_not_exists := true; s_drop_cascade := false;
     s_policy := []; s_policy_prior := policies_bob |}.

(** A world like [world_ok] where every role exists. *)
Definition world_roles : World :=
  {| begin_result := λ _ _, None;
     exec_result := λ _ _ _, None;
     commit_result := λ _ _, None;
     row_result := λ _ _ _, Row ["t"];
     rows_result := λ _ _ _, Ok [];
     already_member := λ _, false;
     acl_parse := λ _, Fail "malformed aclitem";
     acl_new_schema := Ok |}.

(** ** Further protocols and classes of events *)

(** The protocol that notes whether transaction [txn] was committed
    without error. *)
Definition committing (txn : Tx) (committed : bool) (e : Event) : option bool :=
  match e with
  | ECommit tx None => Some (bool_decide (tx = txn) || committed)
  | _ => Some committed
  end.

(** An event other than a commit. *)
Definition noCommit (e : Event) : bool := negb (isCommit e).



(** A statement or a read on transaction [txn]. *)
Definition usesTx (txn : Tx) (e : Event) : bool :=
  match e with
  | EExec tx _ _ | EQuery (Some tx) _ => bool_decide (tx = txn)
  | _ => false
  end.

(** The discipline of transactions. The phase is the stack of the
    transactions begun and not yet rolled back, the latest first, each
    with the mark of having been committed. Statements, reads and the
    commit go to the latest transaction, and only before its commit; a
    rollback ends the latest transaction (after a commit it changes
    nothing in the database). Steps on the lock and reads on the client's
    own connection are free. *)
Definition transactions (open : list (Tx * bool)) (e : Event)
  : option (list (Tx * bool)) :=
  match e with
  | EBegin tx _ => Some ((tx, false) :: open)
  | EExec tx _ _ | EQuery (Some tx) _ =>
      match open with
      | (tx', false) :: _ => if bool_decide (tx = tx') then Some open else None
      | _ => None
      end
  | ECommit tx _ =>
      match open with
      | (tx', false) :: rest =>
          if bool_decide (tx = tx') then Some ((tx, true) :: rest) else None
      | _ => None
      end
  | ERollback tx =>
      match open with
      | (tx', _) :: rest => if bool_decide (tx = tx') then Some rest else None
      | [] => None
      end
  | EQuery None _ | ELock | EUnlock | ERLock | ERUnlock => Some open
  end.

(** [m] started in phase [p] extends the trace by events the protocol
    admits and ends, whatever it returns, in a phase that satisfies [I]. *)
Definition settles {S A} (advance : S → Event → option S) (p : S) (I : S → Prop)
    (m : M A) : Prop :=
  ∀ t, ∃ r evs q, m t = (r, t ++ evs) ∧ run advance p evs = Some q ∧ I q.

(** The roles that the fragments of a policy list name. *)
Definition declaredRoles (l : list (gmap string Attr)) : list string :=
  omap (λ p, match schemaPolicyToACL p with
             | Ok a => Some (acl.Role a)
             | _ => None
             end) l.

(** What an update of the policy of schema [schemaName] from [old] to
    [new] may execute: revocations on the schema from roles of [old] and
    grants on the schema to roles of [new]. *)
Definition policyStmt (schemaName : string) (old new : list (gmap string Attr))
    (s : Stmt) : bool :=
  match s with
  | AclRevoke _ _ target role =>
      bool_decide (target = schemaName ∧ role ∈ declaredRoles old)
  | AclGrant _ _ target role =>
      bool_decide (target = schemaName ∧ role ∈ declaredRoles new)
  | _ => false
  end.

Definition policyEvent (txn : Tx) (schemaName : string)
    (old new : list (gmap string Attr)) (e : Event) : bool :=
  match e with
  | EExec tx s _ => bool_decide (tx = txn) && policyStmt schemaName old new s
  | EQuery (Some tx) _ => bool_decide (tx = txn)
  | _ => false
  end.

(** * Properties *)

(** ** [strings] and [sort] *)

Section GoStringsFacts.
Implicit Types (s p : string) (c : ascii) (parts : list string).

Lemma Contains_app s1 s2 c :
  Contains (s1 +:+ s2) c = Contains s1 c || Contains s2 c.
Proof.
  induction s1 as [|a s1 IH]; simpl; [done|].
  rewrite IH. by rewrite orb_assoc.
Qed.

Lemma Split_nonempty s c : Split s c ≠ [].
Proof.
  induction s as [|a s IH]; simpl; [done|].
  destruct (Ascii.eqb a c); [done|]. by destruct (Split s c).
Qed.

Lemma Split_without s c : Contains s c = false → Split s c = [s].
Proof.
  induction s as [|a s IH]; simpl; [done|].
  intros [Ha Hs]%orb_false_iff. rewrite Ha, (IH Hs). done.
Qed.

Lemma Split_app_sep s1 s2 c :
  Contains s1 c = false →
  Split (s1 +:+ String c s2) c = s1 :: Split s2 c.
Proof.
  induction s1 as [|a s1 IH]; simpl.
  - intros _. by rewrite Ascii.eqb_refl.
  - intros [Ha Hs]%orb_false_iff. change (String a s1 +:+ ?x) with (String a (s1 +:+ x)).
    simpl. rewrite Ha, (IH Hs). done.
Qed.

Lemma Join_cons_cons x y parts sep :
  Join (x :: y :: parts) sep = x +:+ sep +:+ Join (y :: parts) sep.
Proof. done. Qed.

(** Splitting what was joined with a one-byte separator that occurs in
    none of the parts gives the parts back. *)
Lemma Split_Join parts c :
  parts ≠ [] →
  Forall (λ p, Contains p c = false) parts →
  Split (Join parts (String c EmptyString)) c = parts.
Proof.
  induction parts as [|x parts IH]; [done|]. intros _ Hall.
  apply Forall_cons in Hall as [Hx Hall].
  destruct parts as [|y parts].
  - simpl. by apply Split_without.
  - rewrite Join_cons_cons.
    change (x +:+ String c EmptyString +:+ ?r) with (x +:+ String c r).
    rewrite Split_app_sep by done. f_equal. by apply IH.
Qed.

Lemma Contains_Join parts sep c :
  Forall (λ p, Contains p c = false) parts →
  Contains sep c = false →
  Contains (Join parts sep) c = false.
Proof.
  intros Hall Hsep. induction Hall as [|x parts Hx Hall IH]; [done|].
  destruct parts as [|y parts]; [done|].
  rewrite Join_cons_cons, !Contains_app, Hx, Hsep. simpl. apply IH.
Qed.

Lemma sortStrings_Permutation (l : list string) : sortStrings l ≡ₚ l.
Proof. apply merge_sort_Permutation. Qed.

Lemma sortStrings_Sorted (l : list string) :
  StronglySorted String.le (sortStrings l).
Proof. unfold sortStrings. apply StronglySorted_merge_sort; apply _. Qed.

Lemma sortStrings_nonempty (l : list string) : l ≠ [] → sortStrings l ≠ [].
Proof.
  intros Hl Hs. pose proof (sortStrings_Permutation l) as Hp.
  rewrite Hs in Hp. by apply Permutation_nil_l in Hp.
Qed.

Lemma sortStrings_Forall (P : string → Prop) (l : list string) :
  Forall P l → Forall P (sortStrings l).
Proof. intros H. by rewrite sortStrings_Permutation. Qed.

End GoStringsFacts.

(** ** Identifiers of grants and schemas *)

Lemma generateGrantID_short (d : GrantData) :
  g_tables d = [] → generateGrantID d = Join (grantIDHead d) "_".
Proof.
  intros Ht. unfold generateGrantID, grantIDHead, getStringsFromSet.
  rewrite Ht. simpl. by case_bool_decide.
Qed.

Lemma generateGrantID_long (d : GrantData) :
  g_tables d ≠ [] →
  generateGrantID d =
    Join (grantIDHead d ++ [Join (sortStrings (g_tables d)) ",";
                            Join (sortStrings (g_privileges d)) ","]) ":".
Proof.
  intros Ht. unfold generateGrantID, grantIDHead, getStringsFromSet.
  rewrite bool_decide_eq_false_2 by (by destruct (g_tables d)).
  case_bool_decide; by rewrite <- ?app_assoc.
Qed.

Example generateGrantID_two_tables :
  generateGrantID grant_two_tables = "alice:app:public:table:t1,t2:SELECT,UPDATE".
Proof. vm_compute. reflexivity. Qed.

Example generateGrantID_all_tables :
  generateGrantID grant_all_tables = "alice_app_public_table".
Proof. vm_compute. reflexivity. Qed.

Ltac solve_plain :=
  repeat first
    [ apply Forall_nil_2 | apply Forall_cons_2; [split; vm_compute; reflexivity|] ].

(** C10, as stated, fails twice. With object type ["database"] the
    identifier has five fields and [readTableGrantID] reads a sixth; with
    an empty privilege set the parsed privilege list is [[""]]. All fields
    of both inputs are free of [":"] and [","] and the table set is not
    empty. *)
Lemma readTableGrantID_roundtrip_counterexample :
  (g_tables grant_db_tables ≠ []
   ∧ Forall plain ([g_role grant_db_tables; g_database grant_db_tables;
                    g_schema grant_db_tables; g_object_type grant_db_tables]
                   ++ g_tables grant_db_tables ++ g_privileges grant_db_tables)
   ∧ readTableGrantID (g_SetId grant_db_tables (generateGrantID grant_db_tables))
     = Panic "index out of range")
  ∧ (g_tables grant_no_privileges ≠ []
     ∧ Forall plain ([g_role grant_no_privileges; g_database grant_no_privileges;
                      g_schema grant_no_privileges; g_object_type grant_no_privileges]
                     ++ g_tables grant_no_privileges
                     ++ g_privileges grant_no_privileges)
     ∧ readTableGrantID
         (g_SetId grant_no_privileges (generateGrantID grant_no_privileges))
       = Ok ("alice", "app", "public", "table", ["t1"], [""])
     ∧ sortStrings (g_privileges grant_no_privileges) = []).
Proof.
  split; (split; [done|]); (split; [solve_plain|]).
  - vm_compute. reflexivity.
  - split; vm_compute; reflexivity.
Qed.

(** C10 (amended): for a grant whose table and privilege sets are not
    empty, whose object type is not ["database"] and whose fields hold
    neither [":"] nor [","], parsing the generated identifier returns the
    role, database, schema and object type, and the tables and privileges
    as the sorted lists of the input sets. *)
Theorem readTableGrantID_generateGrantID (d : GrantData) :
  g_tables d ≠ [] →
  g_privileges d ≠ [] →
  g_object_type d ≠ "database" →
  Forall plain ([g_role d; g_database d; g_schema d; g_object_type d]
                ++ g_tables d ++ g_privileges d) →
  readTableGrantID (g_SetId d (generateGrantID d))
    = Ok (g_role d, g_database d, g_schema d, g_object_type d,
          sortStrings (g_tables d), sortStrings (g_privileges d))
  ∧ StronglySorted String.le (sortStrings (g_tables d))
  ∧ sortStrings (g_tables d) ≡ₚ g_tables d
  ∧ StronglySorted String.le (sortStrings (g_privileges d))
  ∧ sortStrings (g_privileges d) ≡ₚ g_privileges d.
Proof.
  intros Ht Hp Hobj Hplain.
  split; [|eauto 6 using sortStrings_Sorted, sortStrings_Permutation].
  rewrite !Forall_app in Hplain. destruct Hplain as (Hhead & Htabs & Hprivs).
  apply Forall_cons in Hhead as [[Hr _] Hhead].
  apply Forall_cons in Hhead as [[Hd _] Hhead].
  apply Forall_cons in Hhead as [[Hs _] Hhead].
  apply Forall_cons in Hhead as [[Ho _] _].
  assert (Hjt : Contains (Join (sortStrings (g_tables d)) ",") ":" = false).
  { apply Contains_Join; [|done]. apply sortStrings_Forall.
    eapply Forall_impl; [exact Htabs|]. by intros ? [? _]. }
  assert (Hjp : Contains (Join (sortStrings (g_privileges d)) ",") ":" = false).
  { apply Contains_Join; [|done]. apply sortStrings_Forall.
    eapply Forall_impl; [exact Hprivs|]. by intros ? [? _]. }
  unfold readTableGrantID. change (g_id (g_SetId d ?i)) with i.
  rewrite generateGrantID_long by done. unfold grantIDHead.
  rewrite bool_decide_eq_true_2 by done.
  unfold tableGrantIdDelimiterByte.
  simpl app.
  rewrite (Split_Join _ ":");
    [| done | repeat (apply Forall_cons_2; [assumption|]); apply Forall_nil_2].
  simpl.
  rewrite !(Split_Join _ ",").
  - done.
  - by apply sortStrings_nonempty.
  - apply sortStrings_Forall. eapply Forall_impl; [exact Hprivs|]. by intros ? [_ ?].
  - by apply sortStrings_nonempty.
  - apply sortStrings_Forall. eapply Forall_impl; [exact Htabs|]. by intros ? [_ ?].
Qed.

Lemma readTableGrantID_generateGrantID_witness :
  readTableGrantID (g_SetId grant_two_tables (generateGrantID grant_two_tables))
    = Ok ("alice", "app", "public", "table", ["t1"; "t2"], ["SELECT"; "UPDATE"]).
Proof.
  refine (eq_trans (proj1 (readTableGrantID_generateGrantID grant_two_tables _ _ _ _)) _);
    first [done | solve_plain | vm_compute; reflexivity].
Defined.

Lemma Contains_Join_two x y parts c :
  Contains (Join (x :: y :: parts) (String c EmptyString)) c = true.
Proof.
  rewrite Join_cons_cons, !Contains_app. simpl. rewrite Ascii.eqb_refl.
  by rewrite orb_true_r.
Qed.

(** C9, as stated, fails: a grant identifier does not start with the
    database and a ["."] (with an empty table set its fields are joined
    with ["_"]); the [":"] form is produced for any object type with a
    non-empty table set, not only for a table grant; and nothing keeps the
    delimiters out of the fields, so two different schemas share one
    identifier. *)
Lemma identifier_format_counterexample :
  generateGrantID grant_all_tables = "alice_app_public_table"
  ∧ (¬ ∃ name, generateGrantID grant_all_tables
               = g_database grant_all_tables +:+ "." +:+ name)
  ∧ (¬ ∃ rest, generateGrantID grant_two_tables
               = g_database grant_two_tables +:+ "." +:+ rest)
  ∧ (g_object_type grant_db_tables ≠ "table"
     ∧ generateGrantID grant_db_tables = "alice:app:database:t1:SELECT")
  ∧ (schema_named "a.b" "c" ≠ schema_named "a" "b.c"
     ∧ generateSchemaID (schema_named "a.b" "c") client0
       = generateSchemaID (schema_named "a" "b.c") client0).
Proof.
  split; [vm_compute; reflexivity|].
  split; [intros [name H]; vm_compute in H; discriminate|].
  split; [intros [name H]; vm_compute in H; discriminate|].
  split; [split; [done | vm_compute; reflexivity]|].
  split; [discriminate | vm_compute; reflexivity].
Qed.

(** C9 (amended): a schema identifier is the target database and the
    schema name joined with ["."]. A grant identifier is the role, the
    database, the schema (left out for object type ["database"]) and the
    object type, joined with ["_"] when the table set is empty; otherwise
    these fields, the sorted tables joined with [","] and the sorted
    privileges joined with [","] follow one another joined with [":"].
    When none of the leading fields holds a [":"], the identifier holds
    one exactly when the table set is not empty. *)
Theorem identifier_formats (d : SchemaData) (c : Client) (g : GrantData) :
  generateSchemaID d c = getDatabase d c +:+ "." +:+ s_name d
  ∧ (g_tables g = [] → generateGrantID g = Join (grantIDHead g) "_")
  ∧ (g_tables g ≠ [] →
     generateGrantID g
     = Join (grantIDHead g ++ [Join (sortStrings (g_tables g)) ",";
                               Join (sortStrings (g_privileges g)) ","]) ":")
  ∧ (Forall (λ s, Contains s ":" = false) (grantIDHead g) →
     (Contains (generateGrantID g) ":" = true ↔ g_tables g ≠ [])).
Proof.
  split; [done|]. split; [apply generateGrantID_short|].
  split; [apply generateGrantID_long|].
  intros Hhead. destruct (decide (g_tables g = [])) as [Ht|Ht].
  - rewrite generateGrantID_short by done.
    rewrite Contains_Join by done. split; [done|]. by intros [].
  - rewrite generateGrantID_long by done. unfold grantIDHead.
    simpl app. split; [done|]. intros _. apply Contains_Join_two.
Qed.

Lemma identifier_formats_witness :
  generateSchemaID (schema_named "app" "public") client0 = "app.public"
  ∧ generateGrantID grant_all_tables = "alice_app_public_table"
  ∧ generateGrantID grant_two_tables = "alice:app:public:table:t1,t2:SELECT,UPDATE"
  ∧ Contains (generateGrantID grant_two_tables) ":" = true.
Proof.
  pose proof (identifier_formats (schema_named "app" "public") client0
                grant_all_tables) as (Hs & Hshort & _ & _).
  pose proof (identifier_formats (schema_named "app" "public") client0
                grant_two_tables) as (_ & _ & Hlong & Hiff).
  split; [exact Hs|]. split; [exact (Hshort eq_refl)|].
  split; [rewrite Hlong by done; vm_compute; reflexivity|].
  apply Hiff; [repeat (apply Forall_cons_2; [vm_compute; reflexivity|]);
               apply Forall_nil_2 | done].
Defined.

(** ** The policy diff *)

Section DiffFacts.
Implicit Types (old new lookupMap : gmap string (gmap string Attr)).
Implicit Types (l : list (gmap string Attr)) (k : string).

Lemma droppedLoop_lookup old new k :
  droppedLoop old new !! k
  = match new !! k with None => old !! k | Some _ => None end.
Proof.
  unfold droppedLoop.
  apply (map_fold_weak_ind (λ acc m,
    acc !! k = match new !! k with None => m !! k | Some _ => None end)).
  - by destruct (new !! k).
  - intros i x m r Hi IH. destruct (decide (i = k)) as [->|Hne].
    + destruct (new !! k) eqn:Hn; [done|]. by rewrite !lookup_insert_eq.
    + destruct (new !! i); rewrite ?lookup_insert_ne by done; by rewrite IH.
Qed.

Lemma addedLoop_lookup old new k :
  addedLoop old new !! k
  = match old !! k with None => new !! k | Some _ => None end.
Proof.
  unfold addedLoop.
  apply (map_fold_weak_ind (λ acc m,
    acc !! k = match old !! k with None => m !! k | Some _ => None end)).
  - by destruct (old !! k).
  - intros i x m r Hi IH. destruct (decide (i = k)) as [->|Hne].
    + destruct (old !! k) eqn:Hn; [done|]. by rewrite !lookup_insert_eq.
    + destruct (old !! i); rewrite ?lookup_insert_ne by done; by rewrite IH.
Qed.

Lemma updatedLoop_lookup old new k :
  (updatedLoop old new).1 !! k
  = match old !! k, new !! k with
    | Some vOld, Some vNew =>
        if decide (vOld = vNew) then None else Some [vOld; vNew]
    | _, _ => None
    end
  ∧ (updatedLoop old new).2 !! k
    = match old !! k, new !! k with
      | Some vOld, Some vNew =>
          if decide (vOld = vNew) then Some vOld else None
      | _, _ => None
      end.
Proof.
  unfold updatedLoop.
  apply (map_fold_weak_ind (λ acc m,
    acc.1 !! k
    = match m !! k, new !! k with
      | Some vOld, Some vNew =>
          if decide (vOld = vNew) then None else Some [vOld; vNew]
      | _, _ => None
      end
    ∧ acc.2 !! k
      = match m !! k, new !! k with
        | Some vOld, Some vNew =>
            if decide (vOld = vNew) then Some vOld else None
        | _, _ => None
        end)).
  - done.
  - intros i x m r Hi [IH1 IH2]. destruct (decide (i = k)) as [->|Hne].
    + rewrite Hi in IH1, IH2. rewrite lookup_insert_eq.
      destruct (new !! k) as [vNew|] eqn:Hn; [|done].
      destruct (decide (x = vNew)); simpl; by rewrite ?lookup_insert_eq.
    + rewrite lookup_insert_ne by done.
      destruct (new !! i) as [vNew|]; [|done].
      destruct (decide (x = vNew)); simpl; by rewrite ?lookup_insert_ne.
Qed.

Lemma hasRole_roleTyped p : hasRole p → roleTyped p.
Proof. intros [role Hrole] v. rewrite Hrole. intros [= <-]. eauto. Qed.

Lemma lookupStore_roleTyped lookupMap p :
  roleTyped p →
  lookupStore lookupMap p
  = Ok (match roleKey p with
        | Some key => <[key := p]> lookupMap
        | None => lookupMap
        end).
Proof.
  intros Hp. unfold roleKey, lookupStore.
  destruct (p !! schemaPolicyRoleAttr) as [v|] eqn:Hv; [|done].
  destruct (Hp v Hv) as [role ->]. done.
Qed.

(** The lookup map of a list: its keys are the role keys of the list,
    and every fragment it holds is stored under its own role key and
    comes from the list. *)
Lemma buildLookupMap_roleTyped l lookupMap :
  Forall roleTyped l →
  ∃ m, buildLookupMap l lookupMap = Ok m
       ∧ dom m = dom lookupMap ∪ roleKeys l
       ∧ ∀ k p, m !! k = Some p →
                lookupMap !! k = Some p ∨ (roleKey p = Some k ∧ p ∈ l).
Proof.
  intros Hall. revert lookupMap.
  induction Hall as [|p l Hp Hall IH]; intros lookupMap; simpl.
  - exists lookupMap. split; [done|]. split; [unfold roleKeys; set_solver|]. auto.
  - rewrite (lookupStore_roleTyped lookupMap p Hp). simpl.
    destruct (roleKey p) as [key|] eqn:Hkey.
    + destruct (IH (<[key := p]> lookupMap)) as (m & -> & Hdom & Hin).
      exists m. split; [done|]. split.
      * rewrite Hdom, dom_insert_L. unfold roleKeys. simpl. rewrite Hkey.
        set_solver.
      * intros k p' Hk. destruct (Hin k p' Hk) as [Hl | [? ?]].
        -- destruct (decide (key = k)) as [->|Hne].
           ++ rewrite lookup_insert_eq in Hl. injection Hl as <-.
              right. split; [done | by left].
           ++ rewrite lookup_insert_ne in Hl by done. by left.
        -- right. split; [done | by right].
    + destruct (IH lookupMap) as (m & -> & Hdom & Hin).
      exists m. split; [done|]. split.
      * rewrite Hdom. unfold roleKeys. simpl. by rewrite Hkey.
      * intros k p' Hk. destruct (Hin k p' Hk) as [Hl | [? ?]]; [by left|].
        right. split; [done | by right].
Qed.

Lemma buildLookupMap_hasRole l lookupMap :
  Forall hasRole l →
  ∃ m, buildLookupMap l lookupMap = Ok m
       ∧ dom m = dom lookupMap ∪ roleKeys l.
Proof.
  intros Hall.
  destruct (buildLookupMap_roleTyped l lookupMap) as (m & ? & ? & _); [|eauto].
  eapply Forall_impl; [exact Hall|]. apply hasRole_roleTyped.
Qed.

Lemma droppedLoop_same lookupMap : droppedLoop lookupMap lookupMap = ∅.
Proof.
  apply map_eq. intros k. rewrite droppedLoop_lookup, lookup_empty.
  by destruct (lookupMap !! k).
Qed.

Lemma addedLoop_same lookupMap : addedLoop lookupMap lookupMap = ∅.
Proof.
  apply map_eq. intros k. rewrite addedLoop_lookup, lookup_empty.
  by destruct (lookupMap !! k).
Qed.

Lemma updatedLoop_same lookupMap : updatedLoop lookupMap lookupMap = (∅, lookupMap).
Proof.
  destruct (updatedLoop lookupMap lookupMap) as [upd unch] eqn:Hloop.
  f_equal; apply map_eq; intros k;
    destruct (updatedLoop_lookup lookupMap lookupMap k) as [H1 H2];
    rewrite Hloop in H1, H2; simpl in H1, H2.
  - rewrite H1, lookup_empty. destruct (lookupMap !! k); [|done]. by case_decide.
  - rewrite H2. destruct (lookupMap !! k); [|done]. by case_decide.
Qed.

End DiffFacts.

(** C1: when every fragment of [old] and [new] carries a role string, the
    diff returns four maps whose key sets cover exactly the lower-cased
    role keys of [old] and [new] and are pairwise disjoint. *)
Theorem schemaChangedPolicies_partition (old new : list (gmap string Attr)) :
  Forall hasRole old →
  Forall hasRole new →
  ∃ dropped added updated unchanged,
    schemaChangedPolicies old new = Ok (dropped, added, updated, unchanged)
    ∧ dom dropped ∪ dom added ∪ dom updated ∪ dom unchanged
      = roleKeys old ∪ roleKeys new
    ∧ dom dropped ## dom added
    ∧ dom dropped ## dom updated
    ∧ dom dropped ## dom unchanged
    ∧ dom added ## dom updated
    ∧ dom added ## dom unchanged
    ∧ dom updated ## dom unchanged.
Proof.
  intros Hold Hnew. unfold schemaChangedPolicies.
  destruct (buildLookupMap_hasRole old ∅ Hold) as (mo & -> & Hmo).
  destruct (buildLookupMap_hasRole new ∅ Hnew) as (mn & -> & Hmn).
  simpl. destruct (updatedLoop mo mn) as [upd unch] eqn:Hloop.
  exists (droppedLoop mo mn), (addedLoop mo mn), upd, unch.
  split; [done|].
  rewrite dom_empty_L, (left_id_L ∅ (∪)) in Hmo, Hmn. rewrite <- Hmo, <- Hmn.
  assert (Hkeys : ∀ k,
    (k ∈ dom (droppedLoop mo mn) ↔ k ∈ dom mo ∧ k ∉ dom mn)
    ∧ (k ∈ dom (addedLoop mo mn) ↔ k ∉ dom mo ∧ k ∈ dom mn)
    ∧ ((k ∈ dom upd ∨ k ∈ dom unch) ↔ k ∈ dom mo ∧ k ∈ dom mn)
    ∧ ¬ (k ∈ dom upd ∧ k ∈ dom unch)).
  { intros k. rewrite !elem_of_dom.
    rewrite droppedLoop_lookup, addedLoop_lookup.
    destruct (updatedLoop_lookup mo mn k) as [H1 H2].
    rewrite Hloop in H1, H2. simpl in H1, H2. rewrite H1, H2.
    destruct (mo !! k) as [vo|], (mn !! k) as [vn|];
      try destruct (decide (vo = vn));
      rewrite ?is_Some_alt; naive_solver. }
  repeat split.
  - apply set_eq. intros k. destruct (Hkeys k) as (Hd & Ha & Hu & _).
    rewrite !elem_of_union, Hd, Ha.
    destruct (decide (k ∈ dom mo)), (decide (k ∈ dom mn)); tauto.
  - intros k Hk1 Hk2. destruct (Hkeys k) as (Hd & Ha & _). tauto.
  - intros k Hk1 Hk2. destruct (Hkeys k) as (Hd & _ & Hu & _). tauto.
  - intros k Hk1 Hk2. destruct (Hkeys k) as (Hd & _ & Hu & _). tauto.
  - intros k Hk1 Hk2. destruct (Hkeys k) as (_ & Ha & Hu & _). tauto.
  - intros k Hk1 Hk2. destruct (Hkeys k) as (_ & Ha & Hu & _). tauto.
  - intros k Hk1 Hk2. destruct (Hkeys k) as (_ & _ & _ & Hx). tauto.
Qed.

Lemma schemaChangedPolicies_partition_witness :
  ∃ dropped added updated unchanged,
    schemaChangedPolicies policies_alice_usage policies_bob
    = Ok (dropped, added, updated, unchanged)
    ∧ dom dropped ∪ dom added ∪ dom updated ∪ dom unchanged
      = roleKeys policies_alice_usage ∪ roleKeys policies_bob
    ∧ dom dropped ## dom added
    ∧ dom dropped ## dom updated
    ∧ dom dropped ## dom unchanged
    ∧ dom added ## dom updated
    ∧ dom added ## dom unchanged
    ∧ dom updated ## dom unchanged.
Proof.
  apply (schemaChangedPolicies_partition policies_alice_usage policies_bob);
    (apply Forall_cons_2; [eexists; vm_compute; reflexivity | apply Forall_nil_2]).
Defined.

Example schemaChangedPolicies_dropped_added :
  schemaChangedPolicies policies_alice_usage policies_bob
  = Ok ({[ "alice" := fragment "Alice" false false true false ]},
        {[ "bob" := fragment "bob" false false true false ]}, ∅, ∅).
Proof. vm_compute. reflexivity. Qed.

(** C7: evaluation at the failing input. The lookup map of the diff
    engine keeps the last fragment of a role declared twice, where the
    container of the create path holds the union of both; against the last
    fragment alone the diff then reports the role unchanged. *)
Lemma lookup_map_last_write_wins :
  buildLookupMap policies_alice_split ∅
  = Ok {[ "alice" := fragment "Alice" false false true false ]}
  ∧ mergePolicies policies_alice_split ∅
    = Ok {[ "alice" := acl.mkSchema (Z.lor acl.Create acl.Usage) 0 "alice" ]}
  ∧ schemaChangedPolicies policies_alice_split policies_alice_usage
    = Ok (∅, ∅, ∅, {[ "alice" := fragment "Alice" false false true false ]}).
Proof. repeat split; vm_compute; reflexivity. Qed.

(** ** Reasoning about operations against a protocol *)

Section ProtocolRules.
Context (W : World) {S : Type} (advance : S → Event → option S).
Implicit Types (p q : S).

Lemma run_app p evs1 evs2 :
  run advance p (evs1 ++ evs2)
  = match run advance p evs1 with
    | Some q => run advance q evs2
    | None => None
    end.
Proof.
  revert p. induction evs1 as [|e evs1 IH]; intros p; simpl; [done|].
  destruct (advance p e); [apply IH | done].
Qed.

Lemma obeys_ret {A} p (Φ : A → S → Prop) a :
  Φ a p → obeys advance p Φ (ret a).
Proof.
  intros H t. exists (Ok a), [], p. rewrite app_nil_r.
  repeat split. by intros ? [= <-].
Qed.

Lemma obeys_fail {A} p (Φ : A → S → Prop) e :
  obeys advance p Φ (fail e).
Proof. intros t. exists (Fail e), [], p. rewrite app_nil_r. by repeat split. Qed.

Lemma obeys_panic {A} p (Φ : A → S → Prop) msg :
  obeys advance p Φ (panic msg).
Proof. intros t. exists (Panic msg), [], p. rewrite app_nil_r. by repeat split. Qed.

Lemma obeys_lift {A} p (Φ : A → S → Prop) (r : Res A) :
  (∀ a, r = Ok a → Φ a p) → obeys advance p Φ (lift r).
Proof. intros H t. exists r, [], p. rewrite app_nil_r. by repeat split. Qed.

Lemma obeys_check p (Φ : unit → S → Prop) prefix err :
  Φ tt p → obeys advance p Φ (check prefix err).
Proof. intros H. destruct err; [apply obeys_fail | by apply obeys_ret]. Qed.

Lemma obeys_bind {A B} p (Φ : A → S → Prop) (Ψ : B → S → Prop)
    (m : M A) (k : A → M B) :
  obeys advance p Φ m →
  (∀ a q, Φ a q → obeys advance q Ψ (k a)) →
  obeys advance p Ψ (bind m k).
Proof.
  intros Hm Hk t. destruct (Hm t) as (r & evs & q & Heq & Hrun & HΦ).
  unfold bind. rewrite Heq. destruct r as [a|e|msg].
  - destruct (Hk a q (HΦ a eq_refl) (t ++ evs)) as (r' & evs' & q' & Heq' & Hrun' & HΨ).
    exists r', (evs ++ evs'), q'. rewrite Heq', app_assoc.
    split; [done|]. split; [|done]. by rewrite run_app, Hrun.
  - exists (Fail e), evs, q. by repeat split.
  - exists (Panic msg), evs, q. by repeat split.
Qed.

Lemma obeys_weaken {A} p (Φ Ψ : A → S → Prop) (m : M A) :
  obeys advance p Φ m → (∀ a q, Φ a q → Ψ a q) → obeys advance p Ψ m.
Proof.
  intros Hm Himp t. destruct (Hm t) as (r & evs & q & Heq & Hrun & HΦ).
  exists r, evs, q. repeat split; auto.
Qed.

Lemma obeys_event {A} p q (Φ : A → S → Prop) (f : list Event → A) e :
  advance p e = Some q → (∀ a, Φ a q) →
  obeys advance p Φ (λ t, (Ok (f t), t ++ [e])).
Proof.
  intros Hadv HΦ t. exists (Ok (f t)), [e], q. simpl. rewrite Hadv.
  repeat split. intros a _. apply HΦ.
Qed.

Lemma obeys_emit p q (Φ : unit → S → Prop) e :
  advance p e = Some q → Φ tt q → obeys advance p Φ (emit e).
Proof.
  intros Hadv HΦ. apply (obeys_event p q Φ (λ _, tt) e Hadv). by intros [].
Qed.

Lemma obeys_QueryRow p (Φ : RowResult → S → Prop) tx query :
  advance p (EQuery tx query) = Some p → (∀ row, Φ row p) →
  obeys advance p Φ (QueryRow W tx query).
Proof. intros. by apply (obeys_event p p Φ (λ t, row_result W t tx query)). Qed.

Lemma obeys_QueryRows p (Φ : Res (list (list string)) → S → Prop) tx query :
  advance p (EQuery tx query) = Some p → (∀ rows, Φ rows p) →
  obeys advance p Φ (QueryRows W tx query).
Proof. intros. by apply (obeys_event p p Φ (λ t, rows_result W t tx query)). Qed.

Lemma obeys_startTransaction p (Φ : Tx → S → Prop) database :
  (∀ tx, advance p (EBegin tx database) = Some p) → (∀ tx, Φ tx p) →
  obeys advance p Φ (startTransaction W database).
Proof.
  intros Hadv HΦ t. unfold startTransaction.
  destruct (begin_result W t database) as [e|].
  - exists (Fail e), [], p. rewrite app_nil_r. by repeat split.
  - eexists _, [_], p. simpl. rewrite Hadv. repeat split.
    intros a _. apply HΦ.
Qed.

(** Steps that leave the phase as it is. *)
Lemma obeys_lift_same {A} p (r : Res A) :
  obeys advance p (λ _ q, q = p) (lift r).
Proof. by apply obeys_lift. Qed.

Lemma obeys_QueryRow_same p tx query :
  advance p (EQuery tx query) = Some p →
  obeys advance p (λ _ q, q = p) (QueryRow W tx query).
Proof. intros. by apply obeys_QueryRow. Qed.

Lemma obeys_QueryRows_same p tx query :
  advance p (EQuery tx query) = Some p →
  obeys advance p (λ _ q, q = p) (QueryRows W tx query).
Proof. intros. by apply obeys_QueryRows. Qed.

Lemma obeys_startTransaction_same p database :
  (∀ tx, advance p (EBegin tx database) = Some p) →
  obeys advance p (λ _ q, q = p) (startTransaction W database).
Proof. intros. by apply obeys_startTransaction. Qed.

(** [err := Exec(...); if err != nil { return ... }; rest]: the phase
    after the statement depends on whether it failed; [rest] runs only
    when it did not. *)
Lemma obeys_Exec_check {B} p (Ψ : B → S → Prop) tx stmt prefix (rest : M B) :
  (∀ err, ∃ q, advance p (EExec tx stmt err) = Some q
               ∧ (err = None → obeys advance q Ψ rest)) →
  obeys advance p Ψ
    (bind (Exec W tx stmt) (λ err, bind (check prefix err) (λ _, rest))).
Proof.
  intros H t. unfold bind, Exec. simpl.
  destruct (H (exec_result W t tx stmt)) as (q & Hadv & Hrest).
  destruct (exec_result W t tx stmt) as [e|] eqn:Herr; simpl.
  - eexists _, [_], q. simpl. rewrite Hadv. by repeat split.
  - destruct (Hrest eq_refl (t ++ [EExec tx stmt None]))
      as (r' & evs' & q' & Heq' & Hrun' & HΨ).
    exists r', (EExec tx stmt None :: evs'), q'. simpl. rewrite Hadv.
    rewrite Heq'. rewrite <- app_assoc. simpl.
    split; [by destruct r'|]. by split.
Qed.

Lemma obeys_Exec_check_end p (Ψ : unit → S → Prop) tx stmt prefix :
  (∀ err, ∃ q, advance p (EExec tx stmt err) = Some q
               ∧ (err = None → Ψ tt q)) →
  obeys advance p Ψ (bind (Exec W tx stmt) (λ err, check prefix err)).
Proof.
  intros H t. unfold bind, Exec. simpl.
  destruct (H (exec_result W t tx stmt)) as (q & Hadv & Hrest).
  destruct (exec_result W t tx stmt) as [e|] eqn:Herr; simpl.
  - eexists _, [_], q. simpl. rewrite Hadv. by repeat split.
  - eexists _, [_], q. simpl. rewrite Hadv. repeat split.
    intros [] _. by apply Hrest.
Qed.

Lemma obeys_Commit_check {B} p (Ψ : B → S → Prop) tx prefix (rest : M B) :
  (∀ err, ∃ q, advance p (ECommit tx err) = Some q
               ∧ (err = None → obeys advance q Ψ rest)) →
  obeys advance p Ψ
    (bind (Commit W tx) (λ err, bind (check prefix err) (λ _, rest))).
Proof.
  intros H t. unfold bind, Commit. simpl.
  destruct (H (commit_result W t tx)) as (q & Hadv & Hrest).
  destruct (commit_result W t tx) as [e|] eqn:Herr; simpl.
  - eexists _, [_], q. simpl. rewrite Hadv. by repeat split.
  - destruct (Hrest eq_refl (t ++ [ECommit tx None]))
      as (r' & evs' & q' & Heq' & Hrun' & HΨ).
    exists r', (ECommit tx None :: evs'), q'. simpl. rewrite Hadv.
    rewrite Heq'. rewrite <- app_assoc. simpl.
    split; [by destruct r'|]. by split.
Qed.

Lemma obeys_wrapped {A} p (Φ : A → S → Prop) prefix (m : M A) :
  obeys advance p Φ m → obeys advance p Φ (wrapped prefix m).
Proof.
  intros Hm t. destruct (Hm t) as (r & evs & q & Heq & Hrun & HΦ).
  unfold wrapped. rewrite Heq. destruct r as [a|e|msg].
  - exists (Ok a), evs, q. by repeat split.
  - exists (Fail (wrap prefix e)), evs, q. by repeat split.
  - exists (Panic msg), evs, q. by repeat split.
Qed.

(** A deferred call that records one event the protocol admits in every
    phase. *)
Lemma obeys_defer {A} p (Φ : A → S → Prop) e (body : M A) :
  (∀ q, advance q e = Some q) →
  obeys advance p Φ body → obeys advance p Φ (defer (emit e) body).
Proof.
  intros Hadv Hm t. destruct (Hm t) as (r & evs & q & Heq & Hrun & HΦ).
  unfold defer. rewrite Heq. simpl.
  exists r, (evs ++ [e]), q. rewrite app_assoc. split; [done|].
  split; [|done]. rewrite run_app, Hrun. simpl. by rewrite Hadv.
Qed.

Lemma obeys_forEach {A} p (Φ : unit → S → Prop) (xs : list A) (body : A → M unit) :
  Φ tt p →
  (∀ x, x ∈ xs → obeys advance p (λ _ q, q = p) (body x)) →
  obeys advance p Φ (forEach xs body).
Proof.
  intros HΦ. induction xs as [|x xs IH]; intros Hbody; simpl.
  - by apply obeys_ret.
  - eapply obeys_bind; [apply Hbody; by left|].
    intros _ q ->. apply IH. intros y Hy. apply Hbody. by right.
Qed.

End ProtocolRules.

(** ** The schema operations obey the elevation protocol *)

Lemma Grants_plain (a : acl.Schema) (target : string) :
  Forall (λ s, plainStmt s = true) (acl.Grants a target).
Proof.
  unfold acl.Grants. apply Forall_app.
  split; [destruct (acl.GetPrivilege a acl.Create)
         | destruct (acl.GetPrivilege a acl.Usage)]; repeat constructor.
Qed.

Lemma Revokes_plain (a : acl.Schema) (target : string) :
  Forall (λ s, plainStmt s = true) (acl.Revokes a target).
Proof.
  unfold acl.Revokes. apply Forall_app.
  split; [destruct (acl.GetPrivilege a acl.Create)
         | destruct (acl.GetPrivilege a acl.Usage)]; repeat constructor.
Qed.

Section ElevationRules.
Context (W : World) (txn : Tx) (owner user : string).
Local Abbreviation adv := (elevation W txn owner user).

Lemma after_exec_plain g stmt err :
  plainStmt stmt = true →
  adv (Open g) (EExec txn stmt err) = after err (Open g).
Proof.
  intros Hs. simpl. rewrite bool_decide_eq_true_2 by done.
  destruct g, stmt; done.
Qed.

Lemma elev_Exec_check {B} g (Ψ : B → Phase → Prop) stmt prefix (rest : M B) :
  plainStmt stmt = true →
  obeys adv (Open g) Ψ rest →
  obeys adv (Open g) Ψ
    (bind (Exec W txn stmt) (λ err, bind (check prefix err) (λ _, rest))).
Proof.
  intros Hs Hrest. apply obeys_Exec_check. intros err.
  rewrite after_exec_plain by done. destruct err; simpl; eauto. by eexists.
Qed.

Lemma elev_Exec_check_end g stmt prefix :
  plainStmt stmt = true →
  obeys adv (Open g) (λ _ q, q = Open g)
    (bind (Exec W txn stmt) (λ err, check prefix err)).
Proof.
  intros Hs. apply obeys_Exec_check_end. intros err.
  rewrite after_exec_plain by done. destruct err; simpl; eauto. by eexists.
Qed.

Lemma elev_forEach_Exec g (queries : list Stmt) prefix :
  Forall (λ s, plainStmt s = true) queries →
  obeys adv (Open g) (λ _ q, q = Open g)
    (forEach queries (λ query, err <- Exec W txn query ;; check prefix err)).
Proof.
  intros Hq. apply obeys_forEach; [done|]. intros s Hs.
  apply elev_Exec_check_end. by eapply Forall_forall in Hq.
Qed.

Lemma elev_grantRoleMembership :
  obeys adv (Open false) (λ granted q, q = Open granted)
    (grantRoleMembership W txn owner user).
Proof.
  unfold grantRoleMembership. case_bool_decide; [by apply obeys_ret|].
  intros t. unfold bind, Exec. simpl.
  destruct (exec_result W t txn (GrantMembership owner user)) as [e|] eqn:Herr.
  - destruct (already_member W e) eqn:Hm.
    + eexists _, [_], _. split; [done|]. simpl.
      rewrite !bool_decide_eq_true_2, Hm by done. split; [done|].
      by intros ? [= <-].
    + eexists _, [_], _. split; [done|]. simpl.
      rewrite !bool_decide_eq_true_2, Hm by done. by split.
  - eexists _, [_], _. split; [done|]. simpl.
    rewrite !bool_decide_eq_true_2 by done. split; [done|]. by intros ? [= <-].
Qed.

Lemma elev_grant_step prefix :
  obeys adv (Open false) (λ granted q, q = Open granted)
    (if bool_decide (owner ≠ "")
     then wrapped prefix (grantRoleMembership W txn owner user)
     else ret false).
Proof.
  case_bool_decide; [|by apply obeys_ret].
  apply obeys_wrapped, elev_grantRoleMembership.
Qed.

Lemma elev_revoke_step (granted : bool) prefix :
  obeys adv (Open granted)
    (λ _ q, q = if granted then Revoked else Open false)
    (if granted
     then wrapped prefix (revokeRoleMembership W txn owner user)
     else ret tt).
Proof.
  destruct granted; [|by apply obeys_ret].
  apply obeys_wrapped. unfold revokeRoleMembership.
  apply obeys_Exec_check_end. intros err. simpl.
  rewrite !bool_decide_eq_true_2 by done. destruct err; simpl; eauto.
  by eexists.
Qed.

Lemma elev_Commit_check {B} p (Ψ : B → Phase → Prop) prefix (rest : M B) :
  p = Revoked ∨ p = Open false →
  obeys adv Committed Ψ rest →
  obeys adv p Ψ
    (bind (Commit W txn) (λ err, bind (check prefix err) (λ _, rest))).
Proof.
  intros Hp Hrest. apply obeys_Commit_check. intros err. simpl.
  rewrite bool_decide_eq_true_2 by done.
  destruct Hp as [-> | ->]; destruct err; simpl; eauto; by eexists.
Qed.

End ElevationRules.

Section SchemaElevation.
Context (W : World) (txn : Tx) (owner user : string).
Local Abbreviation adv := (elevation W txn owner user).

Lemma elev_setSchemaName g d c :
  obeys adv (Open g) (λ _ q, q = Open g) (setSchemaName W txn d c).
Proof.
  unfold setSchemaName. destruct (negb _); [by apply obeys_ret|].
  case_bool_decide; [apply obeys_fail|].
  apply elev_Exec_check; [done|]. by apply obeys_ret.
Qed.

Lemma elev_setSchemaOwner g d :
  obeys adv (Open g) (λ _ q, q = Open g) (setSchemaOwner W txn d).
Proof.
  unfold setSchemaOwner. destruct (negb _); [by apply obeys_ret|].
  case_bool_decide; [apply obeys_fail|]. by apply elev_Exec_check_end.
Qed.

Lemma elev_droppedQueries g schemaName dropped queries :
  Forall (λ s, plainStmt s = true) queries →
  obeys adv (Open g) (λ qs q, Forall (λ s, plainStmt s = true) qs ∧ q = Open g)
    (droppedQueries W txn schemaName dropped queries).
Proof.
  revert queries. induction dropped as [|[k pMap] rest IH]; intros queries Hq; simpl.
  - by apply obeys_ret.
  - eapply obeys_bind; [apply obeys_lift_same|]. intros rolePolicy q ->.
    eapply (obeys_bind _ _
              (λ qs q, Forall (λ s, plainStmt s = true) qs ∧ q = Open g)).
    + case_bool_decide; [|by apply obeys_ret].
      eapply obeys_bind; [by apply obeys_QueryRow_same|]. intros row q ->.
      destruct row; [| by apply obeys_ret | apply obeys_fail].
      apply obeys_ret. split; [|done]. apply Forall_app.
      split; [done | apply Revokes_plain].
    + intros qs q [Hqs ->]. by apply IH.
Qed.

Lemma addedQueries_plain schemaName added queries qs :
  Forall (λ s, plainStmt s = true) queries →
  addedQueries schemaName added queries = Ok qs →
  Forall (λ s, plainStmt s = true) qs.
Proof.
  revert queries. induction added as [|[k pMap] rest IH]; intros queries Hq; simpl.
  - by intros [= <-].
  - destruct (schemaPolicyToACL pMap) as [a| |]; simpl; [|done..].
    apply IH. apply Forall_app. split; [done | apply Grants_plain].
Qed.

Lemma updatedQueries_plain schemaName updated queries qs :
  Forall (λ s, plainStmt s = true) queries →
  updatedQueries schemaName updated queries = Ok qs →
  Forall (λ s, plainStmt s = true) qs.
Proof.
  revert queries. induction updated as [|[k policies] rest IH]; intros queries Hq; simpl.
  - by intros [= <-].
  - case_bool_decide; [done|].
    destruct (index policies 0) as [o| |]; simpl; [|done..].
    destruct (schemaPolicyToACL o) as [a| |]; simpl; [|done..].
    destruct (index policies 1) as [n| |]; simpl; [|done..].
    destruct (schemaPolicyToACL n) as [b| |]; simpl; [|done..].
    apply IH. apply Forall_app; split; [apply Forall_app; split|];
      auto using Grants_plain, Revokes_plain.
Qed.

Lemma elev_applyChangedPolicies g schemaName dropped added updated :
  obeys adv (Open g) (λ _ q, q = Open g)
    (applyChangedPolicies W txn schemaName dropped added updated).
Proof.
  unfold applyChangedPolicies.
  eapply obeys_bind; [by apply elev_droppedQueries|]. intros qs1 q [H1 ->].
  eapply (obeys_bind _ _
            (λ qs q, Forall (λ s, plainStmt s = true) qs ∧ q = Open g)).
  { apply obeys_lift. eauto using addedQueries_plain. }
  intros qs2 q [H2 ->].
  eapply (obeys_bind _ _
            (λ qs q, Forall (λ s, plainStmt s = true) qs ∧ q = Open g)).
  { apply obeys_lift. eauto using updatedQueries_plain. }
  intros qs3 q [H3 ->]. by apply elev_forEach_Exec.
Qed.

Lemma elev_setSchemaPolicy g d :
  obeys adv (Open g) (λ _ q, q = Open g) (setSchemaPolicy W txn d).
Proof.
  unfold setSchemaPolicy. destruct (negb _); [by apply obeys_ret|].
  eapply obeys_bind; [apply obeys_lift_same|].
  intros [[[dropped added] updated] unchanged] q ->.
  apply elev_applyChangedPolicies.
Qed.

Lemma elev_ReadImpl p d c :
  obeys adv p (λ _ q, q = p) (resourcePostgreSQLSchemaReadImpl W d c).
Proof.
  unfold resourcePostgreSQLSchemaReadImpl.
  eapply obeys_bind; [apply obeys_lift_same|]. intros [database schemaName] q ->.
  eapply obeys_bind; [by apply obeys_startTransaction_same|]. intros tx q ->.
  apply obeys_defer; [done|].
  eapply obeys_bind; [by apply obeys_QueryRow_same|]. intros row q ->.
  destruct row; [| by apply obeys_ret | apply obeys_fail].
  eapply obeys_bind; [apply obeys_lift_same|]. intros _ q ->. by apply obeys_ret.
Qed.

End SchemaElevation.

(** An operation that takes the write lock, opens its first transaction
    and runs [body] in it, seen from the empty trace. *)
Lemma locked_transaction {S A} (advance : S → Event → option S) (W : World)
    (p : S) (Φ : A → S → Prop) (database : string) (body : Tx → M A) :
  (∀ q, advance q ELock = Some q) →
  (∀ q, advance q EUnlock = Some q) →
  (∀ q, advance q (EBegin 0 database) = Some q) →
  (∀ q, advance q (ERollback 0) = Some q) →
  obeys advance p Φ (body 0) →
  ∃ r t q,
    (Lock ;; defer Unlock (txn <- startTransaction W database ;;
                           defer (deferredRollback txn) (body txn))) [] = (r, t)
    ∧ run advance p t = Some q
    ∧ (∀ a, r = Ok a → Φ a q)
    ∧ (t = [ELock; EUnlock]
       ∨ ∃ evs, t = [ELock; EBegin 0 database] ++ evs ++ [ERollback 0; EUnlock]).
Proof.
  intros HL HU HB HR Hbody.
  unfold bind, defer, Lock, Unlock, emit, startTransaction, deferredRollback. simpl.
  destruct (begin_result W [ELock] database) as [e|].
  - exists (Fail e), [ELock; EUnlock], p. split; [done|]. simpl.
    rewrite HL, HU. split; [done|]. split; [done|]. by left.
  - simpl. destruct (Hbody [ELock; EBegin 0 database])
      as (r & evs & q & Heq & Hrun & HΦ).
    rewrite Heq. exists r, ([ELock; EBegin 0 database] ++ evs ++ [ERollback 0; EUnlock]), q.
    split; [by rewrite <- !app_assoc|]. split; [|split; [done|right; by exists evs]].
    simpl. rewrite HL, HB, run_app, Hrun. simpl. by rewrite HR, HU.
Qed.

Section SchemaProtocol.
Context (W : World) (d : SchemaData) (c : Client).
Local Abbreviation adv0 := (elevation W 0 (s_owner d) (databaseUsername c)).

Lemma Create_protocol :
  ∃ r t q, resourcePostgreSQLSchemaCreate W d c [] = (r, t)
           ∧ run adv0 (Open false) t = Some q
           ∧ (∀ a, r = Ok a → q = Committed)
           ∧ (t = [ELock; EUnlock]
              ∨ ∃ evs, t = [ELock; EBegin 0 (getDatabase d c)] ++ evs
                           ++ [ERollback 0; EUnlock]).
Proof.
  unfold resourcePostgreSQLSchemaCreate.
  apply (locked_transaction adv0 W (Open false) (λ _ q, q = Committed));
    try done.
  eapply obeys_bind; [by apply obeys_QueryRow_same|]. intros row q ->.
  eapply (obeys_bind _ _
            (λ qs q, Forall (λ s, plainStmt s = true) qs ∧ q = Open false)).
  { destruct row; [| by apply obeys_ret; repeat constructor |];
      (eapply obeys_bind; [apply elev_setSchemaOwner|]);
      intros _ q ->; by apply obeys_ret. }
  intros queries q [Hq ->].
  eapply obeys_bind; [apply obeys_lift_same|]. intros schemaPolicies q ->.
  eapply obeys_bind; [apply elev_grant_step|]. intros granted q ->.
  eapply obeys_bind.
  { apply elev_forEach_Exec. apply Forall_app. split; [done|].
    apply Forall_concat, Forall_fmap, Forall_true. intros [k a]. apply Grants_plain. }
  intros _ q ->.
  eapply obeys_bind; [apply elev_revoke_step|]. intros _ q ->.
  apply elev_Commit_check; [destruct granted; auto|].
  eapply obeys_weaken; [apply elev_ReadImpl | done].
Qed.

Lemma Update_protocol :
  ∃ r t q, resourcePostgreSQLSchemaUpdate W d c [] = (r, t)
           ∧ run adv0 (Open false) t = Some q
           ∧ (∀ a, r = Ok a → q = Committed)
           ∧ (t = [ELock; EUnlock]
              ∨ ∃ evs, t = [ELock; EBegin 0 (getDatabase d c)] ++ evs
                           ++ [ERollback 0; EUnlock]).
Proof.
  unfold resourcePostgreSQLSchemaUpdate.
  apply (locked_transaction adv0 W (Open false) (λ _ q, q = Committed));
    try done.
  eapply obeys_bind; [apply elev_grant_step|]. intros granted q ->.
  eapply obeys_bind; [apply elev_setSchemaName|]. intros d' q ->.
  eapply obeys_bind; [apply elev_setSchemaOwner|]. intros _ q ->.
  eapply obeys_bind; [apply elev_setSchemaPolicy|]. intros _ q ->.
  eapply obeys_bind; [apply elev_revoke_step|]. intros _ q ->.
  apply elev_Commit_check; [destruct granted; auto|].
  eapply obeys_weaken; [apply elev_ReadImpl | done].
Qed.

Lemma Delete_protocol :
  ∃ r t q, resourcePostgreSQLSchemaDelete W d c [] = (r, t)
           ∧ run adv0 (Open false) t = Some q
           ∧ (∀ a, r = Ok a → q = Committed)
           ∧ (t = [ELock; EUnlock]
              ∨ ∃ evs, t = [ELock; EBegin 0 (getDatabase d c)] ++ evs
                           ++ [ERollback 0; EUnlock]).
Proof.
  unfold resourcePostgreSQLSchemaDelete.
  apply (locked_transaction adv0 W (Open false) (λ _ q, q = Committed));
    try done.
  eapply obeys_bind; [apply elev_grant_step|]. intros granted q ->.
  apply elev_Exec_check; [done|].
  eapply obeys_bind; [apply elev_revoke_step|]. intros _ q ->.
  apply elev_Commit_check; [destruct granted; auto|].
  by apply obeys_ret.
Qed.

Lemma schemaOperations_protocol op :
  op ∈ schemaOperations W →
  ∃ r t q, op d c [] = (r, t)
           ∧ run adv0 (Open false) t = Some q
           ∧ (∀ a, r = Ok a → q = Committed)
           ∧ (t = [ELock; EUnlock]
              ∨ ∃ evs, t = [ELock; EBegin 0 (getDatabase d c)] ++ evs
                           ++ [ERollback 0; EUnlock]).
Proof.
  unfold schemaOperations. rewrite !elem_of_cons, elem_of_nil.
  intros [-> | [-> | [-> | []]]];
    [apply Create_protocol | apply Update_protocol | apply Delete_protocol].
Qed.

End SchemaProtocol.

(** ** Traces of the elevation protocol *)

Section ElevationTraces.
Context (W : World) (txn : Tx) (owner user : string).
Local Abbreviation adv := (elevation W txn owner user).
Local Abbreviation grantNone := (EExec txn (GrantMembership owner user) None).
Local Abbreviation revokeNone := (EExec txn (RevokeMembership owner user) None).
Implicit Types (p q : Phase) (t : list Event) (e : Event).

Lemma advance_inv p e q :
  adv p e = Some q →
  (isStep e = false ∧ q = p)
  ∨ (∃ g s err, e = EExec txn s err ∧ plainStmt s = true
                ∧ p = Open g ∧ q = orStopped err (Open g))
  ∨ (∃ err, e = EExec txn (GrantMembership owner user) err ∧ p = Open false
            ∧ q = match err with
                  | None => Open true
                  | Some x => if already_member W x then Open false else Stopped
                  end)
  ∨ (∃ err, e = EExec txn (RevokeMembership owner user) err
            ∧ p = Open true ∧ q = orStopped err Revoked)
  ∨ (∃ err, e = ECommit txn err ∧ (p = Open false ∨ p = Revoked)
            ∧ q = orStopped err Committed).
Proof.
  destruct e as [| | | |tx db|tx s err|tx qy|tx err|tx]; simpl;
    try (intros [= <-]; by left).
  - case_bool_decide as Htx; [subst tx|done].
    destruct p as [g| | |]; [|done..].
    destruct s as [x|a b x y|a b x y|role member|role member], g; simpl;
      try done; intros Hq;
      try (right; left; eexists _, _, _;
           split; [reflexivity|]; split; [reflexivity|]; split; [reflexivity|];
           destruct err; by simplify_eq/=).
    + case_bool_decide as Hr; [destruct Hr as [-> ->]|done].
      do 2 right. left. exists err.
      destruct err as [x|]; [destruct (already_member W x)|]; by simplify_eq/=.
    + case_bool_decide as Hr; [destruct Hr as [-> ->]|done].
      do 3 right. left. exists err. destruct err; by simplify_eq/=.
  - case_bool_decide as Htx; [subst tx|done].
    destruct p as [[|]| | |]; simpl; try done;
      intros Hq; do 4 right; exists err; destruct err; simplify_eq/=; auto.
Qed.

Lemma run_cons_inv p e t q :
  run adv p (e :: t) = Some q →
  ∃ p', adv p e = Some p' ∧ run adv p' t = Some q.
Proof. simpl. destruct (adv p e) as [p'|]; [eauto | done]. Qed.

Lemma run_split p t1 e t2 q :
  run adv p (t1 ++ e :: t2) = Some q →
  ∃ p1 p2, run adv p t1 = Some p1 ∧ adv p1 e = Some p2 ∧ run adv p2 t2 = Some q.
Proof.
  rewrite run_app. destruct (run adv p t1) as [p1|]; [|done].
  intros (p2 & ? & ?)%run_cons_inv. eauto.
Qed.

(** After the commit or a failed step nothing more is executed. *)
Lemma run_closed p t q :
  p = Committed ∨ p = Stopped →
  run adv p t = Some q →
  q = p ∧ Forall (λ e, isStep e = false) t.
Proof.
  intros Hp. revert q. induction t as [|e t IH]; intros q.
  - by intros [= <-].
  - intros (p' & Hadv & Hrun)%run_cons_inv.
    apply advance_inv in Hadv
      as [[He ->] | [(g & s & err & -> & _ & -> & _)
                    | [(err & -> & -> & _) | [(err & -> & -> & _)
                    | (err & -> & Hp' & _)]]]];
      try (by destruct Hp); [|by destruct Hp as [->| ->], Hp'].
    destruct (IH q Hrun) as [-> Ht]. split; [done|]. by constructor.
Qed.

(** While the transaction is open nothing was committed or revoked, no
    phase was left behind, and a membership held was granted before. *)
Lemma run_to_Open p t g :
  run adv p t = Some (Open g) →
  Forall (λ e, isCommit e = false ∧ isRevokeMembership e = false) t
  ∧ (∃ g0, p = Open g0)
  ∧ (g = true → p = Open true ∨ grantNone ∈ t)
  ∧ (g = false → p = Open false ∧ grantNone ∉ t).
Proof.
  revert p. induction t as [|e t IH]; intros p.
  - intros [= ->]. split; [done|]. split; [eauto|].
    split; [intros ->; by left|]. intros ->. split; [done|]. by intros ?%elem_of_nil.
  - intros (p' & Hadv & Hrun)%run_cons_inv.
    destruct (IH p' Hrun) as (Ht & [g1 ->] & Htrue & Hfalse).
    apply advance_inv in Hadv
      as [[He <-] | [(g0 & s & err & -> & Hs & -> & Hq)
                    | [(err & -> & -> & Hq) | [(err & -> & -> & Hq)
                    | (err & -> & Hp' & Hq)]]]].
    + split; [constructor; [by destruct e|done]|]. split; [eauto|].
      split.
      * intros Hg. destruct (Htrue Hg) as [?|?]; [by left | right; by right].
      * intros Hg. destruct (Hfalse Hg) as [? Hnot]. split; [done|].
        intros [Heq|?]%elem_of_cons; [by subst e | by apply Hnot].
    + destruct err; simplify_eq/=.
      split; [constructor; [by destruct s|done]|]. split; [eauto|].
      split.
      * intros Hg. destruct (Htrue Hg) as [?|?]; [by left | right; by right].
      * intros Hg. destruct (Hfalse Hg) as [? Hnot]. split; [done|].
        intros [[=]|?]%elem_of_cons; [by subst s | by apply Hnot].
    + split; [constructor; [done|done]|]. split; [eauto|].
      destruct err as [x|]; [destruct (already_member W x)|]; simplify_eq/=.
      * split; [intros Hg; destruct (Htrue Hg) as [?|?]; [done | right; by right]|].
        intros Hg. destruct (Hfalse Hg) as [_ Hnot]. split; [done|].
        intros [[=]|?]%elem_of_cons; by apply Hnot.
      * split; [intros _; right; by left|].
        intros Hg. by destruct (Hfalse Hg).
    + destruct err; simplify_eq/=.
    + destruct err; simplify_eq/=.
Qed.

Lemma run_to_Revoked p t :
  run adv p t = Some Revoked → p = Revoked ∨ revokeNone ∈ t.
Proof.
  revert p. induction t as [|e t IH]; intros p.
  - intros [= ->]. by left.
  - intros (p' & Hadv & Hrun)%run_cons_inv.
    destruct (IH p' Hrun) as [-> | Hin]; [|right; by right].
    apply advance_inv in Hadv
      as [[He <-] | [(g0 & s & err & -> & Hs & -> & Hq)
                    | [(err & -> & -> & Hq) | [(err & -> & -> & Hq)
                    | (err & -> & Hp' & Hq)]]]].
    + by left.
    + destruct err; simplify_eq/=.
    + destruct err as [x|]; [destruct (already_member W x)|]; simplify_eq/=.
    + destruct err; simplify_eq/=. right. by left.
    + destruct err; simplify_eq/=.
Qed.

Lemma run_to_Committed p t :
  run adv p t = Some Committed → p = Committed ∨ ECommit txn None ∈ t.
Proof.
  revert p. induction t as [|e t IH]; intros p.
  - intros [= ->]. by left.
  - intros (p' & Hadv & Hrun)%run_cons_inv.
    destruct (IH p' Hrun) as [-> | Hin]; [|right; by right].
    apply advance_inv in Hadv
      as [[He <-] | [(g0 & s & err & -> & Hs & -> & Hq)
                    | [(err & -> & -> & Hq) | [(err & -> & -> & Hq)
                    | (err & -> & Hp' & Hq)]]]].
    + by left.
    + destruct err; simplify_eq/=.
    + destruct err as [x|]; [destruct (already_member W x)|]; simplify_eq/=.
    + destruct err; simplify_eq/=.
    + destruct err; simplify_eq/=. right. by left.
Qed.

End ElevationTraces.

Lemma orStopped_closed (err : option Error) :
  orStopped err Committed = Committed ∨ orStopped err Committed = Stopped.
Proof. destruct err; auto. Qed.

Ltac adv_inv H :=
  apply advance_inv in H
    as [[? ?] | [(? & ? & ? & ? & ? & ? & ?)
                | [(? & ? & ? & ?) | [(? & ? & ? & ?) | (? & ? & ? & ?)]]]];
  simplify_eq/=.

Section ElevationProperties.
Context (W : World) (txn : Tx) (owner user : string).
Local Abbreviation adv := (elevation W txn owner user).
Implicit Types (p q : Phase) (t : list Event) (e : Event).

(** The statements and commits of a trace the protocol admits belong to
    its transaction, and its membership statements name its roles. *)
Lemma admitted_grant t q tx role member err :
  run adv (Open false) t = Some q →
  EExec tx (GrantMembership role member) err ∈ t →
  tx = txn ∧ role = owner ∧ member = user.
Proof.
  intros Hrun (t1 & t2 & ->)%list_elem_of_split.
  apply run_split in Hrun as (p1 & p2 & _ & Hadv & _).
  by adv_inv Hadv.
Qed.

Lemma revoke_follows_grant t q t1 t2 tx role member err :
  run adv (Open false) t = Some q →
  t = t1 ++ EExec tx (RevokeMembership role member) err :: t2 →
  EExec tx (GrantMembership role member) None ∈ t1.
Proof.
  intros Hrun ->. apply run_split in Hrun as (p1 & p2 & Hrun1 & Hadv & _).
  adv_inv Hadv.
  apply run_to_Open in Hrun1 as (_ & _ & Htrue & _).
  by destruct (Htrue eq_refl).
Qed.

Lemma commit_follows_revoke t q tx role member cerr :
  run adv (Open false) t = Some q →
  EExec tx (GrantMembership role member) None ∈ t →
  ECommit tx cerr ∈ t →
  precedes (EExec tx (RevokeMembership role member) None) (ECommit tx cerr) t.
Proof.
  intros Hrun Hgrant Hcommit.
  destruct (admitted_grant _ _ _ _ _ _ Hrun Hgrant) as (-> & -> & ->).
  apply list_elem_of_split in Hcommit as (a & b & ->).
  apply run_split in Hrun as (p1 & p2 & Hrun1 & Hadv & Hrun2).
  adv_inv Hadv.
  apply elem_of_app in Hgrant as [Hgrant | Hgrant].
  - apply list_elem_of_split in Hgrant as (a1 & a2 & ->).
    apply run_split in Hrun1 as (p0 & p0' & Hrun0 & Hadv & Hrun1).
    adv_inv Hadv. destruct_or!; simplify_eq.
    + apply run_to_Open in Hrun1 as (_ & _ & _ & Hfalse).
      by destruct (Hfalse eq_refl).
    + apply run_to_Revoked in Hrun1 as [? | Hin]; [done|].
      apply list_elem_of_split in Hin as (u & v & ->).
      exists (a1 ++ EExec txn (GrantMembership owner user) None :: u), v, b.
      by repeat (rewrite <- app_assoc; simpl).
  - apply elem_of_cons in Hgrant as [? | Hgrant]; [done|].
    apply run_closed in Hrun2 as [_ Hb]; [|apply orStopped_closed].
    eapply Forall_forall in Hb; [|exact Hgrant]. done.
Qed.

Lemma failed_revoke_stops t q tx role member (err : Error) :
  run adv (Open false) t = Some q →
  EExec tx (RevokeMembership role member) (Some err) ∈ t →
  q = Stopped ∧ Forall (λ ev, isCommit ev = false) t.
Proof.
  intros Hrun (a & b & ->)%list_elem_of_split.
  apply run_split in Hrun as (p1 & p2 & Hrun1 & Hadv & Hrun2).
  adv_inv Hadv.
  apply run_closed in Hrun2 as [-> Hb]; [|auto]. split; [done|].
  apply run_to_Open in Hrun1 as (Ha & _).
  apply Forall_app. split; [by eapply Forall_impl; [exact Ha|]; intros ? []|].
  constructor; [done|]. eapply Forall_impl; [exact Hb|]. by intros [].
Qed.

Lemma failed_statement_stops t q tx s (err : Error) :
  run adv (Open false) t = Some q →
  plainStmt s = true →
  EExec tx s (Some err) ∈ t →
  tx = txn ∧ q = Stopped
  ∧ Forall (λ ev, isCommit ev = false ∧ isRevokeMembership ev = false) t.
Proof.
  intros Hrun Hs (a & b & ->)%list_elem_of_split.
  apply run_split in Hrun as (p1 & p2 & Hrun1 & Hadv & Hrun2).
  adv_inv Hadv.
  apply run_closed in Hrun2 as [-> Hb]; [|auto]. split; [done|]. split; [done|].
  apply run_to_Open in Hrun1 as (Ha & _).
  apply Forall_app. split; [done|].
  constructor; [|eapply Forall_impl; [exact Hb|]; by intros []].
  match goal with H : plainStmt ?s = true |- _ => by destruct s end.
Qed.

Lemma committed_has_commit t :
  run adv (Open false) t = Some Committed → ECommit txn None ∈ t.
Proof. intros Hrun. by apply run_to_Committed in Hrun as [?|?]. Qed.

End ElevationProperties.

(** ** Elevation in the schema operations *)

(** C2, as stated, fails: when a wrapped statement fails after the
    operation granted itself the membership, the operation returns the
    error without issuing the revoke; the transaction is left to the
    deferred rollback. *)
Lemma create_failure_skips_revoke :
  resourcePostgreSQLSchemaCreate world_refusing schema_owned client0 []
  = (Fail "Error creating schema app: permission denied",
     [ELock; EBegin 0 "postgres";
      EQuery (Some 0)
        (QSql "SELECT TRUE FROM pg_catalog.pg_namespace WHERE nspname = $1" ["app"]);
      EExec 0 (GrantMembership "owner" "terraform") None;
      EExec 0 (Sql ("CREATE SCHEMA IF NOT EXISTS " +:+ QuoteIdentifier "app"
                    +:+ " AUTHORIZATION " +:+ QuoteIdentifier "owner"))
        (Some "permission denied");
      ERollback 0; EUnlock])
  ∧ Forall (λ e, isRevokeMembership e = false)
      (resourcePostgreSQLSchemaCreate world_refusing schema_owned client0 []).2.
Proof. split; [vm_compute; reflexivity|]. vm_compute. repeat constructor. Qed.

(** C3, as stated, fails in one direction: the grant step of this delete
    granted the membership, and no revoke is issued, because the statement
    in between failed. *)
Lemma delete_failure_skips_revoke :
  resourcePostgreSQLSchemaDelete world_refusing schema_owned client0 []
  = (Fail "Error deleting schema: permission denied",
     [ELock; EBegin 0 "postgres";
      EExec 0 (GrantMembership "owner" "terraform") None;
      EExec 0 (Sql ("DROP SCHEMA " +:+ QuoteIdentifier "app" +:+ " RESTRICT"))
        (Some "permission denied");
      ERollback 0; EUnlock])
  ∧ EExec 0 (GrantMembership "owner" "terraform") None
    ∈ (resourcePostgreSQLSchemaDelete world_refusing schema_owned client0 []).2
  ∧ Forall (λ e, isRevokeMembership e = false)
      (resourcePostgreSQLSchemaDelete world_refusing schema_owned client0 []).2.
Proof.
  split; [vm_compute; reflexivity|]. split.
  - vm_compute. do 2 right. left.
  - vm_compute. repeat constructor.
Qed.

Example create_success_trace :
  (resourcePostgreSQLSchemaCreate world_ok schema_owned client0 []).2
  = [ELock; EBegin 0 "postgres";
     EQuery (Some 0)
       (QSql "SELECT TRUE FROM pg_catalog.pg_namespace WHERE nspname = $1" ["app"]);
     EExec 0 (GrantMembership "owner" "terraform") None;
     EExec 0 (Sql ("CREATE SCHEMA IF NOT EXISTS " +:+ QuoteIdentifier "app"
                   +:+ " AUTHORIZATION " +:+ QuoteIdentifier "owner")) None;
     EExec 0 (RevokeMembership "owner" "terraform") None;
     ECommit 0 None;
     EBegin 1 "postgres";
     EQuery (Some 1)
       (QSql "SELECT pg_catalog.pg_get_userbyid(n.nspowner), COALESCE(n.nspacl, '{}'::aclitem[])::TEXT[] FROM pg_catalog.pg_namespace n WHERE n.nspname=$1"
          ["app"]);
     ERollback 1; ERollback 0; EUnlock].
Proof. vm_compute. reflexivity. Qed.

(** C2 (amended): in a schema create, update or delete, a membership the
    operation granted itself is revoked in the same transaction before the
    commit on every path that returns without error; a failed revoke makes
    the operation return an error and nothing is committed; and when a
    wrapped statement fails the operation returns an error with neither a
    revoke nor a commit issued, the transaction being rolled back by the
    deferred call. *)
Theorem membership_revoke_before_commit (W : World)
    (op : SchemaData → Client → M SchemaData) (d : SchemaData) (c : Client)
    (r : Res SchemaData) (t : list Event) :
  op ∈ schemaOperations W →
  op d c [] = (r, t) →
  (is_ok r = true →
   ∀ tx role member,
     EExec tx (GrantMembership role member) None ∈ t →
     precedes (EExec tx (RevokeMembership role member) None) (ECommit tx None) t)
  ∧ (∀ tx role member err,
       EExec tx (RevokeMembership role member) (Some err) ∈ t →
       is_ok r = false ∧ Forall (λ e, isCommit e = false) t)
  ∧ (∀ tx s err,
       plainStmt s = true →
       EExec tx s (Some err) ∈ t →
       is_ok r = false
       ∧ Forall (λ e, isCommit e = false ∧ isRevokeMembership e = false) t
       ∧ ERollback tx ∈ t).
Proof.
  intros Hop Hrt.
  destruct (schemaOperations_protocol W d c op Hop)
    as (r' & t' & q & Heq & Hrun & Hok & Hshape).
  rewrite Hrt in Heq. injection Heq as <- <-.
  split; [|split].
  - intros Hr tx role member Hgrant. destruct r as [a| |]; [|done..].
    rewrite (Hok a eq_refl) in Hrun.
    destruct (admitted_grant _ _ _ _ _ _ _ _ _ _ Hrun Hgrant) as (-> & _).
    eapply commit_follows_revoke; [exact Hrun | exact Hgrant |].
    by eapply committed_has_commit.
  - intros tx role member err Hin.
    destruct (failed_revoke_stops _ _ _ _ _ _ _ _ _ _ Hrun Hin) as [-> Hnc].
    split; [|done]. destruct r as [a| |]; [|done..]. by specialize (Hok a eq_refl).
  - intros tx s err Hs Hin.
    destruct (failed_statement_stops _ _ _ _ _ _ _ _ _ Hrun Hs Hin)
      as (-> & -> & Hnone).
    split; [|split; [done|]].
    + destruct r as [a| |]; [|done..]. by specialize (Hok a eq_refl).
    + destruct Hshape as [-> | [evs ->]].
      * apply elem_of_cons in Hin as [? | Hin]; [done|].
        apply elem_of_cons in Hin as [? | Hin]; [done|]. by apply elem_of_nil in Hin.
      * rewrite !elem_of_app. right. right. by left.
Qed.

Lemma membership_revoke_before_commit_witness :
  precedes (EExec 0 (RevokeMembership "owner" "terraform") None) (ECommit 0 None)
    (resourcePostgreSQLSchemaCreate world_ok schema_owned client0 []).2.
Proof.
  refine (proj1 (membership_revoke_before_commit world_ok
                   (resourcePostgreSQLSchemaCreate world_ok) schema_owned client0
                   (resourcePostgreSQLSchemaCreate world_ok schema_owned client0 []).1
                   (resourcePostgreSQLSchemaCreate world_ok schema_owned client0 []).2
                   _ _) _ 0 "owner" "terraform" _).
  - left.
  - by destruct (resourcePostgreSQLSchemaCreate world_ok schema_owned client0 []).
  - vm_compute. reflexivity.
  - rewrite create_success_trace. do 3 right. left.
Defined.

(** C3 (amended): a schema create, update or delete issues a revoke of
    role membership only after its own grant of that membership succeeded
    in the same transaction; and when it granted the membership and goes
    on to commit, the revoke was issued, successfully, before the commit. *)
Theorem membership_revoked_only_if_granted (W : World)
    (op : SchemaData → Client → M SchemaData) (d : SchemaData) (c : Client)
    (r : Res SchemaData) (t : list Event) :
  op ∈ schemaOperations W →
  op d c [] = (r, t) →
  (∀ t1 t2 tx role member err,
     t = t1 ++ EExec tx (RevokeMembership role member) err :: t2 →
     EExec tx (GrantMembership role member) None ∈ t1)
  ∧ (∀ tx role member cerr,
       EExec tx (GrantMembership role member) None ∈ t →
       ECommit tx cerr ∈ t →
       precedes (EExec tx (RevokeMembership role member) None) (ECommit tx cerr) t).
Proof.
  intros Hop Hrt.
  destruct (schemaOperations_protocol W d c op Hop)
    as (r' & t' & q & Heq & Hrun & Hok & Hshape).
  rewrite Hrt in Heq. injection Heq as <- <-.
  split.
  - intros t1 t2 tx role member err Ht. by eapply revoke_follows_grant.
  - intros tx role member cerr Hgrant Hcommit. by eapply commit_follows_revoke.
Qed.

Lemma membership_revoked_only_if_granted_witness :
  EExec 0 (GrantMembership "owner" "terraform") None
  ∈ [ELock; EBegin 0 "postgres";
     EQuery (Some 0)
       (QSql "SELECT TRUE FROM pg_catalog.pg_namespace WHERE nspname = $1" ["app"]);
     EExec 0 (GrantMembership "owner" "terraform") None;
     EExec 0 (Sql ("CREATE SCHEMA IF NOT EXISTS " +:+ QuoteIdentifier "app"
                   +:+ " AUTHORIZATION " +:+ QuoteIdentifier "owner")) None].
Proof.
  refine (proj1 (membership_revoked_only_if_granted world_ok
                   (resourcePostgreSQLSchemaCreate world_ok) schema_owned client0
                   (resourcePostgreSQLSchemaCreate world_ok schema_owned client0 []).1
                   (resourcePostgreSQLSchemaCreate world_ok schema_owned client0 []).2
                   _ _) _ _ 0 "owner" "terraform" None _).
  - left.
  - by destruct (resourcePostgreSQLSchemaCreate world_ok schema_owned client0 []).
  - rewrite create_success_trace. reflexivity.
Defined.

(** ** Operations that only read *)

Lemma run_only (P : Event → bool) (evs : list Event) (q : unit) :
  run (only P) tt evs = Some q → Forall (λ e, P e = true) evs.
Proof.
  induction evs as [|e evs IH]; simpl; [done|]. unfold only at 1.
  destruct (P e) eqn:He; [|done]. intros Hrun. constructor; [done|]. by apply IH.
Qed.

Lemma obeys_only {A} (P : Event → bool) (Φ : A → unit → Prop) (m : M A) :
  obeys (only P) tt Φ m →
  ∀ t, ∃ r evs, m t = (r, t ++ evs) ∧ Forall (λ e, P e = true) evs
                ∧ ∀ a, r = Ok a → Φ a tt.
Proof.
  intros Hm t. destruct (Hm t) as (r & evs & [] & Heq & Hrun & HΦ).
  exists r, evs. eauto using run_only.
Qed.

Lemma filter_noStep (evs : list Event) :
  Forall (λ e, noStep e = true) evs → filter (λ e, isStep e = true) evs = [].
Proof.
  induction 1 as [|e evs He _ IH]; [done|].
  rewrite filter_cons_False; [done|]. unfold noStep in He. by destruct (isStep e).
Qed.

Lemma filter_isStep (evs : list Event) :
  Forall (λ e, isStep e = true) evs → filter (λ e, isStep e = true) evs = evs.
Proof.
  induction 1 as [|e evs He _ IH]; [done|]. rewrite filter_cons_True by done.
  by rewrite IH.
Qed.

Section ReadOnly.
Context (W : World).
Local Abbreviation quiet := (only noStep).

Lemma quiet_getRolesToGrantForSchema txn schemaName :
  obeys quiet tt (λ _ _, True) (getRolesToGrantForSchema W txn schemaName).
Proof.
  unfold getRolesToGrantForSchema, getTablesOwner, getSchemaOwner.
  eapply obeys_bind.
  { eapply obeys_bind; [by apply obeys_QueryRows_same|]. intros rows q ->.
    eapply obeys_bind; [apply obeys_lift_same|]. intros rows' q ->.
    by apply (obeys_ret _ _ (λ _ _, True)). }
  intros owners [] _. eapply obeys_bind.
  { eapply obeys_bind; [by apply obeys_QueryRow_same|]. intros row q ->.
    destruct row; [by apply (obeys_ret _ _ (λ _ _, True)) | apply obeys_fail..]. }
  intros schemaOwner [] _. by apply obeys_ret.
Qed.

Lemma quiet_readRolePrivileges txn d :
  obeys quiet tt (λ _ _, True) (readRolePrivileges W txn d).
Proof.
  unfold readRolePrivileges, readDatabaseRolePrivileges, readTableRolePrivileges.
  case_bool_decide.
  { eapply obeys_bind; [by apply obeys_QueryRows_same|]. intros rows q ->.
    destruct rows; [by apply obeys_ret | apply obeys_fail | apply obeys_panic]. }
  destruct (_ && _).
  - eapply obeys_bind; [apply obeys_lift_same|].
    intros [[[[[role db] schemaName] ot] tables] privs] q ->.
    eapply obeys_bind; [by apply obeys_QueryRows_same|]. intros rows q ->.
    destruct rows; [by apply obeys_ret | apply obeys_fail | apply obeys_panic].
  - eapply obeys_bind; [by apply obeys_QueryRows_same|]. intros rows q ->.
    eapply obeys_bind; [apply obeys_lift_same|]. intros _ q ->. by apply obeys_ret.
Qed.

End ReadOnly.

(** ** The order of statements in a grant *)

Lemma locked_transaction_shape {A} (W : World) (database : string)
    (body : Tx → M A) (Sh : Res A → list Event → Prop) r t :
  (∀ t0, ∃ r evs, body 0 t0 = (r, t0 ++ evs) ∧ Sh r evs) →
  (Lock ;; defer Unlock (txn <- startTransaction W database ;;
                         defer (deferredRollback txn) (body txn))) [] = (r, t) →
  (is_ok r = false ∧ t = [ELock; EUnlock])
  ∨ ∃ evs, Sh r evs
           ∧ t = [ELock; EBegin 0 database] ++ evs ++ [ERollback 0; EUnlock].
Proof.
  intros Hbody.
  unfold bind, defer, Lock, Unlock, emit, startTransaction, deferredRollback. simpl.
  destruct (begin_result W [ELock] database) as [e|]; simpl.
  - intros [= <- <-]. by left.
  - destruct (Hbody [ELock; EBegin 0 database]) as (r' & evs & Heq & HSh).
    rewrite Heq. intros Hrt. right. exists evs.
    destruct r'; simpl in Hrt; injection Hrt as <- <-;
      (split; [done|]); by rewrite <- !app_assoc.
Qed.

Section WithRolesGranted.
Context (W : World) (txn : Tx) (actor : string).

Lemma grantRoles_shape roles t0 :
  ∃ granted stop gs,
    grantRoles W txn actor roles t0 = (Ok (granted, stop), t0 ++ gs)
    ∧ Forall (λ e, ∃ role err, e = EExec txn (GrantMembership role actor) err) gs
    ∧ granted = grantedRoles gs.
Proof.
  revert t0. induction roles as [|role roles IH]; intros t0; simpl.
  - exists [], None, []. by rewrite app_nil_r.
  - unfold bind at 1, attempt, grantRoleMembership.
    case_bool_decide.
    + simpl. destruct (IH t0) as (granted & stop & gs & -> & Hgs & Hin). eauto 6.
    + unfold bind at 1, Exec. simpl.
      set (ev := EExec txn (GrantMembership role actor)).
      destruct (exec_result W t0 txn (GrantMembership role actor)) as [e|] eqn:He;
        [destruct (already_member W e)|]; simpl.
      * destruct (IH (t0 ++ [ev (Some e)])) as (granted & stop & gs & -> & Hgs & Hin).
        exists granted, stop, (ev (Some e) :: gs). rewrite <- app_assoc.
        split; [done|]. split; [constructor; eauto | done].
      * exists [], (Some e), [ev (Some e)].
        split; [done|]. split; [constructor; eauto | done].
      * unfold bind. destruct (IH (t0 ++ [ev None])) as (granted & stop & gs & -> & Hgs & Hin).
        exists (role :: granted), stop, (ev None :: gs). rewrite <- app_assoc.
        split; [done|]. split; [constructor; eauto|].
        simpl. by rewrite Hin.
Qed.

Lemma revokeRoles_shape granted t0 :
  ∃ err rs,
    revokeRoles W txn actor granted t0 = (Ok err, t0 ++ rs)
    ∧ Forall2 (λ role e, ∃ er, e = EExec txn (RevokeMembership role actor) er)
        granted rs
    ∧ (err = None →
       Forall (λ e, ∃ role, e = EExec txn (RevokeMembership role actor) None) rs).
Proof.
  revert t0. induction granted as [|role granted IH]; intros t0; simpl.
  - exists None, []. rewrite app_nil_r. by repeat split.
  - unfold bind at 1, Exec. simpl. unfold bind at 1.
    set (ev := EExec txn (RevokeMembership role actor)).
    destruct (IH (t0 ++ [ev (exec_result W t0 txn (RevokeMembership role actor))]))
      as (more & rs & -> & Hrs & Hnone). simpl.
    eexists _, (ev _ :: rs). rewrite <- app_assoc. split; [done|].
    split; [constructor; eauto|].
    destruct (exec_result W t0 txn (RevokeMembership role actor));
      destruct more; try done.
    intros _. constructor; eauto.
Qed.

(** The trace of [withRolesGranted]: the grants, what [fn] did (nothing
    when a grant failed), then one revoke for each membership granted. *)
Lemma withRolesGranted_shape (fn : M unit) (B : Res unit → list Event → Prop)
    roles t0 :
  (∀ t1, ∃ r body, fn t1 = (r, t1 ++ body) ∧ B r body) →
  ∃ r gs body rs,
    withRolesGranted W txn actor roles fn t0 = (r, t0 ++ gs ++ body ++ rs)
    ∧ Forall (λ e, ∃ role err, e = EExec txn (GrantMembership role actor) err) gs
    ∧ (body = [] ∧ is_ok r = false
       ∨ ∃ r', B r' body ∧ (is_ok r = true → is_ok r' = true))
    ∧ Forall2 (λ role e, ∃ err, e = EExec txn (RevokeMembership role actor) err)
        (grantedRoles gs) rs
    ∧ (is_ok r = true →
       Forall (λ e, ∃ role, e = EExec txn (RevokeMembership role actor) None) rs).
Proof.
  intros Hfn. unfold withRolesGranted. unfold bind at 1.
  destruct (grantRoles_shape roles t0) as (granted & stop & gs & -> & Hgs & ->).
  simpl. unfold bind at 1, attempt.
  destruct stop as [e|].
  - unfold fail. unfold bind.
    destruct (revokeRoles_shape (grantedRoles gs) (t0 ++ gs))
      as (err & rs & -> & H2 & Hnone).
    exists (mergeOutcome (Fail e) err), gs, [], rs. simpl.
    rewrite <- app_assoc. split; [done|]. split; [done|].
    split; [left; by destruct err|]. split; [done|]. by destruct err.
  - destruct (Hfn (t0 ++ gs)) as (r' & body & -> & HB). unfold bind.
    destruct (revokeRoles_shape (grantedRoles gs) ((t0 ++ gs) ++ body))
      as (err & rs & -> & H2 & Hnone).
    exists (mergeOutcome r' err), gs, body, rs. simpl.
    rewrite <- !app_assoc. split; [done|]. split; [done|].
    split; [right; exists r'; split; [done|]; by destruct r', err|].
    split; [done|].
    intros Hok. apply Hnone. by destruct r', err.
Qed.

End WithRolesGranted.

Section GrantOrder.
Context (W : World) (d : GrantData) (client : Client).
Local Abbreviation actor := (databaseUsername client).
Local Abbreviation revokeAll := (Sql (createRevokeQuery d (g_tables d))).
Local Abbreviation grant := (Sql (createGrantQuery d (g_privileges d) (g_tables d))).

Lemma revoke_then_grant txn t1 :
  ∃ r body,
    (revokeRolePrivileges W txn d ;; grantRolePrivileges W txn d) t1
    = (r, t1 ++ body) ∧ grantBody revokeAll grant txn r body.
Proof.
  unfold revokeRolePrivileges, grantRolePrivileges, getStringsFromSet.
  unfold bind, Exec, check. simpl.
  destruct (exec_result W t1 txn revokeAll) as [e|]; simpl.
  - eexists _, [_]. split; [done|]. left. eauto.
  - destruct (exec_result W (t1 ++ [EExec txn revokeAll None]) txn grant) as [e|];
      simpl; eexists _, [_; _]; rewrite <- app_assoc;
      (split; [done|]); right; eexists; by split.
Qed.

Lemma grant_transaction_shape t0 :
  ∃ r evs,
    (owners <-
       (if bool_decide (g_object_type d ≠ "database")
        then getRolesToGrantForSchema W 0 (g_schema d) else ret []) ;;
     withRolesGranted W 0 actor owners
       (revokeRolePrivileges W 0 d ;; grantRolePrivileges W 0 d) ;;
     err <- Commit W 0 ;;
     check "could not commit transaction: " err ;;
     txn <- startTransaction W (g_database d) ;;
     defer (deferredRollback txn)
       (readRolePrivileges W txn (g_SetId d (generateGrantID d)) ;;
        ret (g_SetId d (generateGrantID d)))) t0
    = (r, t0 ++ evs)
    ∧ inGrantOrder 0 actor revokeAll grant (is_ok r)
        (filter (λ e, isStep e = true) evs).
Proof.
  assert (Hnone : inGrantOrder 0 actor revokeAll grant false []).
  { exists [], [], [], []. repeat split; auto. done. }
  unfold bind at 1.
  assert (Howners : obeys (only noStep) tt (λ _ _, True)
            (if bool_decide (g_object_type d ≠ "database")
             then getRolesToGrantForSchema W 0 (g_schema d) else ret [])).
  { case_bool_decide; [apply quiet_getRolesToGrantForSchema | by apply obeys_ret]. }
  destruct (obeys_only _ _ _ Howners t0) as (r1 & pre & -> & Hpre & _).
  apply filter_noStep in Hpre.
  destruct r1 as [owners|e|msg];
    [|eexists _, pre; split; [done|]; rewrite Hpre; apply Hnone..].
  unfold bind at 1.
  destruct (withRolesGranted_shape W 0 actor _ (grantBody revokeAll grant 0)
              owners (t0 ++ pre)
              (revoke_then_grant 0))
    as (r2 & gs & body & rs & -> & Hgs & Hbody & Hrs & Hrsok).
  assert (Hsteps : filter (λ e, isStep e = true) (pre ++ gs ++ body ++ rs)
                   = gs ++ body ++ rs).
  { rewrite !filter_app, Hpre. simpl. f_equal; [|f_equal]; apply filter_isStep.
    - eapply Forall_impl; [exact Hgs|]. by intros ? (? & ? & ->).
    - destruct Hbody as [[-> _] | (r' & [(e & -> & _) | (e & -> & _)] & _)];
        repeat constructor.
    - clear -Hrs. induction Hrs as [|role e roles rs [err ->] _ IH]; by constructor. }
  assert (Hbody' : body = []
                   ∨ (∃ err, body = [EExec 0 revokeAll (Some err)])
                   ∨ (∃ err, body = [EExec 0 revokeAll None; EExec 0 grant err])).
  { destruct Hbody as [[-> _] | (r' & [(e & -> & _) | (e & -> & _)] & _)]; eauto. }
  destruct r2 as [[]|e|msg];
    [|eexists _, (pre ++ gs ++ body ++ rs);
      (split; [by rewrite <- !app_assoc|]); rewrite Hsteps;
      exists gs, body, rs, []; rewrite app_nil_r; repeat split; auto; done..].
  assert (Hfull : body = [EExec 0 revokeAll None; EExec 0 grant None]).
  { destruct Hbody as [[_ ?] | (r' & [(e & _ & Hno) | (e & -> & Herr)] & Hok)];
      [done| |].
    - by rewrite (Hok eq_refl) in Hno.
    - by rewrite (Herr (Hok eq_refl)). }
  specialize (Hrsok eq_refl).
  unfold bind at 1, Commit. simpl.
  set (t1 := (t0 ++ pre) ++ gs ++ body ++ rs).
  destruct (commit_result W t1 0) as [e|] eqn:Hc; simpl.
  - unfold bind, check, fail. simpl.
    exists (Fail (wrap "could not commit transaction: " e)),
      (pre ++ gs ++ body ++ rs ++ [ECommit 0 (Some e)]).
    split; [subst t1; by rewrite <- !app_assoc|].
    replace (pre ++ gs ++ body ++ rs ++ [ECommit 0 (Some e)])
      with ((pre ++ gs ++ body ++ rs) ++ [ECommit 0 (Some e)])
      by (by rewrite <- !app_assoc).
    rewrite filter_app, Hsteps. simpl.
    exists gs, body, rs, [ECommit 0 (Some e)]. rewrite <- !app_assoc.
    repeat split; eauto 7; done.
  - unfold bind at 1. simpl.
    assert (Hread : obeys (only noStep) tt (λ _ _, True)
              (txn <- startTransaction W (g_database d) ;;
               defer (deferredRollback txn)
                 (readRolePrivileges W txn (g_SetId d (generateGrantID d)) ;;
                  ret (g_SetId d (generateGrantID d))))).
    { eapply obeys_bind; [by apply obeys_startTransaction_same|]. intros tx q ->.
      apply obeys_defer; [by intros []|].
      eapply obeys_bind; [apply quiet_readRolePrivileges|]. intros _ [] _.
      by apply obeys_ret. }
    destruct (obeys_only _ _ _ Hread (t1 ++ [ECommit 0 None]))
      as (r3 & post & -> & Hpost & _).
    apply filter_noStep in Hpost.
    exists r3, (pre ++ gs ++ body ++ rs ++ [ECommit 0 None] ++ post).
    split; [subst t1; by rewrite <- !app_assoc|].
    replace (pre ++ gs ++ body ++ rs ++ [ECommit 0 None] ++ post)
      with ((pre ++ gs ++ body ++ rs) ++ [ECommit 0 None] ++ post)
      by (by rewrite <- !app_assoc).
    rewrite filter_app, Hsteps, filter_app, Hpost. simpl.
    exists gs, body, rs, [ECommit 0 None]. rewrite <- !app_assoc.
    repeat split; eauto 7; done.
Qed.

End GrantOrder.

(** The two statements of a grant, for the object types that the
    resource schema admits: both name the same objects and the same role. *)
Lemma grant_query_texts (d : GrantData) (privileges tables : list string) :
  g_object_type d ∈ allowedObjectTypes →
  createRevokeQuery d tables
  = "REVOKE ALL PRIVILEGES ON " +:+ grantTarget d tables +:+ " FROM "
    +:+ QuoteIdentifier (g_role d)
  ∧ createGrantQuery d privileges tables
    = (let query := "GRANT " +:+ Join privileges "," +:+ " ON "
                    +:+ grantTarget d tables +:+ " TO "
                    +:+ QuoteIdentifier (g_role d) in
       if g_with_grant_option d then query +:+ " WITH GRANT OPTION" else query).
Proof.
  unfold allowedObjectTypes. rewrite !elem_of_cons, elem_of_nil.
  unfold createRevokeQuery, createGrantQuery, grantTarget.
  intros [H | [H | [H | [H | []]]]]; rewrite H;
    [ change (ToUpper "database") with "DATABASE"
    | change (ToUpper "table") with "TABLE"
    | change (ToUpper "sequence") with "SEQUENCE"
    | change (ToUpper "function") with "FUNCTION" ];
    repeat case_bool_decide; try done; try (exfalso; naive_solver);
    by destruct (g_with_grant_option d).
Qed.

(** C4: the statements and the commit of a grant create (which is also the
    update) come in the order elevation grants, revoke of all privileges,
    grant of the declared privileges, elevation revokes, commit, all in
    the first transaction: every membership that an elevation grant gave
    is revoked, after the two statements and before the commit, and
    nothing else is revoked; the grant is executed only after the revoke
    of all privileges succeeded; the commit comes only after every
    statement succeeded. For the object types that the resource admits the
    first statement is [REVOKE ALL PRIVILEGES] on the objects of the grant
    from the role, the second is [GRANT] of the declared privileges on the
    same objects to the same role. *)
Theorem grant_statements_in_order (W : World) (d : GrantData) (client : Client)
    (r : Res GrantData) (t : list Event) :
  resourcePostgreSQLGrantCreate W d client [] = (r, t) →
  inGrantOrder 0 (databaseUsername client)
    (Sql (createRevokeQuery d (g_tables d)))
    (Sql (createGrantQuery d (g_privileges d) (g_tables d)))
    (is_ok r) (filter (λ e, isStep e = true) t)
  ∧ (g_object_type d ∈ allowedObjectTypes →
     createRevokeQuery d (g_tables d)
     = "REVOKE ALL PRIVILEGES ON " +:+ grantTarget d (g_tables d) +:+ " FROM "
       +:+ QuoteIdentifier (g_role d)
     ∧ createGrantQuery d (g_privileges d) (g_tables d)
       = (let query := "GRANT " +:+ Join (g_privileges d) "," +:+ " ON "
                       +:+ grantTarget d (g_tables d) +:+ " TO "
                       +:+ QuoteIdentifier (g_role d) in
          if g_with_grant_option d then query +:+ " WITH GRANT OPTION" else query)).
Proof.
  intros Hrt. split; [|apply grant_query_texts].
  revert Hrt.
  assert (Hnone : inGrantOrder 0 (databaseUsername client)
                    (Sql (createRevokeQuery d (g_tables d)))
                    (Sql (createGrantQuery d (g_privileges d) (g_tables d)))
                    false []).
  { exists [], [], [], []. repeat split; auto. done. }
  unfold resourcePostgreSQLGrantCreate.
  destruct (negb _); [by intros [= <- <-]|].
  destruct (validatePrivileges client d); [by intros [= <- <-]|].
  intros Hrt.
  eapply (locked_transaction_shape W (g_database d) _
            (λ r evs, inGrantOrder 0 (databaseUsername client)
                        (Sql (createRevokeQuery d (g_tables d)))
                        (Sql (createGrantQuery d (g_privileges d) (g_tables d)))
                        (is_ok r) (filter (λ e, isStep e = true) evs)))
    in Hrt; [|apply grant_transaction_shape].
  destruct Hrt as [[-> ->] | (evs & Hsh & ->)]; [done|].
  rewrite !filter_app. simpl. by rewrite app_nil_r.
Qed.

Example grant_create_trace :
  (resourcePostgreSQLGrantCreate world_owned grant_on_schema client0 []).2
  = [ELock; EBegin 0 "app";
     EQuery (Some 0) (QTablesOwner "public");
     EQuery (Some 0) (QSchemaOwner "public");
     EExec 0 (GrantMembership "tables_owner" "terraform") None;
     EExec 0 (GrantMembership "schema_owner" "terraform") None;
     EExec 0 (Sql ("REVOKE ALL PRIVILEGES ON ALL TABLES IN SCHEMA "
                   +:+ QuoteIdentifier "public" +:+ " FROM "
                   +:+ QuoteIdentifier "alice")) None;
     EExec 0 (Sql ("GRANT SELECT,INSERT ON ALL TABLES IN SCHEMA "
                   +:+ QuoteIdentifier "public" +:+ " TO "
                   +:+ QuoteIdentifier "alice")) None;
     EExec 0 (RevokeMembership "tables_owner" "terraform") None;
     EExec 0 (RevokeMembership "schema_owner" "terraform") None;
     ECommit 0 None;
     EBegin 1 "app";
     EQuery (Some 1) (QPrivileges "table" "alice" "public" []);
     ERollback 1; ERollback 0; EUnlock].
Proof. vm_compute. reflexivity. Qed.

Lemma grant_statements_in_order_witness :
  inGrantOrder 0 "terraform"
    (Sql ("REVOKE ALL PRIVILEGES ON ALL TABLES IN SCHEMA "
          +:+ QuoteIdentifier "public" +:+ " FROM " +:+ QuoteIdentifier "alice"))
    (Sql ("GRANT SELECT,INSERT ON ALL TABLES IN SCHEMA "
          +:+ QuoteIdentifier "public" +:+ " TO " +:+ QuoteIdentifier "alice"))
    true
    [EExec 0 (GrantMembership "tables_owner" "terraform") None;
     EExec 0 (GrantMembership "schema_owner" "terraform") None;
     EExec 0 (Sql ("REVOKE ALL PRIVILEGES ON ALL TABLES IN SCHEMA "
                   +:+ QuoteIdentifier "public" +:+ " FROM "
                   +:+ QuoteIdentifier "alice")) None;
     EExec 0 (Sql ("GRANT SELECT,INSERT ON ALL TABLES IN SCHEMA "
                   +:+ QuoteIdentifier "public" +:+ " TO "
                   +:+ QuoteIdentifier "alice")) None;
     EExec 0 (RevokeMembership "tables_owner" "terraform") None;
     EExec 0 (RevokeMembership "schema_owner" "terraform") None;
     ECommit 0 None]
  ∧ createRevokeQuery grant_on_schema []
    = "REVOKE ALL PRIVILEGES ON " +:+ grantTarget grant_on_schema [] +:+ " FROM "
      +:+ QuoteIdentifier "alice".
Proof.
  destruct (grant_statements_in_order world_owned grant_on_schema client0
              (Ok (g_SetId grant_on_schema (generateGrantID grant_on_schema)))
              (resourcePostgreSQLGrantCreate world_owned grant_on_schema client0 []).2)
    as [Horder Htexts]; [vm_compute; reflexivity|].
  split; [exact Horder|]. apply Htexts. vm_compute. do 1 right. left.
Defined.

(** ** The catalog lock *)

Section EmitsOnly.
Context (W : World) (P : Event → bool).

Lemma emitsOnly_events {A} (m : M A) :
  emitsOnly P m →
  ∀ t, ∃ r evs, m t = (r, t ++ evs) ∧ Forall (λ e, P e = true) evs.
Proof.
  intros Hm t. destruct (obeys_only P _ m Hm t) as (r & evs & Heq & Hevs & _).
  eauto.
Qed.

Lemma emitsOnly_bind {A B} (m : M A) (k : A → M B) :
  emitsOnly P m → (∀ a, emitsOnly P (k a)) → emitsOnly P (bind m k).
Proof.
  intros Hm Hk. eapply obeys_bind; [exact Hm|]. intros a [] _. apply Hk.
Qed.

Lemma emitsOnly_ret {A} (a : A) : emitsOnly P (ret a).
Proof. by apply obeys_ret. Qed.

Lemma emitsOnly_fail {A} e : emitsOnly P (fail (A:=A) e).
Proof. apply obeys_fail. Qed.

Lemma emitsOnly_panic {A} msg : emitsOnly P (panic (A:=A) msg).
Proof. apply obeys_panic. Qed.

Lemma emitsOnly_lift {A} (r : Res A) : emitsOnly P (lift r).
Proof. by apply obeys_lift. Qed.

Lemma emitsOnly_check prefix err : emitsOnly P (check prefix err).
Proof. by apply obeys_check. Qed.

Lemma emitsOnly_event {A} (f : list Event → A) e :
  P e = true → emitsOnly P (λ t, (Ok (f t), t ++ [e])).
Proof.
  intros He. apply (obeys_event (only P) tt tt); [|done]. unfold only. by rewrite He.
Qed.

Lemma emitsOnly_Exec tx stmt :
  (∀ err, P (EExec tx stmt err) = true) → emitsOnly P (Exec W tx stmt).
Proof.
  intros He t. unfold Exec. simpl. eexists _, [_], tt. split; [done|].
  simpl. unfold only. by rewrite He.
Qed.

Lemma emitsOnly_Commit tx :
  (∀ err, P (ECommit tx err) = true) → emitsOnly P (Commit W tx).
Proof.
  intros He t. unfold Commit. simpl. eexists _, [_], tt. split; [done|].
  simpl. unfold only. by rewrite He.
Qed.

Lemma emitsOnly_QueryRow tx query :
  P (EQuery tx query) = true → emitsOnly P (QueryRow W tx query).
Proof. intros. by apply emitsOnly_event. Qed.

Lemma emitsOnly_QueryRows tx query :
  P (EQuery tx query) = true → emitsOnly P (QueryRows W tx query).
Proof. intros. by apply emitsOnly_event. Qed.

Lemma emitsOnly_startTransaction database :
  (∀ tx, P (EBegin tx database) = true) →
  emitsOnly P (startTransaction W database).
Proof.
  intros He. apply obeys_startTransaction; [|done].
  intros tx. unfold only. by rewrite He.
Qed.

Lemma emitsOnly_defer {A} e (body : M A) :
  P e = true → emitsOnly P body → emitsOnly P (defer (emit e) body).
Proof.
  intros He. apply obeys_defer. intros []. unfold only. by rewrite He.
Qed.

Lemma emitsOnly_wrapped {A} prefix (m : M A) :
  emitsOnly P m → emitsOnly P (wrapped prefix m).
Proof. apply obeys_wrapped. Qed.

Lemma emitsOnly_attempt {A} (m : M A) :
  emitsOnly P m → emitsOnly P (attempt m).
Proof.
  intros Hm t. destruct (Hm t) as (r & evs & [] & Heq & Hrun & _).
  unfold attempt. rewrite Heq. by exists (Ok r), evs, tt.
Qed.

Lemma emitsOnly_forEach {A} (xs : list A) (body : A → M unit) :
  (∀ x, emitsOnly P (body x)) → emitsOnly P (forEach xs body).
Proof.
  intros Hbody. induction xs as [|x xs IH]; simpl.
  - apply emitsOnly_ret.
  - apply emitsOnly_bind; [apply Hbody | by intros _].
Qed.

End EmitsOnly.

Create HintDb emits.

(** Proves [emitsOnly P m] for code without recursion, given that [P]
    holds of the events of the calls in [m]. *)
Ltac emits_only :=
  repeat first
    [ apply emitsOnly_ret | apply emitsOnly_fail | apply emitsOnly_panic
    | apply emitsOnly_lift | apply emitsOnly_check
    | apply emitsOnly_Exec; done | apply emitsOnly_Commit; done
    | apply emitsOnly_QueryRow; done | apply emitsOnly_QueryRows; done
    | apply emitsOnly_startTransaction; done
    | apply emitsOnly_defer; [done|]
    | apply emitsOnly_wrapped | apply emitsOnly_attempt
    | apply emitsOnly_bind; [|intros ?]
    | assumption
    | solve [eauto with emits]
    | match goal with
      | |- emitsOnly _ (if ?b then _ else _) => destruct b
      | |- emitsOnly _ (match ?x with _ => _ end) => destruct x
      end ].

Lemma lock_bracket {A} (mode : LockMode) (body : M A) r t :
  emitsOnly unlocked body →
  (emit (acquire mode) ;; defer (emit (release mode)) body) [] = (r, t) →
  holdsLock mode t.
Proof.
  intros Hbody. unfold bind, defer, emit. simpl.
  destruct (emitsOnly_events unlocked body Hbody [acquire mode])
    as (r' & evs & -> & Hevs).
  simpl. intros Hrt. exists evs. split; [|done]. by simplify_eq.
Qed.

Section Unlocked.
Context (W : World).

Lemma unlocked_grantRoleMembership txn role member :
  emitsOnly unlocked (grantRoleMembership W txn role member).
Proof. unfold grantRoleMembership. emits_only. Qed.

Lemma unlocked_revokeRoleMembership txn role member :
  emitsOnly unlocked (revokeRoleMembership W txn role member).
Proof. unfold revokeRoleMembership. emits_only. Qed.

Hint Resolve unlocked_grantRoleMembership unlocked_revokeRoleMembership : emits.

Lemma unlocked_grantRoles txn actor roles :
  emitsOnly unlocked (grantRoles W txn actor roles).
Proof. induction roles as [|role roles IH]; simpl; emits_only. Qed.

Lemma unlocked_revokeRoles txn actor granted :
  emitsOnly unlocked (revokeRoles W txn actor granted).
Proof. induction granted as [|role granted IH]; simpl; emits_only. Qed.

Hint Resolve unlocked_grantRoles unlocked_revokeRoles : emits.

Lemma unlocked_withRolesGranted txn actor roles fn :
  emitsOnly unlocked fn →
  emitsOnly unlocked (withRolesGranted W txn actor roles fn).
Proof. intros Hfn. unfold withRolesGranted. emits_only. Qed.

Lemma unlocked_lookupExists tx q : emitsOnly unlocked (lookupExists W tx q).
Proof. unfold lookupExists. emits_only. Qed.

Hint Resolve unlocked_lookupExists : emits.

Lemma unlocked_setSchemaName txn d c : emitsOnly unlocked (setSchemaName W txn d c).
Proof. unfold setSchemaName. emits_only. Qed.

Lemma unlocked_setSchemaOwner txn d : emitsOnly unlocked (setSchemaOwner W txn d).
Proof. unfold setSchemaOwner. emits_only. Qed.

Lemma unlocked_droppedQueries txn schemaName dropped queries :
  emitsOnly unlocked (droppedQueries W txn schemaName dropped queries).
Proof.
  revert queries. induction dropped as [|[k pMap] rest IH]; intros queries; simpl;
    emits_only.
Qed.

Hint Resolve unlocked_setSchemaName unlocked_setSchemaOwner
  unlocked_droppedQueries : emits.

Lemma unlocked_forEach_Exec txn (queries : list Stmt) prefix :
  emitsOnly unlocked
    (forEach queries (λ query, err <- Exec W txn query ;; check prefix err)).
Proof. apply emitsOnly_forEach. intros query. emits_only. Qed.

Hint Resolve unlocked_forEach_Exec : emits.

Lemma unlocked_setSchemaPolicy txn d : emitsOnly unlocked (setSchemaPolicy W txn d).
Proof.
  unfold setSchemaPolicy, applyChangedPolicies. emits_only.
Qed.

Lemma unlocked_SchemaReadImpl d c :
  emitsOnly unlocked (resourcePostgreSQLSchemaReadImpl W d c).
Proof.
  unfold resourcePostgreSQLSchemaReadImpl, deferredRollback. emits_only.
Qed.

Hint Resolve unlocked_setSchemaPolicy unlocked_SchemaReadImpl : emits.

Lemma unlocked_getRolesToGrantForSchema txn schemaName :
  emitsOnly unlocked (getRolesToGrantForSchema W txn schemaName).
Proof. unfold getRolesToGrantForSchema, getTablesOwner, getSchemaOwner. emits_only. Qed.

Lemma unlocked_readRolePrivileges txn d :
  emitsOnly unlocked (readRolePrivileges W txn d).
Proof.
  unfold readRolePrivileges, readDatabaseRolePrivileges, readTableRolePrivileges.
  emits_only.
Qed.

Lemma unlocked_checkRoleDBSchemaExists client d :
  emitsOnly unlocked (checkRoleDBSchemaExists W client d).
Proof.
  unfold checkRoleDBSchemaExists, deferredRollback, roleExists, dbExists,
    schemaExists. emits_only.
Qed.

Lemma unlocked_ExtensionReadImpl d c :
  emitsOnly unlocked (resourcePostgreSQLExtensionReadImpl W d c).
Proof. unfold resourcePostgreSQLExtensionReadImpl, deferredRollback. emits_only. Qed.

Lemma unlocked_setExtSchema txn d : emitsOnly unlocked (setExtSchema W txn d).
Proof. unfold setExtSchema. emits_only. Qed.

Lemma unlocked_setExtVersion txn d : emitsOnly unlocked (setExtVersion W txn d).
Proof. unfold setExtVersion. emits_only. Qed.

End Unlocked.

Global Hint Resolve unlocked_grantRoleMembership unlocked_revokeRoleMembership
  unlocked_grantRoles unlocked_revokeRoles unlocked_withRolesGranted
  unlocked_lookupExists unlocked_setSchemaName unlocked_setSchemaOwner
  unlocked_droppedQueries unlocked_forEach_Exec unlocked_setSchemaPolicy
  unlocked_SchemaReadImpl unlocked_getRolesToGrantForSchema
  unlocked_readRolePrivileges unlocked_checkRoleDBSchemaExists
  unlocked_ExtensionReadImpl unlocked_setExtSchema unlocked_setExtVersion : emits.

Ltac lock_bracket mode :=
  eapply (lock_bracket mode); [|eassumption];
  unfold deferredRollback; emits_only.

Section CatalogLock.
Context (W : World).

(** The operations that create, alter or drop take the write lock. *)
Lemma schema_create_locks d c r t :
  resourcePostgreSQLSchemaCreate W d c [] = (r, t) → holdsLock Exclusive t.
Proof. unfold resourcePostgreSQLSchemaCreate. intros. lock_bracket Exclusive. Qed.

Lemma schema_update_locks d c r t :
  resourcePostgreSQLSchemaUpdate W d c [] = (r, t) → holdsLock Exclusive t.
Proof. unfold resourcePostgreSQLSchemaUpdate. intros. lock_bracket Exclusive. Qed.

Lemma schema_delete_locks d c r t :
  resourcePostgreSQLSchemaDelete W d c [] = (r, t) → holdsLock Exclusive t.
Proof. unfold resourcePostgreSQLSchemaDelete. intros. lock_bracket Exclusive. Qed.

Lemma grant_create_locks d c r t :
  resourcePostgreSQLGrantCreate W d c [] = (r, t) → t = [] ∨ holdsLock Exclusive t.
Proof.
  unfold resourcePostgreSQLGrantCreate.
  destruct (negb _); [intros [= <- <-]; by left|].
  destruct (validatePrivileges c d); [intros [= <- <-]; by left|].
  intros. right. lock_bracket Exclusive.
Qed.

Lemma grant_delete_locks d c r t :
  resourcePostgreSQLGrantDelete W d c [] = (r, t) → t = [] ∨ holdsLock Exclusive t.
Proof.
  unfold resourcePostgreSQLGrantDelete.
  destruct (negb _); [intros [= <- <-]; by left|].
  intros. right. lock_bracket Exclusive.
Qed.

Lemma extension_create_locks d c r t :
  resourcePostgreSQLExtensionCreate W d c [] = (r, t) →
  t = [] ∨ holdsLock Exclusive t.
Proof.
  unfold resourcePostgreSQLExtensionCreate.
  destruct (negb _); [intros [= <- <-]; by left|].
  intros. right. lock_bracket Exclusive.
Qed.

Lemma extension_update_locks d c r t :
  resourcePostgreSQLExtensionUpdate W d c [] = (r, t) →
  t = [] ∨ holdsLock Exclusive t.
Proof.
  unfold resourcePostgreSQLExtensionUpdate.
  destruct (negb _); [intros [= <- <-]; by left|].
  intros. right. lock_bracket Exclusive.
Qed.

Lemma extension_delete_locks d c r t :
  resourcePostgreSQLExtensionDelete W d c [] = (r, t) →
  t = [] ∨ holdsLock Exclusive t.
Proof.
  unfold resourcePostgreSQLExtensionDelete.
  destruct (negb _); [intros [= <- <-]; by left|].
  intros. right. lock_bracket Exclusive.
Qed.

(** The operations that only read take the read lock, but for one. *)
Lemma schema_read_locks d c r t :
  resourcePostgreSQLSchemaRead W d c [] = (r, t) → holdsLock Shared t.
Proof. unfold resourcePostgreSQLSchemaRead. intros. lock_bracket Shared. Qed.

Lemma schema_exists_locks d c r t :
  resourcePostgreSQLSchemaExists W d c [] = (r, t) → holdsLock Shared t.
Proof.
  unfold resourcePostgreSQLSchemaExists, dbExists. intros. lock_bracket Shared.
Qed.

Lemma grant_read_locks d c r t :
  resourcePostgreSQLGrantRead W d c [] = (r, t) → t = [] ∨ holdsLock Shared t.
Proof.
  unfold resourcePostgreSQLGrantRead.
  destruct (negb _); [intros [= <- <-]; by left|].
  intros. right. lock_bracket Shared.
Qed.

Lemma extension_read_locks d c r t :
  resourcePostgreSQLExtensionRead W d c [] = (r, t) → t = [] ∨ holdsLock Shared t.
Proof.
  unfold resourcePostgreSQLExtensionRead.
  destruct (negb _); [intros [= <- <-]; by left|].
  intros. right. lock_bracket Shared.
Qed.

End CatalogLock.

(** C5: evaluation at the failing input. [resourcePostgreSQLExtensionExists]
    only reads, and holds the catalog lock in write mode, not in read mode
    as the other read-only operations do. *)
Theorem extension_exists_holds_write_lock (W : World) (d : ExtensionData)
    (c : Client) (r : Res bool) (t : list Event) :
  featureSupported c featureExtension = true →
  resourcePostgreSQLExtensionExists W d c [] = (r, t) →
  holdsLock Exclusive t
  ∧ ¬ holdsLock Shared t
  ∧ Forall (λ e, isStep e = false) t.
Proof.
  intros Hf. unfold resourcePostgreSQLExtensionExists. rewrite Hf. simpl.
  intros Hrt. assert (Hx : holdsLock Exclusive t) by lock_bracket Exclusive.
  split; [done|]. split.
  - destruct Hx as (mid & -> & _). by intros (mid' & [=] & _).
  - revert Hrt. unfold bind, defer, Lock, Unlock, emit, startTransaction,
      deferredRollback, QueryRow. simpl.
    destruct (begin_result W [ELock] _); simpl; [intros [= <- <-]; by repeat constructor|].
    destruct (row_result W _ _ _); simpl; intros [= <- <-]; by repeat constructor.
Qed.

Lemma extension_exists_holds_write_lock_witness :
  (resourcePostgreSQLExtensionExists world_ok extension_pgcrypto client0 []).2
  = [ELock; EBegin 0 "postgres";
     EQuery (Some 0)
       (QSql "SELECT extname FROM pg_catalog.pg_extension WHERE extname = $1"
          ["pgcrypto"]);
     ERollback 0; EUnlock]
  ∧ holdsLock Exclusive
      (resourcePostgreSQLExtensionExists world_ok extension_pgcrypto client0 []).2.
Proof.
  split; [vm_compute; reflexivity|].
  refine (proj1 (extension_exists_holds_write_lock world_ok extension_pgcrypto client0
                   (resourcePostgreSQLExtensionExists world_ok extension_pgcrypto
                      client0 []).1 _ _ _)).
  - reflexivity.
  - by destruct (resourcePostgreSQLExtensionExists world_ok extension_pgcrypto client0 []).
Defined.

(** ** Re-applying an unchanged policy *)

(** C8: the diff of a policy list against itself has nothing dropped,
    added or updated, every role key being unchanged; the update path for
    that diff executes no statement, and [setSchemaPolicy] with the same
    list before and after leaves the trace as it is. *)
Theorem schemaChangedPolicies_same (l : list (gmap string Attr)) :
  Forall roleTyped l →
  ∃ unchanged,
    schemaChangedPolicies l l = Ok (∅, ∅, ∅, unchanged)
    ∧ dom unchanged = roleKeys l
    ∧ (∀ W txn schemaName t,
         applyChangedPolicies W txn schemaName ∅ ∅ ∅ t = (Ok tt, t))
    ∧ (∀ W txn d t,
         s_policy_prior d = l → s_policy d = l →
         setSchemaPolicy W txn d t = (Ok tt, t)).
Proof.
  intros Hl. destruct (buildLookupMap_roleTyped l ∅ Hl) as (m & Hm & Hdom & _).
  exists m. split; [|split; [|split]].
  - unfold schemaChangedPolicies. rewrite Hm. simpl.
    by rewrite droppedLoop_same, addedLoop_same, updatedLoop_same.
  - by rewrite Hdom, dom_empty_L, (left_id_L ∅ (∪)).
  - intros W txn schemaName t. unfold applyChangedPolicies.
    by rewrite !map_to_list_empty.
  - intros W txn d t Hprior Hcur. unfold setSchemaPolicy, HasChange.
    rewrite bool_decide_eq_false_2; [done|]. rewrite Hprior, Hcur. by intros [].
Qed.

Lemma schemaChangedPolicies_same_witness :
  ∃ unchanged,
    schemaChangedPolicies policies_alice_split policies_alice_split
    = Ok (∅, ∅, ∅, unchanged)
    ∧ dom unchanged = roleKeys policies_alice_split.
Proof.
  destruct (schemaChangedPolicies_same policies_alice_split)
    as (unchanged & Hdiff & Hdom & _).
  - repeat (apply Forall_cons_2;
            [intros v Hv; vm_compute in Hv; injection Hv as <-; eauto|]).
    apply Forall_nil_2.
  - eauto.
Defined.

(** ** Revoking from a dropped role *)

Section DiffInversion.
Implicit Types (l : list (gmap string Attr)) (k : string).
Implicit Types (m lookupMap : gmap string (gmap string Attr)).

Lemma buildLookupMap_Ok_inv l lookupMap m :
  buildLookupMap l lookupMap = Ok m →
  ∀ k p, m !! k = Some p →
         lookupMap !! k = Some p ∨ (roleKey p = Some k ∧ p ∈ l).
Proof.
  revert lookupMap. induction l as [|x l IH]; intros lookupMap; simpl.
  - intros [= <-]. auto.
  - unfold lookupStore.
    destruct (x !! schemaPolicyRoleAttr) as [[b|role]|] eqn:Hx; simpl; [done| |].
    + intros Hm k p Hk. destruct (IH _ Hm k p Hk) as [Hl | [? ?]].
      * destruct (decide (ToLower role = k)) as [<-|Hne].
        -- rewrite lookup_insert_eq in Hl. injection Hl as <-.
           right. split; [|by left]. unfold roleKey. by rewrite Hx.
        -- rewrite lookup_insert_ne in Hl by done. by left.
      * right. split; [done | by right].
    + intros Hm k p Hk. destruct (IH _ Hm k p Hk) as [Hl | [? ?]]; [by left|].
      right. split; [done | by right].
Qed.

Lemma schemaChangedPolicies_inv old new dropped added updated unchanged :
  schemaChangedPolicies old new = Ok (dropped, added, updated, unchanged) →
  ∃ mo mn,
    buildLookupMap old ∅ = Ok mo ∧ buildLookupMap new ∅ = Ok mn
    ∧ dropped = droppedLoop mo mn ∧ added = addedLoop mo mn
    ∧ updatedLoop mo mn = (updated, unchanged).
Proof.
  unfold schemaChangedPolicies.
  destruct (buildLookupMap old ∅) as [mo| |]; simpl; [|done..].
  destruct (buildLookupMap new ∅) as [mn| |]; simpl; [|done..].
  destruct (updatedLoop mo mn) as [upd unch] eqn:Hloop. intros [= <- <- <- <-].
  by exists mo, mn.
Qed.

(** The role of the ACL of a fragment is the role string it carries. *)
Lemma schemaPolicyToACL_roleKey p a k :
  schemaPolicyToACL p = Ok a → roleKey p = Some k → k = ToLower (acl.Role a).
Proof.
  unfold schemaPolicyToACL, roleKey.
  destruct (asBool (p !! schemaPolicyCreateAttr)); simpl; [|done..].
  destruct (asBool (p !! schemaPolicyCreateWithGrantAttr)); simpl; [|done..].
  destruct (asBool (p !! schemaPolicyUsageAttr)); simpl; [|done..].
  destruct (asBool (p !! schemaPolicyUsageWithGrantAttr)); simpl; [|done..].
  destruct (p !! schemaPolicyRoleAttr) as [[b|role]|]; simpl; [done| |done].
  by intros [= <-] [= <-].
Qed.

End DiffInversion.

Lemma obeys_QueryRow_result {S} (W : World) (advance : S → Event → option S)
    (p : S) tx query :
  advance p (EQuery tx query) = Some p →
  obeys advance p (λ row q, q = p ∧ ∃ h, row = row_result W h tx query)
    (QueryRow W tx query).
Proof.
  intros Hadv t. exists (Ok (row_result W t tx query)), [EQuery tx query], p.
  split; [done|]. simpl. rewrite Hadv. split; [done|].
  intros row [= <-]. eauto.
Qed.

Lemma run_Exec_check (W : World) tx stmt prefix t :
  bind (Exec W tx stmt) (λ err, check prefix err) t
  = (match exec_result W t tx stmt with
     | None => Ok tt
     | Some e => Fail (wrap prefix e)
     end, t ++ [EExec tx stmt (exec_result W t tx stmt)]).
Proof. unfold bind, Exec, check. simpl. by destruct (exec_result W t tx stmt). Qed.

Section DroppedRole.
Context (W : World) (txn : Tx) (schemaName role : string).
Local Abbreviation keeps := (λ e, negb (revokesRole role e)).
Local Abbreviation spares := (λ s, revokesFrom role s = false).

Lemma Grants_spare a : Forall spares (acl.Grants a schemaName).
Proof.
  unfold acl.Grants. apply Forall_app.
  split; [destruct (acl.GetPrivilege a acl.Create)
         | destruct (acl.GetPrivilege a acl.Usage)]; repeat constructor.
Qed.

Lemma Revokes_spare a : acl.Role a ≠ role → Forall spares (acl.Revokes a schemaName).
Proof.
  intros Hne. unfold acl.Revokes. apply Forall_app.
  split; [destruct (acl.GetPrivilege a acl.Create)
         | destruct (acl.GetPrivilege a acl.Usage)];
    repeat constructor; simpl; by rewrite bool_decide_eq_false_2.
Qed.

(** A role that is not in the catalog gets no revocation from the loop
    over the dropped roles. *)
Lemma droppedQueries_spare dropped queries :
  (∀ h, row_result W h (Some txn) (roleQuery role) = ErrNoRows) →
  Forall spares queries →
  obeys (only keeps) tt (λ qs _, Forall spares qs)
    (droppedQueries W txn schemaName dropped queries).
Proof.
  intros Hgone. revert queries.
  induction dropped as [|[k pMap] rest IH]; intros queries Hq; simpl.
  - by apply obeys_ret.
  - eapply obeys_bind; [apply obeys_lift_same|]. intros rolePolicy q ->.
    eapply (obeys_bind _ _ (λ qs _, Forall spares qs)).
    + case_bool_decide; [|by apply obeys_ret].
      eapply obeys_bind; [by apply (obeys_QueryRow_result W)|].
      intros row q [-> [h Hrow]].
      destruct row; [| by apply obeys_ret | apply obeys_fail].
      apply obeys_ret. apply Forall_app. split; [done|].
      apply Revokes_spare. intros Heq. rewrite Heq in Hrow.
      change (QSql _ [role]) with (roleQuery role) in Hrow.
      by rewrite Hgone in Hrow.
    + intros qs [] Hqs. by apply IH.
Qed.

Lemma addedQueries_spare added queries qs :
  Forall spares queries →
  addedQueries schemaName added queries = Ok qs →
  Forall spares qs.
Proof.
  revert queries. induction added as [|[k pMap] rest IH]; intros queries Hq; simpl.
  - by intros [= <-].
  - destruct (schemaPolicyToACL pMap) as [a| |]; simpl; [|done..].
    apply IH. apply Forall_app. split; [done | apply Grants_spare].
Qed.

Lemma updatedQueries_spare updated queries qs :
  Forall spares queries →
  Forall (λ kp, ∀ vo a, kp.2 !! 0 = Some vo → schemaPolicyToACL vo = Ok a →
                        acl.Role a ≠ role) updated →
  updatedQueries schemaName updated queries = Ok qs →
  Forall spares qs.
Proof.
  intros Hq Hupd. revert queries Hq.
  induction Hupd as [|[k policies] rest Hhead _ IH]; intros queries Hq; simpl.
  - by intros [= <-].
  - case_bool_decide; [done|]. unfold index.
    destruct (policies !! 0) as [o|] eqn:Ho; simpl; [|done].
    destruct (schemaPolicyToACL o) as [a| |] eqn:Ha; simpl; [|done..].
    destruct (policies !! 1) as [n|]; simpl; [|done].
    destruct (schemaPolicyToACL n) as [b| |]; simpl; [|done..].
    apply IH. apply Forall_app; split; [apply Forall_app; split|];
      auto using Grants_spare. apply Revokes_spare. by eapply (Hhead o a).
Qed.

Lemma forEach_Exec_spare (queries : list Stmt) prefix :
  Forall spares queries →
  obeys (only keeps) tt (λ _ _, True)
    (forEach queries (λ query, err <- Exec W txn query ;; check prefix err)).
Proof.
  intros Hq. apply obeys_forEach; [done|]. intros s Hs.
  apply obeys_Exec_check_end. intros err. exists tt. split; [|done].
  unfold only. simpl. eapply Forall_forall in Hq; [|exact Hs]. by rewrite Hq.
Qed.

Lemma applyChangedPolicies_spare dropped added updated :
  (∀ h, row_result W h (Some txn) (roleQuery role) = ErrNoRows) →
  Forall (λ kp, ∀ vo a, kp.2 !! 0 = Some vo → schemaPolicyToACL vo = Ok a →
                        acl.Role a ≠ role) (map_to_list updated) →
  obeys (only keeps) tt (λ _ _, True)
    (applyChangedPolicies W txn schemaName dropped added updated).
Proof.
  intros Hgone Hupd. unfold applyChangedPolicies.
  eapply obeys_bind; [by apply droppedQueries_spare|]. intros qs1 [] H1.
  eapply (obeys_bind _ _ (λ qs _, Forall spares qs)).
  { apply obeys_lift. eauto using addedQueries_spare. }
  intros qs2 [] H2.
  eapply (obeys_bind _ _ (λ qs _, Forall spares qs)).
  { apply obeys_lift. eauto using updatedQueries_spare. }
  intros qs3 [] H3. by apply forEach_Exec_spare.
Qed.

(** Without failing lookups, failing statements or ill-formed fragments
    the update of the policy succeeds. *)
Lemma droppedQueries_total dropped queries t :
  (∀ h tx q e, row_result W h tx q ≠ RowErr e) →
  Forall (λ kp, wellFormed kp.2) dropped →
  ∃ qs evs, droppedQueries W txn schemaName dropped queries t = (Ok qs, t ++ evs).
Proof.
  intros Hrows Hwf. revert queries t.
  induction Hwf as [|[k pMap] rest [a Ha] _ IH]; intros queries t; simpl.
  - exists queries, []. by rewrite app_nil_r.
  - unfold bind at 1, lift. simpl in Ha. rewrite Ha. unfold bind at 1.
    case_bool_decide.
    + unfold bind at 1, QueryRow.
      destruct (row_result W t (Some txn) _) as [cols| |e] eqn:Hrow; simpl.
      * destruct (IH (queries ++ acl.Revokes a schemaName) (t ++ [EQuery (Some txn)
            (QSql "SELECT TRUE FROM pg_catalog.pg_roles WHERE rolname = $1"
               [acl.Role a])])) as (qs & evs & ->).
        eexists qs, (_ :: evs). by rewrite <- app_assoc.
      * destruct (IH queries (t ++ [EQuery (Some txn)
            (QSql "SELECT TRUE FROM pg_catalog.pg_roles WHERE rolname = $1"
               [acl.Role a])])) as (qs & evs & ->).
        eexists qs, (_ :: evs). by rewrite <- app_assoc.
      * by apply Hrows in Hrow.
    + simpl. apply IH.
Qed.

Lemma addedQueries_total added queries :
  Forall (λ kp, wellFormed kp.2) added →
  ∃ qs, addedQueries schemaName added queries = Ok qs.
Proof.
  intros Hwf. revert queries.
  induction Hwf as [|[k pMap] rest [a Ha] _ IH]; intros queries; simpl; [eauto|].
  simpl in Ha. rewrite Ha. simpl. apply IH.
Qed.

Lemma updatedQueries_total updated queries :
  Forall (λ kp, ∃ vo vn, kp.2 = [vo; vn] ∧ wellFormed vo ∧ wellFormed vn) updated →
  ∃ qs, updatedQueries schemaName updated queries = Ok qs.
Proof.
  intros Hwf. revert queries.
  induction Hwf as [|[k policies] rest (vo & vn & Hp & [a Ha] & [b Hb]) _ IH];
    intros queries; simpl; [eauto|].
  simpl in Hp. subst policies. simpl. rewrite Ha. simpl. rewrite Hb. simpl.
  apply IH.
Qed.

Lemma forEach_Exec_total (queries : list Stmt) prefix t :
  (∀ h tx s, exec_result W h tx s = None) →
  ∃ evs, forEach queries (λ query, err <- Exec W txn query ;; check prefix err) t
         = (Ok tt, t ++ evs).
Proof.
  intros Hexec. revert t. induction queries as [|s queries IH]; intros t; simpl.
  - exists []. by rewrite app_nil_r.
  - unfold bind at 1. rewrite run_Exec_check, Hexec.
    destruct (IH (t ++ [EExec txn s None])) as (evs & ->).
    exists (EExec txn s None :: evs). by rewrite <- app_assoc.
Qed.

(** A lookup that fails with an error of its own stops the loop. *)
Lemma droppedQueries_abort dropped queries t k p a err :
  (k, p) ∈ dropped →
  schemaPolicyToACL p = Ok a →
  acl.Role a ≠ "" →
  (∀ h, row_result W h (Some txn) (roleQuery (acl.Role a)) = RowErr err) →
  ∃ r evs, droppedQueries W txn schemaName dropped queries t = (r, t ++ evs)
           ∧ is_ok r = false ∧ Forall (λ e, isStep e = false) evs.
Proof.
  intros Hin Ha Hrole Herr. revert queries t.
  induction dropped as [|[k' pMap] rest IH]; intros queries t.
  { by apply elem_of_nil in Hin. }
  simpl. unfold bind at 1, lift.
  destruct (schemaPolicyToACL pMap) as [a'|e|msg] eqn:Ha';
    [|eexists _, []; rewrite app_nil_r; by repeat split..].
  unfold bind at 1.
  destruct (decide ((k, p) = (k', pMap))) as [[= <- <-]|Hne].
  - rewrite Ha in Ha'. injection Ha' as <-.
    rewrite bool_decide_eq_true_2 by done. unfold bind at 1, QueryRow.
    change (QSql _ [acl.Role a]) with (roleQuery (acl.Role a)).
    rewrite Herr. simpl. eexists _, [_]. by repeat split; repeat constructor.
  - apply elem_of_cons in Hin as [? | Hin]; [done|].
    case_bool_decide.
    + unfold bind at 1, QueryRow.
      destruct (row_result W t (Some txn) _) as [cols| |e]; simpl.
      * destruct (IH Hin (queries ++ acl.Revokes a' schemaName)
                    (t ++ [EQuery (Some txn)
                             (QSql "SELECT TRUE FROM pg_catalog.pg_roles WHERE rolname = $1"
                                [acl.Role a'])])) as (r & evs & -> & Hr & Hevs).
        eexists r, (_ :: evs). rewrite <- app_assoc.
        split; [done|]. split; [done|]. by constructor.
      * destruct (IH Hin queries
                    (t ++ [EQuery (Some txn)
                             (QSql "SELECT TRUE FROM pg_catalog.pg_roles WHERE rolname = $1"
                                [acl.Role a'])])) as (r & evs & -> & Hr & Hevs).
        eexists r, (_ :: evs). rewrite <- app_assoc.
        split; [done|]. split; [done|]. by constructor.
      * eexists _, [_]. by repeat split; repeat constructor.
    + simpl. by apply IH.
Qed.

End DroppedRole.

Section DroppedRoleDiff.
Context (old new : list (gmap string Attr)).
Context (dropped added : gmap string (gmap string Attr)).
Context (updated : gmap string (list (gmap string Attr))).
Context (unchanged : gmap string (gmap string Attr)).
Context (Hdiff : schemaChangedPolicies old new
                 = Ok (dropped, added, updated, unchanged)).

Lemma dropped_from_old k p :
  dropped !! k = Some p → roleKey p = Some k ∧ p ∈ old.
Proof.
  destruct (schemaChangedPolicies_inv _ _ _ _ _ _ Hdiff)
    as (mo & mn & Hmo & Hmn & -> & -> & Hloop).
  rewrite droppedLoop_lookup. destruct (mn !! k); [done|]. intros Hk.
  destruct (buildLookupMap_Ok_inv _ _ _ Hmo k p Hk) as [Hl|?]; [|done].
  by rewrite lookup_empty in Hl.
Qed.

Lemma added_from_new k p :
  added !! k = Some p → p ∈ new.
Proof.
  destruct (schemaChangedPolicies_inv _ _ _ _ _ _ Hdiff)
    as (mo & mn & Hmo & Hmn & -> & -> & Hloop).
  rewrite addedLoop_lookup. destruct (mo !! k); [done|]. intros Hk.
  destruct (buildLookupMap_Ok_inv _ _ _ Hmn k p Hk) as [Hl|[_ ?]]; [|done].
  by rewrite lookup_empty in Hl.
Qed.

Lemma updated_from_both k policies :
  updated !! k = Some policies →
  ∃ vo vn, policies = [vo; vn] ∧ roleKey vo = Some k ∧ vo ∈ old ∧ vn ∈ new
           ∧ dropped !! k = None.
Proof.
  destruct (schemaChangedPolicies_inv _ _ _ _ _ _ Hdiff)
    as (mo & mn & Hmo & Hmn & -> & -> & Hloop).
  destruct (updatedLoop_lookup mo mn k) as [H1 _]. rewrite Hloop in H1.
  simpl in H1. rewrite H1, droppedLoop_lookup.
  destruct (mo !! k) as [vo|] eqn:Hvo; [|done].
  destruct (mn !! k) as [vn|] eqn:Hvn; [|done].
  case_decide; [done|]. intros [= <-]. exists vo, vn.
  destruct (buildLookupMap_Ok_inv _ _ _ Hmo k vo Hvo) as [Hl|[? ?]];
    [by rewrite lookup_empty in Hl|].
  destruct (buildLookupMap_Ok_inv _ _ _ Hmn k vn Hvn) as [Hl|[? ?]];
    [by rewrite lookup_empty in Hl|].
  done.
Qed.

End DroppedRoleDiff.

(** C6: in a policy update where a role with a non-empty name is dropped,
    - if the role is not in the catalog (its lookup finds no row), no
      statement revoking from that role is executed, and the update
      succeeds whenever no other lookup fails, no statement fails and the
      fragments are well formed;
    - if the lookup of the role fails with an error of its own, the
      update returns an error and executes no statement. *)
Theorem dropped_role_gone (W : World) (txn : Tx) (d : SchemaData)
    (dropped added : gmap string (gmap string Attr))
    (updated : gmap string (list (gmap string Attr)))
    (unchanged : gmap string (gmap string Attr))
    (k : string) (p : gmap string Attr) (a : acl.Schema)
    (t0 t : list Event) (r : Res unit) :
  schemaChangedPolicies (s_policy_prior d) (s_policy d)
  = Ok (dropped, added, updated, unchanged) →
  dropped !! k = Some p →
  schemaPolicyToACL p = Ok a →
  acl.Role a ≠ "" →
  setSchemaPolicy W txn d t0 = (r, t) →
  ∃ evs, t = t0 ++ evs
    ∧ ((∀ h, row_result W h (Some txn) (roleQuery (acl.Role a)) = ErrNoRows) →
       Forall (λ e, revokesRole (acl.Role a) e = false) evs
       ∧ ((∀ h tx q e, row_result W h tx q ≠ RowErr e) →
          (∀ h tx s, exec_result W h tx s = None) →
          Forall wellFormed (s_policy_prior d ++ s_policy d) →
          r = Ok tt))
    ∧ (∀ err,
         (∀ h, row_result W h (Some txn) (roleQuery (acl.Role a)) = RowErr err) →
         is_ok r = false ∧ Forall (λ e, isStep e = false) evs).
Proof.
  intros Hdiff Hk Ha Hrole Hrun.
  assert (Hchange : HasChange (s_policy_prior d) (s_policy d) = true).
  { apply bool_decide_eq_true_2. intros Heq. rewrite Heq in Hdiff.
    destruct (schemaChangedPolicies_inv _ _ _ _ _ _ Hdiff)
      as (mo & mn & Hmo & Hmn & -> & _).
    rewrite Hmo in Hmn. injection Hmn as <-.
    by rewrite droppedLoop_same, lookup_empty in Hk. }
  unfold setSchemaPolicy in Hrun. rewrite Hchange in Hrun. simpl in Hrun.
  unfold bind at 1, lift in Hrun. rewrite Hdiff in Hrun.
  assert (Hshape : ∃ evs, t = t0 ++ evs).
  { destruct (emitsOnly_events unlocked
                (applyChangedPolicies W txn (s_name d) dropped added updated)) with t0
      as (r' & evs & Heq & _).
    - unfold applyChangedPolicies. emits_only.
    - rewrite Heq in Hrun. injection Hrun as <- <-. eauto. }
  destruct Hshape as [evs ->]. exists evs. split; [done|].
  destruct (dropped_from_old _ _ _ _ _ _ Hdiff k p Hk) as [Hkey _].
  pose proof (schemaPolicyToACL_roleKey p a k Ha Hkey) as Hka.
  split.
  - intros Hgone. split.
    + assert (Hupd : Forall (λ kp, ∀ vo a', kp.2 !! 0 = Some vo →
                              schemaPolicyToACL vo = Ok a' →
                              acl.Role a' ≠ acl.Role a) (map_to_list updated)).
      { apply Forall_forall. intros [k' policies] Hin%elem_of_map_to_list vo a' Hvo Ha'.
        destruct (updated_from_both _ _ _ _ _ _ Hdiff k' policies Hin)
          as (vo' & vn & -> & Hkey' & _ & _ & Hnot).
        simpl in Hvo. injection Hvo as <-. intros Heq.
        pose proof (schemaPolicyToACL_roleKey vo' a' k' Ha' Hkey') as Hka'.
        rewrite Heq, <- Hka in Hka'. subst k'. by rewrite Hk in Hnot. }
      destruct (obeys_only _ _ _
                  (applyChangedPolicies_spare W txn (s_name d) (acl.Role a)
                     dropped added updated Hgone Hupd) t0)
        as (r' & evs' & Heq & Hevs & _).
      rewrite Heq in Hrun. injection Hrun as _ Ht. apply app_inv_head in Ht as ->.
      eapply Forall_impl; [exact Hevs|]. intros e He. simpl in He.
      by destruct (revokesRole (acl.Role a) e).
    + intros Hrows Hexec Hwf. apply Forall_app in Hwf as [Hold Hnew].
      unfold applyChangedPolicies in Hrun. unfold bind at 1 in Hrun.
      destruct (droppedQueries_total W txn (s_name d) (map_to_list dropped) [] t0 Hrows)
        as (qs1 & e1 & Heq1).
      { apply Forall_forall. intros [k' p'] Hin%elem_of_map_to_list.
        destruct (dropped_from_old _ _ _ _ _ _ Hdiff k' p' Hin) as [_ Hp'].
        by eapply Forall_forall in Hold. }
      rewrite Heq1 in Hrun. unfold bind at 1, lift in Hrun.
      destruct (addedQueries_total (s_name d) (map_to_list added) qs1) as (qs2 & Heq2).
      { apply Forall_forall. intros [k' p'] Hin%elem_of_map_to_list.
        pose proof (added_from_new _ _ _ _ _ _ Hdiff k' p' Hin) as Hp'.
        by eapply Forall_forall in Hnew. }
      rewrite Heq2 in Hrun. unfold bind at 1, lift in Hrun.
      destruct (updatedQueries_total (s_name d) (map_to_list updated) qs2)
        as (qs3 & Heq3).
      { apply Forall_forall. intros [k' policies] Hin%elem_of_map_to_list.
        destruct (updated_from_both _ _ _ _ _ _ Hdiff k' policies Hin)
          as (vo & vn & -> & _ & Hvo & Hvn & _).
        exists vo, vn. split; [done|].
        split; [by eapply Forall_forall in Hold | by eapply Forall_forall in Hnew]. }
      rewrite Heq3 in Hrun.
      destruct (forEach_Exec_total W txn qs3 "Error updating schema DCL: "
                  (t0 ++ e1) Hexec) as (e4 & Heq4).
      rewrite Heq4 in Hrun. by injection Hrun as <- _.
  - intros err Herr.
    unfold applyChangedPolicies in Hrun. unfold bind at 1 in Hrun.
    destruct (droppedQueries_abort W txn (s_name d) (map_to_list dropped) [] t0
                k p a err) as (r' & evs' & Heq & Hr' & Hevs'); try done.
    { by apply elem_of_map_to_list. }
    rewrite Heq in Hrun.
    destruct r' as [qs| |]; [done| |]; injection Hrun as <- Ht;
      apply app_inv_head in Ht as <-; by split.
Qed.

Example setSchemaPolicy_dropped_gone :
  setSchemaPolicy world_ok 0 policies_bob_dropped []
  = (Ok tt, [EQuery (Some 0) (roleQuery "bob")]).
Proof. vm_compute. reflexivity. Qed.

Example setSchemaPolicy_dropped_present :
  setSchemaPolicy world_roles 0 policies_bob_dropped []
  = (Ok tt, [EQuery (Some 0) (roleQuery "bob");
             EExec 0 (AclRevoke "USAGE" false "app" "bob") None]).
Proof. vm_compute. reflexivity. Qed.

Lemma dropped_role_gone_witness :
  ∃ evs, [EQuery (Some 0) (roleQuery "bob")] = [] ++ evs
         ∧ Forall (λ e, revokesRole "bob" e = false) evs.
Proof.
  destruct (dropped_role_gone world_ok 0 policies_bob_dropped
              {[ "bob" := fragment "bob" false false true false ]} ∅ ∅ ∅
              "bob" (fragment "bob" false false true false)
              (acl.mkSchema acl.Usage 0 "bob") []
              [EQuery (Some 0) (roleQuery "bob")] (Ok tt))
    as (evs & Ht & Hgone & _); try (vm_compute; reflexivity); [done|].
  exists evs. split; [done|]. by apply Hgone.
Defined.

(** ** More on [strings.Split] and [strings.Join] *)

Section SplitFacts.
Implicit Types (s : string) (c : ascii) (parts : list string).

Lemma Split_app s1 s2 c :
  Split (s1 +:+ String c s2) c = Split s1 c ++ Split s2 c.
Proof.
  induction s1 as [|a s1 IH]; simpl.
  - by rewrite Ascii.eqb_refl.
  - change (String a s1 +:+ ?x) with (String a (s1 +:+ x)). simpl.
    destruct (Ascii.eqb a c); rewrite IH; [done|].
    pose proof (Split_nonempty s1 c). by destruct (Split s1 c).
Qed.

(** Joining the pieces of a split with the separator gives the string back. *)
Lemma Join_Split s c : Join (Split s c) (String c EmptyString) = s.
Proof.
  induction s as [|a s IH]; simpl; [done|].
  destruct (Ascii.eqb_spec a c) as [->|Hne].
  - pose proof (Split_nonempty s c). destruct (Split s c) as [|h t] eqn:Hs; [done|].
    by rewrite Join_cons_cons, IH.
  - pose proof (Split_nonempty s c). destruct (Split s c) as [|h t] eqn:Hs; [done|].
    destruct t as [|h' t]; [simpl in *; by rewrite IH|].
    rewrite Join_cons_cons in *. by rewrite <- IH.
Qed.

(** No piece of a split holds the separator. *)
Lemma Split_free s c : Forall (λ p, Contains p c = false) (Split s c).
Proof.
  induction s as [|a s IH]; simpl; [by repeat constructor|].
  destruct (Ascii.eqb a c) eqn:Ha; [by constructor|].
  destruct IH as [|h t Hh Ht]; [by repeat constructor; simpl; rewrite Ha|].
  constructor; [|done]. simpl. by rewrite Ha.
Qed.

Lemma Split_two s c a b :
  Split s c = [a; b]
  ↔ (s = a +:+ String c b ∧ Contains a c = false ∧ Contains b c = false).
Proof.
  split.
  - intros Hs. pose proof (Join_Split s c) as Hj. pose proof (Split_free s c) as Hf.
    rewrite Hs in Hj, Hf. apply Forall_cons in Hf as [Ha Hf].
    apply Forall_cons in Hf as [Hb _]. by rewrite <- Hj.
  - intros (-> & Ha & Hb). rewrite Split_app_sep by done. by rewrite Split_without.
Qed.

(** Splitting a join splits every part. *)
Lemma Split_Join_concat parts c :
  parts ≠ [] →
  Split (Join parts (String c EmptyString)) c = concat ((λ p, Split p c) <$> parts).
Proof.
  induction parts as [|x parts IH]; [done|]. intros _.
  destruct parts as [|y parts].
  - simpl. by rewrite app_nil_r.
  - rewrite Join_cons_cons.
    change (x +:+ String c EmptyString +:+ ?r) with (x +:+ String c r).
    rewrite Split_app, IH by done. done.
Qed.

Lemma Split_Join_length parts c :
  parts ≠ [] → length parts ≤ length (Split (Join parts (String c EmptyString)) c).
Proof.
  intros Hne. rewrite Split_Join_concat by done. clear Hne.
  induction parts as [|x parts IH]; [done|].
  rewrite fmap_cons, concat_cons, length_app. pose proof (Split_nonempty x c).
  destruct (Split x c); [done|]. simpl. lia.
Qed.

End SplitFacts.

(** ** Parsing identifiers *)

(** X1: [getDBSchemaName] returns the target database and the declared
    name when a name is declared. Without one (an import) it parses the
    identifier: it returns [(database, schemaName)] exactly when the
    identifier is [database.schemaName] with no further ["."] in either
    part, and returns an error, never panics, on any other identifier. *)
Theorem getDBSchemaName_parses (d : SchemaData) (c : Client) :
  (s_name d ≠ "" → getDBSchemaName d c = Ok (getDatabase d c, s_name d))
  ∧ (s_name d = "" →
     (∀ database schemaName,
        getDBSchemaName d c = Ok (database, schemaName)
        ↔ (s_id d = database +:+ "." +:+ schemaName
           ∧ Contains database "." = false ∧ Contains schemaName "." = false))
     ∧ ∀ msg, getDBSchemaName d c ≠ Panic msg).
Proof.
  unfold getDBSchemaName. split; intros Hname.
  - by rewrite bool_decide_eq_false_2.
  - rewrite bool_decide_eq_true_2 by done.
    assert (Hiff : ∀ database schemaName,
      Split (s_id d) "." = [database; schemaName]
      ↔ (s_id d = database +:+ "." +:+ schemaName
         ∧ Contains database "." = false ∧ Contains schemaName "." = false)).
    { intros database schemaName. apply Split_two. }
    destruct (Split (s_id d) ".") as [|a [|b [|x rest]]] eqn:Hs; simpl.
    + by destruct (Split_nonempty (s_id d) ".").
    + split; [|done]. intros database schemaName. rewrite <- Hiff. by split.
    + split; [|done]. intros database schemaName. rewrite <- Hiff.
      split; congruence.
    + split; [|done]. intros database schemaName. rewrite <- Hiff. by split.
Qed.

(** X2: on the identifier of a schema whose target database holds no
    ["."], [getSchemaNameFromID] returns the part before the first ["."],
    which is the database, not the name of the schema. *)
Theorem getSchemaNameFromID_database (d : SchemaData) (c : Client) :
  Contains (getDatabase d c) "." = false →
  getSchemaNameFromID (generateSchemaID d c) = Ok (getDatabase d c).
Proof.
  intros Hdb. unfold getSchemaNameFromID, generateSchemaID.
  rewrite Join_cons_cons. simpl Join.
  change (?a +:+ "." +:+ ?b) with (a +:+ String "." b).
  by rewrite Split_app_sep.
Qed.

Lemma getSchemaNameFromID_database_witness :
  getSchemaNameFromID (generateSchemaID (schema_named "app" "public") client0)
  = Ok "app".
Proof.
  apply (getSchemaNameFromID_database (schema_named "app" "public") client0).
  vm_compute. reflexivity.
Defined.

(** X3: on the identifier of an extension whose database holds no ["."],
    [getExtensionNameFromID] returns the name of the extension with its
    ["."] removed; it is the name itself when the name holds none. *)
Theorem getExtensionNameFromID_name (d : ExtensionData) (c : Client) :
  Contains (getDatabaseForExtension d c) "." = false →
  getExtensionNameFromID (generateExtensionID d c) = Join (Split (e_name d) ".") ""
  ∧ (Contains (e_name d) "." = false →
     getExtensionNameFromID (generateExtensionID d c) = e_name d).
Proof.
  intros Hdb.
  assert (Hid : getExtensionNameFromID (generateExtensionID d c)
                = Join (Split (e_name d) ".") "").
  { unfold getExtensionNameFromID, generateExtensionID.
    rewrite Join_cons_cons. simpl Join.
    change (?a +:+ "." +:+ ?b) with (a +:+ String "." b).
    rewrite Split_app, (Split_without _ _ Hdb), length_app. simpl length.
    replace (length (Split (e_name d) ".") + 1 - 1) with (length (Split (e_name d) "."))
      by lia.
    by rewrite take_app_length. }
  split; [done|]. intros Hname. by rewrite Hid, Split_without.
Qed.

Lemma getExtensionNameFromID_name_witness :
  getExtensionNameFromID (generateExtensionID extension_pgcrypto client0) = "pgcrypto".
Proof.
  apply (getExtensionNameFromID_name extension_pgcrypto client0);
    vm_compute; reflexivity.
Defined.

Lemma sortStrings_proper (l1 l2 : list string) :
  l1 ≡ₚ l2 → sortStrings l1 = sortStrings l2.
Proof.
  intros Hp. apply (StronglySorted_unique String.le);
    [apply sortStrings_Sorted..|].
  by rewrite !sortStrings_Permutation.
Qed.

(** X4: the identifier of a grant does not depend on the order in which
    the table and privilege sets list their elements. *)
Theorem generateGrantID_order (d1 d2 : GrantData) :
  g_role d1 = g_role d2 →
  g_database d1 = g_database d2 →
  g_schema d1 = g_schema d2 →
  g_object_type d1 = g_object_type d2 →
  g_tables d1 ≡ₚ g_tables d2 →
  g_privileges d1 ≡ₚ g_privileges d2 →
  generateGrantID d1 = generateGrantID d2.
Proof.
  intros Hr Hd Hs Ho Ht Hp. unfold generateGrantID, getStringsFromSet.
  rewrite Hr, Hd, Hs, Ho, (Permutation_length Ht).
  by rewrite (sortStrings_proper _ _ Ht), (sortStrings_proper _ _ Hp).
Qed.

Lemma generateGrantID_order_witness :
  generateGrantID grant_two_tables
  = generateGrantID
      {| g_id := "x"; g_role := "alice"; g_database := "app"; g_schema := "public";
         g_object_type := "table"; g_tables := ["t1"; "t2"];
         g_privileges := ["SELECT"; "UPDATE"]; g_with_grant_option := true |}.
Proof.
  apply generateGrantID_order; try reflexivity; apply Permutation_swap.
Defined.

(** X5: for an object type other than ["database"] and a table set that
    is not empty, the generated identifier has the six fields that
    [readTableGrantID] reads, whatever the fields hold: parsing it does
    not panic. *)
Theorem readTableGrantID_generated (d : GrantData) :
  g_tables d ≠ [] →
  g_object_type d ≠ "database" →
  is_ok (readTableGrantID (g_SetId d (generateGrantID d))) = true.
Proof.
  intros Ht Ho. unfold readTableGrantID. change (g_id (g_SetId d ?i)) with i.
  rewrite generateGrantID_long by done. unfold grantIDHead.
  rewrite bool_decide_eq_true_2 by done. simpl app.
  unfold tableGrantIdDelimiterByte.
  match goal with |- context [Split (Join ?parts ":") ":"] =>
    assert (Hlen : 6 ≤ length (Split (Join parts ":") ":"))
      by apply (Split_Join_length parts ":" ltac:(done));
    set (ps := Split (Join parts ":") ":") in *
  end.
  unfold index.
  assert (Hi : ∀ i, i < 6 → is_Some (ps !! i)).
  { intros i Hi. apply lookup_lt_is_Some. lia. }
  destruct (Hi 0) as [? ->]; [lia|]. destruct (Hi 1) as [? ->]; [lia|].
  destruct (Hi 2) as [? ->]; [lia|]. destruct (Hi 3) as [? ->]; [lia|].
  destruct (Hi 4) as [? ->]; [lia|]. destruct (Hi 5) as [? ->]; [lia|]. done.
Qed.

Lemma readTableGrantID_generated_witness :
  is_ok (readTableGrantID (g_SetId grant_two_tables (generateGrantID grant_two_tables)))
  = true.
Proof. by apply readTableGrantID_generated. Defined.

(** ** Fragments and ACLs *)

(** X6: [schemaPolicyToACL] converts a fragment exactly when its four
    privilege switches are present as booleans and its role, if present,
    is a string; otherwise it panics (it never returns an error). In the
    ACL it returns the grant options are among the privileges, the
    privileges are among CREATE and USAGE, and the role is the role of the
    fragment, empty when the fragment has none. *)
Theorem schemaPolicyToACL_converts (p : gmap string Attr) :
  (wellFormed p
   ↔ ((∃ b, p !! schemaPolicyCreateAttr = Some (ABool b))
      ∧ (∃ b, p !! schemaPolicyCreateWithGrantAttr = Some (ABool b))
      ∧ (∃ b, p !! schemaPolicyUsageAttr = Some (ABool b))
      ∧ (∃ b, p !! schemaPolicyUsageWithGrantAttr = Some (ABool b))
      ∧ roleTyped p))
  ∧ (∀ e, schemaPolicyToACL p ≠ Fail e)
  ∧ (∀ a, schemaPolicyToACL p = Ok a →
       Z.land (acl.GrantOptions a) (acl.Privileges a) = acl.GrantOptions a
       ∧ Z.land (acl.Privileges a) (Z.lor acl.Create acl.Usage) = acl.Privileges a
       ∧ (p !! schemaPolicyRoleAttr = Some (AString (acl.Role a))
          ∨ (p !! schemaPolicyRoleAttr = None ∧ acl.Role a = ""))).
Proof.
  unfold wellFormed, roleTyped, schemaPolicyToACL.
  destruct (p !! schemaPolicyCreateAttr) as [[c|?]|];
    [|simpl; split; [split; [by intros [? ?] | naive_solver] | by split]..].
  destruct (p !! schemaPolicyCreateWithGrantAttr) as [[cg|?]|];
    [|simpl; split; [split; [by intros [? ?] | naive_solver] | by split]..].
  destruct (p !! schemaPolicyUsageAttr) as [[u|?]|];
    [|simpl; split; [split; [by intros [? ?] | naive_solver] | by split]..].
  destruct (p !! schemaPolicyUsageWithGrantAttr) as [[ug|?]|];
    [|simpl; split; [split; [by intros [? ?] | naive_solver] | by split]..].
  destruct (p !! schemaPolicyRoleAttr) as [[b|role]|]; simpl.
  - split; [split; [by intros [? ?] | naive_solver] | by split].
  - split; [split; [naive_solver | eauto]|]. split; [done|]. intros a [= <-].
    destruct c, cg, u, ug; vm_compute; auto.
  - split; [split; [naive_solver | eauto]|]. split; [done|]. intros a [= <-].
    destruct c, cg, u, ug; vm_compute; auto.
Qed.

(** X7: the fragment that [schemaPolicyToHCL] writes for an ACL obtained
    from a fragment converts back to that ACL; it is the fragment with
    [create] and [usage] also set where the grant variant was set. *)
Theorem schemaPolicyToHCL_roundtrip (p : gmap string Attr) (a : acl.Schema) :
  schemaPolicyToACL p = Ok a →
  schemaPolicyToACL (schemaPolicyToHCL a) = Ok a
  ∧ ∀ c cg u ug,
      p !! schemaPolicyCreateAttr = Some (ABool c) →
      p !! schemaPolicyCreateWithGrantAttr = Some (ABool cg) →
      p !! schemaPolicyUsageAttr = Some (ABool u) →
      p !! schemaPolicyUsageWithGrantAttr = Some (ABool ug) →
      schemaPolicyToHCL a = fragment (acl.Role a) (c || cg) cg (u || ug) ug.
Proof.
  unfold schemaPolicyToACL at 1.
  destruct (p !! schemaPolicyCreateAttr) as [[c|?]|]; [|done..].
  destruct (p !! schemaPolicyCreateWithGrantAttr) as [[cg|?]|]; [|done..].
  destruct (p !! schemaPolicyUsageAttr) as [[u|?]|]; [|done..].
  destruct (p !! schemaPolicyUsageWithGrantAttr) as [[ug|?]|]; [|done..].
  assert (Hall : ∀ role,
    let a := acl.mkSchema
               (Z.lor (Z.lor (Z.lor (Z.lor 0 (if c then acl.Create else 0))
                                (if cg then acl.Create else 0))
                         (if u then acl.Usage else 0)) (if ug then acl.Usage else 0))
               (Z.lor (Z.lor 0 (if cg then acl.Create else 0))
                  (if ug then acl.Usage else 0)) role in
    schemaPolicyToACL (schemaPolicyToHCL a) = Ok a
    ∧ schemaPolicyToHCL a = fragment role (c || cg) cg (u || ug) ug).
  { intros role. destruct c, cg, u, ug; split; vm_compute; reflexivity. }
  destruct (p !! schemaPolicyRoleAttr) as [[b|role]|]; simpl; [done| |].
  - intros [= <-]. destruct (Hall role) as [H1 H2].
    destruct c, cg, u, ug; (split; [exact H1|]);
      intros ???? [= <-] [= <-] [= <-] [= <-]; exact H2.
  - intros [= <-]. destruct (Hall "") as [H1 H2].
    destruct c, cg, u, ug; (split; [exact H1|]);
      intros ???? [= <-] [= <-] [= <-] [= <-]; exact H2.
Qed.

Lemma schemaPolicyToHCL_roundtrip_witness :
  schemaPolicyToACL
    (schemaPolicyToHCL (acl.mkSchema (Z.lor acl.Create acl.Usage) acl.Create "alice"))
  = Ok (acl.mkSchema (Z.lor acl.Create acl.Usage) acl.Create "alice").
Proof.
  apply (schemaPolicyToHCL_roundtrip (fragment "alice" false true true false)).
  vm_compute. reflexivity.
Defined.

(** ** More on the policy diff *)

Lemma last_cons_cases {A} (x : A) (l : list A) :
  last (x :: l) = match last l with Some y => Some y | None => Some x end.
Proof.
  destruct l as [|y l]; [done|]. change (last (x :: y :: l)) with (last (y :: l)).
  destruct (last (y :: l)) eqn:E; [done|]. by apply last_None in E.
Qed.

Lemma buildLookupMap_last (l : list (gmap string Attr))
    (lookupMap m : gmap string (gmap string Attr)) (k : string) :
  buildLookupMap l lookupMap = Ok m →
  m !! k = match last (filter (λ p, roleKey p = Some k) l) with
           | Some p => Some p
           | None => lookupMap !! k
           end.
Proof.
  revert lookupMap. induction l as [|x l IH]; intros lookupMap; simpl.
  - by intros [= <-].
  - unfold lookupStore.
    destruct (x !! schemaPolicyRoleAttr) as [[b|role]|] eqn:Hx; simpl; [done| |].
    + intros Hm. rewrite (IH _ Hm). destruct (decide (ToLower role = k)) as [<-|Hne].
      * rewrite filter_cons_True by (unfold roleKey; by rewrite Hx).
        rewrite last_cons_cases, lookup_insert_eq.
        by destruct (last _).
      * rewrite filter_cons_False by (unfold roleKey; rewrite Hx; congruence).
        by rewrite lookup_insert_ne.
    + intros Hm. rewrite (IH _ Hm).
      rewrite filter_cons_False; [done|]. unfold roleKey. by rewrite Hx.
Qed.

(** X8: each lookup map of the diff holds, under a role key, the last
    fragment of the list that has this key; earlier fragments of the same
    role are not looked at again. *)
Theorem buildLookupMap_last_wins (l : list (gmap string Attr))
    (m : gmap string (gmap string Attr)) :
  buildLookupMap l ∅ = Ok m →
  ∀ k, m !! k = last (filter (λ p, roleKey p = Some k) l).
Proof.
  intros Hm k. rewrite (buildLookupMap_last l ∅ m k Hm), lookup_empty.
  by destruct (last _).
Qed.

Lemma buildLookupMap_last_wins_witness :
  ∃ m, buildLookupMap policies_alice_split ∅ = Ok m
       ∧ m !! "alice" = Some (fragment "Alice" false false true false).
Proof.
  destruct (buildLookupMap policies_alice_split ∅) as [m| |] eqn:Hm;
    [|vm_compute in Hm; discriminate..].
  exists m. split; [done|].
  rewrite (buildLookupMap_last_wins policies_alice_split m Hm "alice").
  vm_compute. reflexivity.
Defined.

(** X9: exchanging the old and the new list exchanges the dropped and the
    added roles, keeps the unchanged ones and turns around the pair of
    every updated role. *)
Theorem schemaChangedPolicies_swap (old new : list (gmap string Attr))
    (dropped added : gmap string (gmap string Attr))
    (updated : gmap string (list (gmap string Attr)))
    (unchanged : gmap string (gmap string Attr)) :
  schemaChangedPolicies old new = Ok (dropped, added, updated, unchanged) →
  schemaChangedPolicies new old = Ok (added, dropped, reverse <$> updated, unchanged).
Proof.
  intros Hdiff.
  destruct (schemaChangedPolicies_inv _ _ _ _ _ _ Hdiff)
    as (mo & mn & Hmo & Hmn & -> & -> & Hloop).
  unfold schemaChangedPolicies. rewrite Hmn, Hmo. simpl.
  destruct (updatedLoop mn mo) as [upd unch] eqn:Hloop'.
  assert (droppedLoop mn mo = addedLoop mo mn) as ->.
  { apply map_eq. intros k. by rewrite droppedLoop_lookup, addedLoop_lookup. }
  assert (addedLoop mn mo = droppedLoop mo mn) as ->.
  { apply map_eq. intros k. by rewrite droppedLoop_lookup, addedLoop_lookup. }
  assert (upd = reverse <$> updated) as ->.
  { apply map_eq. intros k. rewrite lookup_fmap.
    destruct (updatedLoop_lookup mn mo k) as [H2 _]. rewrite Hloop' in H2.
    destruct (updatedLoop_lookup mo mn k) as [H1 _]. rewrite Hloop in H1.
    simpl in *. rewrite H1, H2.
    destruct (mo !! k) as [vo|], (mn !! k) as [vn|]; try done.
    repeat case_decide; by simplify_eq. }
  assert (unch = unchanged) as ->; [|done].
  apply map_eq. intros k.
  destruct (updatedLoop_lookup mn mo k) as [_ H2]. rewrite Hloop' in H2.
  destruct (updatedLoop_lookup mo mn k) as [_ H1]. rewrite Hloop in H1.
  simpl in *. rewrite H1, H2.
  destruct (mo !! k) as [vo|], (mn !! k) as [vn|]; try done.
  repeat case_decide; by simplify_eq.
Qed.

Lemma schemaChangedPolicies_swap_witness :
  schemaChangedPolicies policies_bob policies_alice_usage
  = Ok ({[ "bob" := fragment "bob" false false true false ]},
        {[ "alice" := fragment "Alice" false false true false ]},
        reverse <$> ∅, ∅).
Proof.
  apply (schemaChangedPolicies_swap policies_alice_usage policies_bob).
  vm_compute. reflexivity.
Defined.

(** ** The container of the create path *)

Section MergeBits.
Context (f : acl.Schema → Z).
Context (Hf : ∀ s x, f (acl.Merge s x) = Z.lor (f s) (f x)).
Implicit Types (l : list (gmap string Attr)) (m : gmap string acl.Schema).

Local Abbreviation declares l k i :=
  (∃ p a, p ∈ l ∧ schemaPolicyToACL p = Ok a ∧ ToLower (acl.Role a) = k
          ∧ Z.testbit (f a) i = true).

Lemma mergePolicies_bits l m0 m k :
  mergePolicies l m0 = Ok m →
  match m !! k with
  | Some s =>
      ∀ i, Z.testbit (f s) i = true
           ↔ ((∃ s0, m0 !! k = Some s0 ∧ Z.testbit (f s0) i = true) ∨ declares l k i)
  | None =>
      m0 !! k = None
      ∧ ∀ p a, p ∈ l → schemaPolicyToACL p = Ok a → ToLower (acl.Role a) ≠ k
  end.
Proof.
  revert m0. induction l as [|x l IH]; intros m0; simpl.
  - intros [= <-]. destruct (m0 !! k) as [s|] eqn:Hs.
    + intros i. split; [eauto|]. intros [(s0 & [= <-] & H) | (p & a & Hin & _)]; [done|].
      by apply elem_of_nil in Hin.
    + split; [done|]. intros p a Hin. by apply elem_of_nil in Hin.
  - destruct (schemaPolicyToACL x) as [a0| |] eqn:Hx; simpl; [|done..].
    intros Hm. specialize (IH _ Hm).
    destruct (m !! k) as [s|].
    + intros i. rewrite IH. clear IH. split.
      * intros [(s1 & Hs1 & Hbit) | (p & a & Hin & Hp & Hk & Hbit)].
        -- destruct (decide (ToLower (acl.Role a0) = k)) as [Hk|Hk].
           ++ subst k. destruct (m0 !! ToLower (acl.Role a0)) as [e|] eqn:He;
                rewrite lookup_insert_eq in Hs1; injection Hs1 as <-.
              ** rewrite Hf, Z.lor_spec in Hbit.
                 apply orb_true_iff in Hbit as [Hbit|Hbit]; [eauto|].
                 right. exists x, a0. split; [by left|]. done.
              ** right. exists x, a0. split; [by left|]. done.
           ++ left. exists s1. split; [|done].
              destruct (m0 !! ToLower (acl.Role a0));
                by rewrite lookup_insert_ne in Hs1.
        -- right. exists p, a. split; [by right|]. done.
      * intros [(s0 & Hs0 & Hbit) | (p & a & Hin & Hp & Hk & Hbit)].
        -- left. destruct (decide (ToLower (acl.Role a0) = k)) as [Hk|Hk].
           ++ subst k. rewrite Hs0, lookup_insert_eq. eexists. split; [done|].
              by rewrite Hf, Z.lor_spec, Hbit.
           ++ exists s0. split; [|done].
              destruct (m0 !! ToLower (acl.Role a0)); by rewrite lookup_insert_ne.
        -- apply elem_of_cons in Hin as [-> | Hin]; [|right; by exists p, a].
           rewrite Hx in Hp. injection Hp as <-. left. subst k.
           destruct (m0 !! ToLower (acl.Role a0)) as [e|];
             rewrite lookup_insert_eq; eexists; (split; [done|]); [|done].
           by rewrite Hf, Z.lor_spec, Hbit, orb_true_r.
    + destruct IH as [Hnone Hl]. destruct (decide (ToLower (acl.Role a0) = k)) as [Hk|Hk].
      { subst k. destruct (m0 !! ToLower (acl.Role a0));
          by rewrite lookup_insert_eq in Hnone. }
      split.
      * destruct (m0 !! ToLower (acl.Role a0)); by rewrite lookup_insert_ne in Hnone.
      * intros p a [-> | Hin]%elem_of_cons Hp; [|by eapply Hl].
        rewrite Hx in Hp. by injection Hp as <-.
Qed.

Lemma mergePolicies_bits_empty l m k :
  mergePolicies l ∅ = Ok m →
  match m !! k with
  | Some s => ∀ i, Z.testbit (f s) i = true ↔ declares l k i
  | None => ∀ p a, p ∈ l → schemaPolicyToACL p = Ok a → ToLower (acl.Role a) ≠ k
  end.
Proof.
  intros Hm. pose proof (mergePolicies_bits l ∅ m k Hm) as H.
  destruct (m !! k) as [s|]; [|by destruct H].
  intros i. rewrite H. split; [|eauto]. intros [(s0 & Hs0 & _) | ?]; [|done].
  by rewrite lookup_empty in Hs0.
Qed.

End MergeBits.

(** X10: the container that the create path builds from the declared
    fragments holds, under each role key, exactly the union of what the
    fragments with that key declare: a privilege, and a grant option, is
    set in the stored ACL if and only if some fragment with the key sets
    it; and a key is absent only when no fragment has it. *)
Theorem mergePolicies_union (l : list (gmap string Attr))
    (m : gmap string acl.Schema) (k : string) :
  mergePolicies l ∅ = Ok m →
  match m !! k with
  | Some s =>
      ∀ i,
        (Z.testbit (acl.Privileges s) i = true
         ↔ ∃ p a, p ∈ l ∧ schemaPolicyToACL p = Ok a ∧ ToLower (acl.Role a) = k
                  ∧ Z.testbit (acl.Privileges a) i = true)
        ∧ (Z.testbit (acl.GrantOptions s) i = true
           ↔ ∃ p a, p ∈ l ∧ schemaPolicyToACL p = Ok a ∧ ToLower (acl.Role a) = k
                    ∧ Z.testbit (acl.GrantOptions a) i = true)
  | None => ∀ p a, p ∈ l → schemaPolicyToACL p = Ok a → ToLower (acl.Role a) ≠ k
  end.
Proof.
  intros Hm.
  pose proof (mergePolicies_bits_empty acl.Privileges (λ _ _, eq_refl) l m k Hm) as HP.
  pose proof (mergePolicies_bits_empty acl.GrantOptions (λ _ _, eq_refl) l m k Hm) as HG.
  destruct (m !! k) as [s|]; [|done]. intros i. split; [apply HP | apply HG].
Qed.

Lemma mergePolicies_union_witness :
  Z.testbit (Z.lor acl.Create acl.Usage) 10 = true
  ↔ ∃ p a, p ∈ policies_alice_split ∧ schemaPolicyToACL p = Ok a
           ∧ ToLower (acl.Role a) = "alice"
           ∧ Z.testbit (acl.Privileges a) 10 = true.
Proof.
  assert (Hm : mergePolicies policies_alice_split ∅
               = Ok {[ "alice" := acl.mkSchema (Z.lor acl.Create acl.Usage) 0 "alice" ]})
    by (vm_compute; reflexivity).
  pose proof (mergePolicies_union policies_alice_split _ "alice" Hm) as H.
  rewrite lookup_singleton_eq in H. apply H.
Defined.

(** ** The events of the helpers, by class *)

Lemma emitsOnly_emit (P : Event → bool) (e : Event) :
  P e = true → emitsOnly P (emit e).
Proof. intros He. by apply (emitsOnly_event P (λ _, tt)). Qed.

(** Closes the side condition that a class of events holds a given event. *)
Ltac event_ok :=
  solve [ intros; simpl; repeat (rewrite bool_decide_eq_true_2 by done); simpl; auto ].

(** As [emits_only], for a class of events given by hypotheses as well. *)
Ltac emits_any :=
  repeat first
    [ apply emitsOnly_ret | apply emitsOnly_fail | apply emitsOnly_panic
    | apply emitsOnly_lift | apply emitsOnly_check
    | apply emitsOnly_emit; event_ok
    | apply emitsOnly_Exec; event_ok | apply emitsOnly_Commit; event_ok
    | apply emitsOnly_QueryRow; event_ok | apply emitsOnly_QueryRows; event_ok
    | apply emitsOnly_startTransaction; event_ok
    | apply emitsOnly_defer; [event_ok|]
    | apply emitsOnly_wrapped | apply emitsOnly_attempt
    | apply emitsOnly_bind; [|intros ?]
    | assumption
    | match goal with
      | |- emitsOnly _ (if ?b then _ else _) => destruct b
      | |- emitsOnly _ (match ?x with _ => _ end) => destruct x
      end ].

(** The helpers that work on a transaction [txn] they are given add only
    statements and reads on [txn]. *)
Section OnTransaction.
Context (W : World) (txn : Tx) (P : Event → bool).
Context (HExec : ∀ s err, P (EExec txn s err) = true).
Context (HQuery : ∀ q, P (EQuery (Some txn) q) = true).

Lemma on_grantRoleMembership role member :
  emitsOnly P (grantRoleMembership W txn role member).
Proof. unfold grantRoleMembership. emits_any. Qed.

Lemma on_revokeRoleMembership role member :
  emitsOnly P (revokeRoleMembership W txn role member).
Proof. unfold revokeRoleMembership. emits_any. Qed.

Lemma on_grantRoles actor roles : emitsOnly P (grantRoles W txn actor roles).
Proof.
  induction roles as [|role roles IH]; simpl; emits_any;
    apply on_grantRoleMembership.
Qed.

Lemma on_revokeRoles actor granted : emitsOnly P (revokeRoles W txn actor granted).
Proof. induction granted as [|role granted IH]; simpl; emits_any. Qed.

Lemma on_withRolesGranted actor roles fn :
  emitsOnly P fn → emitsOnly P (withRolesGranted W txn actor roles fn).
Proof.
  intros Hfn. unfold withRolesGranted.
  apply emitsOnly_bind; [apply on_grantRoles|]. intros elevation.
  apply emitsOnly_bind; [emits_any|]. intros outcome.
  apply emitsOnly_bind; [apply on_revokeRoles|]. intros revokeErr. emits_any.
Qed.

Lemma on_lookupExists q : emitsOnly P (lookupExists W (Some txn) q).
Proof. unfold lookupExists. emits_any. Qed.

Lemma on_setSchemaName d c : emitsOnly P (setSchemaName W txn d c).
Proof. unfold setSchemaName. emits_any. Qed.

Lemma on_setSchemaOwner d : emitsOnly P (setSchemaOwner W txn d).
Proof. unfold setSchemaOwner. emits_any. Qed.

Lemma on_droppedQueries schemaName dropped queries :
  emitsOnly P (droppedQueries W txn schemaName dropped queries).
Proof.
  revert queries. induction dropped as [|[k pMap] rest IH]; intros queries; simpl;
    emits_any; apply IH.
Qed.

Lemma on_forEach_Exec (queries : list Stmt) prefix :
  emitsOnly P (forEach queries (λ query, err <- Exec W txn query ;; check prefix err)).
Proof. apply emitsOnly_forEach. intros query. emits_any. Qed.

Lemma on_setSchemaPolicy d : emitsOnly P (setSchemaPolicy W txn d).
Proof.
  unfold setSchemaPolicy, applyChangedPolicies. emits_any;
    first [apply on_droppedQueries | apply on_forEach_Exec].
Qed.

Lemma on_getRolesToGrantForSchema schemaName :
  emitsOnly P (getRolesToGrantForSchema W txn schemaName).
Proof. unfold getRolesToGrantForSchema, getTablesOwner, getSchemaOwner. emits_any. Qed.

Lemma on_grantRolePrivileges d : emitsOnly P (grantRolePrivileges W txn d).
Proof. unfold grantRolePrivileges. emits_any. Qed.

Lemma on_revokeRolePrivileges d : emitsOnly P (revokeRolePrivileges W txn d).
Proof. unfold revokeRolePrivileges. emits_any. Qed.

Lemma on_readRolePrivileges d : emitsOnly P (readRolePrivileges W txn d).
Proof.
  unfold readRolePrivileges, readDatabaseRolePrivileges, readTableRolePrivileges.
  emits_any.
Qed.

Lemma on_setExtSchema d : emitsOnly P (setExtSchema W txn d).
Proof. unfold setExtSchema. emits_any. Qed.

Lemma on_setExtVersion d : emitsOnly P (setExtVersion W txn d).
Proof. unfold setExtVersion. emits_any. Qed.

End OnTransaction.

(** Applies the lemma of section [OnTransaction] for the helper at the
    head of the goal. *)
Ltac on_transaction :=
  first
    [ apply on_grantRoleMembership | apply on_revokeRoleMembership
    | apply on_grantRoles | apply on_revokeRoles | apply on_withRolesGranted
    | apply on_lookupExists | apply on_setSchemaName | apply on_setSchemaOwner
    | apply on_droppedQueries | apply on_forEach_Exec | apply on_setSchemaPolicy
    | apply on_getRolesToGrantForSchema | apply on_grantRolePrivileges
    | apply on_revokeRolePrivileges | apply on_readRolePrivileges
    | apply on_setExtSchema | apply on_setExtVersion ];
  try event_ok.

(** The operations that read: they add reads and the opening and rollback
    of their transactions. *)
Section Reading.
Context (W : World) (P : Event → bool).
Context (HQuery : ∀ tx q, P (EQuery tx q) = true).
Context (HBegin : ∀ tx database, P (EBegin tx database) = true).
Context (HRollback : ∀ tx, P (ERollback tx) = true).

Lemma reading_SchemaReadImpl d c :
  emitsOnly P (resourcePostgreSQLSchemaReadImpl W d c).
Proof. unfold resourcePostgreSQLSchemaReadImpl, deferredRollback. emits_any. Qed.

Lemma reading_ExtensionReadImpl d c :
  emitsOnly P (resourcePostgreSQLExtensionReadImpl W d c).
Proof. unfold resourcePostgreSQLExtensionReadImpl, deferredRollback. emits_any. Qed.

Lemma reading_checkRoleDBSchemaExists client d :
  emitsOnly P (checkRoleDBSchemaExists W client d).
Proof.
  unfold checkRoleDBSchemaExists, deferredRollback, roleExists, dbExists,
    schemaExists, lookupExists. emits_any.
Qed.

Lemma reading_readRolePrivileges txn d : emitsOnly P (readRolePrivileges W txn d).
Proof. by apply on_readRolePrivileges. Qed.

Lemma reading_SchemaExists_body d c :
  emitsOnly P
    (names <- lift (getDBSchemaName d c) ;;
     let '(database, schemaName) := names in
     exists_ <- dbExists W None database ;;
     if negb exists_ then ret false
     else
       txn <- startTransaction W database ;;
       defer (deferredRollback txn) (
         row <- QueryRow W (Some txn)
                  (QSql "SELECT n.nspname FROM pg_catalog.pg_namespace n WHERE n.nspname=$1"
                     [schemaName]) ;;
         match row with
         | ErrNoRows => ret false
         | RowErr e => fail (wrap "Error reading schema: " e)
         | Row _ => ret true
         end)).
Proof.
  apply emitsOnly_bind; [emits_any|]. intros [database schemaName].
  unfold dbExists, lookupExists, deferredRollback. emits_any.
Qed.

End Reading.

(** ** The catalog lock, operation by operation *)

(** X11: each operation that creates, alters or drops holds the catalog
    lock in write mode from its first event to its last, on every path,
    failures included. An operation on a grant or an extension for which
    the server lacks the feature (or, for the creation of a grant, whose
    privileges are refused) fails before it touches the lock. *)
Theorem writers_hold_write_lock (W : World) :
  (∀ d c r t, resourcePostgreSQLSchemaCreate W d c [] = (r, t) →
              holdsLock Exclusive t)
  ∧ (∀ d c r t, resourcePostgreSQLSchemaUpdate W d c [] = (r, t) →
                holdsLock Exclusive t)
  ∧ (∀ d c r t, resourcePostgreSQLSchemaDelete W d c [] = (r, t) →
                holdsLock Exclusive t)
  ∧ (∀ d c r t, resourcePostgreSQLGrantCreate W d c [] = (r, t) →
                if featureSupported c featurePrivileges
                then match validatePrivileges c d with
                     | None => holdsLock Exclusive t
                     | Some e => r = Fail e ∧ t = []
                     end
                else is_ok r = false ∧ t = [])
  ∧ (∀ d c r t, resourcePostgreSQLGrantDelete W d c [] = (r, t) →
                if featureSupported c featurePrivileges
                then holdsLock Exclusive t else is_ok r = false ∧ t = [])
  ∧ (∀ d c r t, resourcePostgreSQLExtensionCreate W d c [] = (r, t) →
                if featureSupported c featureExtension
                then holdsLock Exclusive t else is_ok r = false ∧ t = [])
  ∧ (∀ d c r t, resourcePostgreSQLExtensionUpdate W d c [] = (r, t) →
                if featureSupported c featureExtension
                then holdsLock Exclusive t else is_ok r = false ∧ t = [])
  ∧ (∀ d c r t, resourcePostgreSQLExtensionDelete W d c [] = (r, t) →
                if featureSupported c featureExtension
                then holdsLock Exclusive t else is_ok r = false ∧ t = []).
Proof.
  repeat split; intros d c r t.
  - unfold resourcePostgreSQLSchemaCreate. intros. lock_bracket Exclusive.
  - unfold resourcePostgreSQLSchemaUpdate. intros. lock_bracket Exclusive.
  - unfold resourcePostgreSQLSchemaDelete. intros. lock_bracket Exclusive.
  - unfold resourcePostgreSQLGrantCreate.
    destruct (featureSupported c featurePrivileges); simpl; [|by intros [= <- <-]].
    destruct (validatePrivileges c d); [by intros [= <- <-]|].
    intros. lock_bracket Exclusive.
  - unfold resourcePostgreSQLGrantDelete.
    destruct (featureSupported c featurePrivileges); simpl; [|by intros [= <- <-]].
    intros. lock_bracket Exclusive.
  - unfold resourcePostgreSQLExtensionCreate.
    destruct (featureSupported c featureExtension); simpl; [|by intros [= <- <-]].
    intros. lock_bracket Exclusive.
  - unfold resourcePostgreSQLExtensionUpdate.
    destruct (featureSupported c featureExtension); simpl; [|by intros [= <- <-]].
    intros. lock_bracket Exclusive.
  - unfold resourcePostgreSQLExtensionDelete.
    destruct (featureSupported c featureExtension); simpl; [|by intros [= <- <-]].
    intros. lock_bracket Exclusive.
Qed.

(** X12: the read and the existence check of a schema, the read of a
    grant and the read of an extension hold the catalog lock in read mode
    from their first event to their last, on every path; the reads of a
    grant and of an extension fail before touching the lock when the
    server lacks the feature. *)
Theorem readers_hold_read_lock (W : World) :
  (∀ d c r t, resourcePostgreSQLSchemaRead W d c [] = (r, t) → holdsLock Shared t)
  ∧ (∀ d c r t, resourcePostgreSQLSchemaExists W d c [] = (r, t) →
                holdsLock Shared t)
  ∧ (∀ d c r t, resourcePostgreSQLGrantRead W d c [] = (r, t) →
                if featureSupported c featurePrivileges
                then holdsLock Shared t else is_ok r = false ∧ t = [])
  ∧ (∀ d c r t, resourcePostgreSQLExtensionRead W d c [] = (r, t) →
                if featureSupported c featureExtension
                then holdsLock Shared t else is_ok r = false ∧ t = []).
Proof.
  repeat split; intros d c r t.
  - unfold resourcePostgreSQLSchemaRead. intros. lock_bracket Shared.
  - unfold resourcePostgreSQLSchemaExists, dbExists. intros. lock_bracket Shared.
  - unfold resourcePostgreSQLGrantRead.
    destruct (featureSupported c featurePrivileges); simpl; [|by intros [= <- <-]].
    intros. lock_bracket Shared.
  - unfold resourcePostgreSQLExtensionRead.
    destruct (featureSupported c featureExtension); simpl; [|by intros [= <- <-]].
    intros. lock_bracket Shared.
Qed.

(** ** What the reading operations never do *)

Lemma emitsOnly_from_start {A} (P : Event → bool) (m : M A) r t :
  emitsOnly P m → m [] = (r, t) → Forall (λ e, P e = true) t.
Proof.
  intros Hm Hrt. destruct (emitsOnly_events P m Hm []) as (r' & evs & Heq & Hevs).
  rewrite Hrt in Heq. by injection Heq as _ ->.
Qed.

Lemma emitsOnly_bracket {A} (P : Event → bool) (e1 e2 : Event) (body : M A) :
  P e1 = true → P e2 = true → emitsOnly P body →
  emitsOnly P (emit e1 ;; defer (emit e2) body).
Proof.
  intros H1 H2 Hbody. apply emitsOnly_bind; [by apply emitsOnly_emit|].
  intros _. by apply emitsOnly_defer.
Qed.

(** X13: the operations that read (the read and the existence check of
    a schema and of an extension, the read of a grant) execute no
    statement and commit nothing, whatever the database answers. *)
Theorem readers_execute_nothing (W : World) :
  (∀ d c r t, resourcePostgreSQLSchemaRead W d c [] = (r, t) →
              Forall (λ e, isStep e = false) t)
  ∧ (∀ d c r t, resourcePostgreSQLSchemaExists W d c [] = (r, t) →
                Forall (λ e, isStep e = false) t)
  ∧ (∀ d c r t, resourcePostgreSQLGrantRead W d c [] = (r, t) →
                Forall (λ e, isStep e = false) t)
  ∧ (∀ d c r t, resourcePostgreSQLExtensionRead W d c [] = (r, t) →
                Forall (λ e, isStep e = false) t)
  ∧ (∀ d c r t, resourcePostgreSQLExtensionExists W d c [] = (r, t) →
                Forall (λ e, isStep e = false) t).
Proof.
  assert (Hquiet : ∀ t, Forall (λ e, noStep e = true) t →
                        Forall (λ e, isStep e = false) t).
  { intros t Ht. eapply Forall_impl; [exact Ht|]. intros e. unfold noStep.
    by destruct (isStep e). }
  repeat split; intros d c r t Hrt; apply Hquiet;
    (eapply (emitsOnly_from_start noStep); [|exact Hrt]).
  - apply emitsOnly_bracket; [done..|]. by apply reading_SchemaReadImpl.
  - apply emitsOnly_bracket; [done..|]. by apply reading_SchemaExists_body.
  - unfold resourcePostgreSQLGrantRead. destruct (negb _); [apply emitsOnly_fail|].
    apply emitsOnly_bracket; [done..|].
    apply emitsOnly_bind; [by apply reading_checkRoleDBSchemaExists|].
    intros exists_. unfold deferredRollback. emits_any.
    by apply reading_readRolePrivileges.
  - unfold resourcePostgreSQLExtensionRead. destruct (negb _); [apply emitsOnly_fail|].
    apply emitsOnly_bracket; [done..|]. by apply reading_ExtensionReadImpl.
  - unfold resourcePostgreSQLExtensionExists. destruct (negb _); [apply emitsOnly_fail|].
    apply emitsOnly_bracket; [done..|]. unfold deferredRollback. emits_any.
Qed.

(** ** Success and the commit *)

Lemma emitsOnly_obeys_same {S A} (advance : S → Event → option S)
    (P : Event → bool) (p : S) (m : M A) :
  (∀ e, P e = true → advance p e = Some p) →
  emitsOnly P m → obeys advance p (λ _ q, q = p) m.
Proof.
  intros Hadv Hm t. destruct (emitsOnly_events P m Hm t) as (r & evs & Heq & Hevs).
  exists r, evs, p. split; [done|]. split; [|done]. clear Heq.
  induction Hevs as [|e evs He _ IH]; simpl; [done|]. by rewrite (Hadv e He).
Qed.

Lemma committing_noCommit txn committed e :
  noCommit e = true → committing txn committed e = Some committed.
Proof. by destruct e as [| | | | | | |tx [err|]|]. Qed.

Lemma run_committing txn committed t :
  run (committing txn) committed t = Some true →
  committed = true ∨ ECommit txn None ∈ t.
Proof.
  revert committed. induction t as [|e t IH]; intros committed; simpl.
  - intros [= ->]. by left.
  - destruct (committing txn committed e) as [q|] eqn:He; [|done].
    intros [-> | Hin]%IH; [|right; by right].
    destruct e as [| | | | | | |tx [err|]|]; simpl in He; simplify_eq; auto.
    destruct (decide (tx = txn)) as [->|Hne]; [right; by left|].
    rewrite bool_decide_eq_false_2 in He by done. auto.
Qed.

(** Proves that a piece of an operation adds no commit. *)
Ltac no_commit :=
  solve [ repeat first [ progress emits_any | on_transaction ] ].

(** One step of an operation before its commit. *)
Ltac before_commit :=
  eapply obeys_bind;
    [ apply (emitsOnly_obeys_same (committing 0) noCommit);
        [apply committing_noCommit | no_commit]
    | intros ? ? -> ].

Ltac at_commit :=
  apply obeys_Commit_check; intros [?|]; eexists; (split; [reflexivity|]);
    [done | intros _].

Ltac after_commit :=
  first
    [ by apply obeys_ret
    | apply (emitsOnly_obeys_same (committing 0) noCommit);
        [apply committing_noCommit|] ].

Lemma committed_from_start {A} (W : World) (database : string) (body : Tx → M A)
    (a : A) (t : list Event) :
  obeys (committing 0) false (λ _ q, q = true) (body 0) →
  (Lock ;; defer Unlock (txn <- startTransaction W database ;;
                         defer (deferredRollback txn) (body txn))) [] = (Ok a, t) →
  ECommit 0 None ∈ t.
Proof.
  intros Hbody Hrt.
  destruct (locked_transaction (committing 0) W false (λ _ q, q = true) database body)
    as (r' & t' & q & Heq & Hrun & Hok & _); try done.
  rewrite Hrt in Heq. injection Heq as <- <-. rewrite (Hok a eq_refl) in Hrun.
  by apply run_committing in Hrun as [?|?].
Qed.

(** X14: an operation that creates, alters or drops returns without
    error only after it committed the transaction it opened first. *)
Theorem success_means_committed (W : World) :
  (∀ d c a t, resourcePostgreSQLSchemaCreate W d c [] = (Ok a, t) →
              ECommit 0 None ∈ t)
  ∧ (∀ d c a t, resourcePostgreSQLSchemaUpdate W d c [] = (Ok a, t) →
                ECommit 0 None ∈ t)
  ∧ (∀ d c a t, resourcePostgreSQLSchemaDelete W d c [] = (Ok a, t) →
                ECommit 0 None ∈ t)
  ∧ (∀ d c a t, resourcePostgreSQLGrantCreate W d c [] = (Ok a, t) →
                ECommit 0 None ∈ t)
  ∧ (∀ d c a t, resourcePostgreSQLGrantDelete W d c [] = (Ok a, t) →
                ECommit 0 None ∈ t)
  ∧ (∀ d c a t, resourcePostgreSQLExtensionCreate W d c [] = (Ok a, t) →
                ECommit 0 None ∈ t)
  ∧ (∀ d c a t, resourcePostgreSQLExtensionUpdate W d c [] = (Ok a, t) →
                ECommit 0 None ∈ t)
  ∧ (∀ d c a t, resourcePostgreSQLExtensionDelete W d c [] = (Ok a, t) →
                ECommit 0 None ∈ t).
Proof.
  repeat split; intros d c a t.
  - unfold resourcePostgreSQLSchemaCreate. apply committed_from_start.
    repeat before_commit. at_commit. after_commit. by apply reading_SchemaReadImpl.
  - unfold resourcePostgreSQLSchemaUpdate. apply committed_from_start.
    repeat before_commit. at_commit. after_commit. by apply reading_SchemaReadImpl.
  - unfold resourcePostgreSQLSchemaDelete. apply committed_from_start.
    repeat before_commit. at_commit. after_commit.
  - unfold resourcePostgreSQLGrantCreate. destruct (negb _); [done|].
    destruct (validatePrivileges c d); [done|]. apply committed_from_start.
    repeat before_commit. at_commit. after_commit.
    unfold deferredRollback. emits_any. by apply reading_readRolePrivileges.
  - unfold resourcePostgreSQLGrantDelete. destruct (negb _); [done|].
    apply committed_from_start.
    repeat before_commit. at_commit. after_commit.
  - unfold resourcePostgreSQLExtensionCreate. destruct (negb _); [done|].
    apply committed_from_start.
    repeat before_commit. at_commit. after_commit. by apply reading_ExtensionReadImpl.
  - unfold resourcePostgreSQLExtensionUpdate. destruct (negb _); [done|].
    apply committed_from_start.
    repeat before_commit. at_commit. after_commit. by apply reading_ExtensionReadImpl.
  - unfold resourcePostgreSQLExtensionDelete. destruct (negb _); [done|].
    apply committed_from_start.
    repeat before_commit. at_commit. after_commit.
Qed.

(** ** Updates that change nothing *)


(** ** The discipline of transactions *)

Section Settles.
Context (W : World) {S : Type} (advance : S → Event → option S).
Implicit Types (p q : S) (I J : S → Prop).

Lemma settles_ret {A} p I (a : A) : I p → settles advance p I (ret a).
Proof. intros H t. exists (Ok a), [], p. by rewrite app_nil_r. Qed.

Lemma settles_fail {A} p I e : I p → settles advance p I (fail (A:=A) e).
Proof. intros H t. exists (Fail e), [], p. by rewrite app_nil_r. Qed.

Lemma settles_lift {A} p I (r : Res A) : I p → settles advance p I (lift r).
Proof. intros H t. exists r, [], p. by rewrite app_nil_r. Qed.

Lemma settles_check p I prefix err : I p → settles advance p I (check prefix err).
Proof. intros H. destruct err; [by apply settles_fail | by apply settles_ret]. Qed.

Lemma settles_lift_same {A} p (r : Res A) :
  settles advance p (λ q, q = p) (lift r).
Proof. by apply settles_lift. Qed.

Lemma settles_check_same p prefix err :
  settles advance p (λ q, q = p) (check prefix err).
Proof. by apply settles_check. Qed.

Lemma settles_weaken {A} p I J (m : M A) :
  settles advance p I m → (∀ q, I q → J q) → settles advance p J m.
Proof.
  intros Hm HIJ t. destruct (Hm t) as (r & evs & q & Heq & Hrun & HI).
  exists r, evs, q. auto.
Qed.

Lemma settles_bind {A B} p I J (m : M A) (k : A → M B) :
  settles advance p I m →
  (∀ a q, I q → settles advance q J (k a)) →
  (∀ q, I q → J q) →
  settles advance p J (bind m k).
Proof.
  intros Hm Hk HIJ t. destruct (Hm t) as (r & evs & q & Heq & Hrun & HI).
  unfold bind. rewrite Heq. destruct r as [a|e|msg].
  - destruct (Hk a q HI (t ++ evs)) as (r' & evs' & q' & Heq' & Hrun' & HJ).
    exists r', (evs ++ evs'), q'. rewrite Heq', app_assoc.
    split; [done|]. split; [|done]. by rewrite run_app, Hrun.
  - exists (Fail e), evs, q. auto.
  - exists (Panic msg), evs, q. auto.
Qed.

(** A computation that adds only events which leave the phase as it is. *)
Lemma settles_emitsOnly {A} (P : Event → bool) p (m : M A) :
  (∀ e, P e = true → advance p e = Some p) →
  emitsOnly P m → settles advance p (λ q, q = p) m.
Proof.
  intros Hadv Hm t. destruct (emitsOnly_events P m Hm t) as (r & evs & Heq & Hevs).
  exists r, evs, p. split; [done|]. split; [|done]. clear Heq.
  induction Hevs as [|e evs He _ IH]; simpl; [done|]. by rewrite (Hadv e He).
Qed.

Lemma settles_bracket {A} p I e1 e2 (body : M A) :
  (∀ q, advance q e1 = Some q) → (∀ q, advance q e2 = Some q) →
  settles advance p I body →
  settles advance p I (emit e1 ;; defer (emit e2) body).
Proof.
  intros H1 H2 Hbody t. unfold bind, defer, emit. simpl.
  destruct (Hbody (t ++ [e1])) as (r & evs & q & -> & Hrun & HI). simpl.
  exists r, (e1 :: evs ++ [e2]), q. rewrite <- !app_assoc. split; [done|].
  split; [|done]. simpl. rewrite H1, run_app, Hrun. simpl. by rewrite H2.
Qed.

Lemma settles_from_start {A} p I (m : M A) r t :
  settles advance p I m → m [] = (r, t) → ∃ q, run advance p t = Some q ∧ I q.
Proof.
  intros Hm Hrt. destruct (Hm []) as (r' & evs & q & Heq & Hrun & HI).
  rewrite Hrt in Heq. injection Heq as _ ->. eauto.
Qed.

End Settles.

Section Transactions.
Context (W : World).
Implicit Types (st : list (Tx * bool)).

Lemma usesTx_transactions txn st e :
  usesTx txn e = true → transactions ((txn, false) :: st) e = Some ((txn, false) :: st).
Proof.
  destruct e as [| | | |tx db|tx s err|[tx|] q|tx err|tx]; simpl; try done;
    intros ->%bool_decide_eq_true_1; by rewrite bool_decide_eq_true_2.
Qed.

(** A transaction is begun, used by [body] and rolled back when [body]
    is left. *)
Lemma settles_block {A} database (body : Tx → M A) st :
  (∀ txn, settles transactions ((txn, false) :: st)
            (λ q, ∃ committed, q = (txn, committed) :: st) (body txn)) →
  settles transactions st (λ q, q = st)
    (txn <- startTransaction W database ;; defer (deferredRollback txn) (body txn)).
Proof.
  intros Hbody t. unfold bind, startTransaction, defer, deferredRollback, emit.
  destruct (begin_result W t database) as [e|].
  - exists (Fail e), [], st. by rewrite app_nil_r.
  - set (txn := length (filter is_begin t)).
    destruct (Hbody txn (t ++ [EBegin txn database]))
      as (r & evs & q & -> & Hrun & committed & ->). simpl.
    exists r, (EBegin txn database :: evs ++ [ERollback txn]), st.
    rewrite <- !app_assoc. split; [done|]. split; [|done].
    simpl. rewrite run_app, Hrun. simpl. by rewrite bool_decide_eq_true_2.
Qed.

(** The same for a body that does not commit. *)
Lemma settles_block_reading {A} database (body : Tx → M A) st :
  (∀ txn, emitsOnly (usesTx txn) (body txn)) →
  settles transactions st (λ q, q = st)
    (txn <- startTransaction W database ;; defer (deferredRollback txn) (body txn)).
Proof.
  intros Hbody. apply settles_block. intros txn.
  eapply settles_weaken.
  - eapply (settles_emitsOnly _ (usesTx txn)); [apply usesTx_transactions | apply Hbody].
  - intros q ->. eauto.
Qed.

Lemma settles_Commit txn st :
  settles transactions ((txn, false) :: st) (λ q, q = (txn, true) :: st)
    (Commit W txn).
Proof.
  intros t. unfold Commit. eexists _, [_], _. split; [done|]. simpl.
  by rewrite bool_decide_eq_true_2.
Qed.

End Transactions.

(** Proves that a step of an operation works on its transaction only. *)
Ltac on_tx :=
  solve [ repeat first [ progress emits_any | on_transaction ] ].

(** One step of an operation on its open transaction. *)
Ltac tx_step :=
  eapply settles_bind;
    [ eapply (settles_emitsOnly _ (usesTx _)); [apply usesTx_transactions | on_tx]
    | intros ? ? ->
    | intros ? ->; eauto ].

(** The commit, the test of its error and what follows. *)
Ltac tx_commit :=
  eapply settles_bind; [apply settles_Commit | intros ? ? -> | intros ? ->; eauto];
  eapply settles_bind; [apply settles_check_same | intros ? ? -> | intros ? ->; eauto].

Section OperationsTransactions.
Context (W : World).
Implicit Types (st : list (Tx * bool)).

Lemma tx_SchemaReadImpl d c st :
  settles transactions st (λ q, q = st) (resourcePostgreSQLSchemaReadImpl W d c).
Proof.
  unfold resourcePostgreSQLSchemaReadImpl.
  eapply settles_bind; [apply settles_lift_same | | done].
  intros [database schemaName] ? ->. apply settles_block_reading. intros txn. on_tx.
Qed.

Lemma tx_ExtensionReadImpl d c st :
  settles transactions st (λ q, q = st) (resourcePostgreSQLExtensionReadImpl W d c).
Proof.
  unfold resourcePostgreSQLExtensionReadImpl.
  apply settles_block_reading. intros txn. on_tx.
Qed.

Lemma tx_checkRoleDBSchemaExists client d st :
  settles transactions st (λ q, q = st) (checkRoleDBSchemaExists W client d).
Proof.
  unfold checkRoleDBSchemaExists. apply settles_block. intros txn.
  unfold roleExists, dbExists, schemaExists.
  tx_step. destruct (negb _); [apply settles_ret; eauto|].
  tx_step. destruct (negb _); [apply settles_ret; eauto|].
  case_bool_decide; [|apply settles_ret; eauto].
  eapply settles_weaken;
    [apply settles_block_reading; intros dbTxn; on_tx | intros ? ->; eauto].
Qed.

End OperationsTransactions.

Lemma transactions_closed {A} (m : M A) r t :
  settles transactions [] (λ q, q = []) m → m [] = (r, t) →
  run transactions [] t = Some [].
Proof.
  intros Hm Hrt. by destruct (settles_from_start _ _ _ _ _ _ Hm Hrt) as (q & Hrun & ->).
Qed.

Ltac tx_locked :=
  apply settles_bracket; [done..|]; apply settles_block; intros ?.

(** X16: in every operation the transactions are used as a stack. Each
    statement, read and commit goes to the transaction opened last, and
    only before its commit; each transaction that was opened is rolled
    back on the way out (after a commit this changes nothing), on every
    path, failures included; none is left open when the operation
    returns. *)
Theorem transactions_are_closed (W : World) :
  (∀ d c r t, resourcePostgreSQLSchemaCreate W d c [] = (r, t) →
              run transactions [] t = Some [])
  ∧ (∀ d c r t, resourcePostgreSQLSchemaUpdate W d c [] = (r, t) →
                run transactions [] t = Some [])
  ∧ (∀ d c r t, resourcePostgreSQLSchemaDelete W d c [] = (r, t) →
                run transactions [] t = Some [])
  ∧ (∀ d c r t, resourcePostgreSQLSchemaRead W d c [] = (r, t) →
                run transactions [] t = Some [])
  ∧ (∀ d c r t, resourcePostgreSQLSchemaExists W d c [] = (r, t) →
                run transactions [] t = Some [])
  ∧ (∀ d c r t, resourcePostgreSQLGrantCreate W d c [] = (r, t) →
                run transactions [] t = Some [])
  ∧ (∀ d c r t, resourcePostgreSQLGrantDelete W d c [] = (r, t) →
                run transactions [] t = Some [])
  ∧ (∀ d c r t, resourcePostgreSQLGrantRead W d c [] = (r, t) →
                run transactions [] t = Some [])
  ∧ (∀ d c r t, resourcePostgreSQLExtensionCreate W d c [] = (r, t) →
                run transactions [] t = Some [])
  ∧ (∀ d c r t, resourcePostgreSQLExtensionUpdate W d c [] = (r, t) →
                run transactions [] t = Some [])
  ∧ (∀ d c r t, resourcePostgreSQLExtensionDelete W d c [] = (r, t) →
                run transactions [] t = Some [])
  ∧ (∀ d c r t, resourcePostgreSQLExtensionRead W d c [] = (r, t) →
                run transactions [] t = Some [])
  ∧ (∀ d c r t, resourcePostgreSQLExtensionExists W d c [] = (r, t) →
                run transactions [] t = Some []).
Proof.
  repeat split; intros d c r t; apply transactions_closed.
  - unfold resourcePostgreSQLSchemaCreate. tx_locked.
    repeat tx_step. tx_commit.
    eapply settles_weaken; [apply tx_SchemaReadImpl | intros ? ->; eauto].
  - unfold resourcePostgreSQLSchemaUpdate. tx_locked.
    repeat tx_step. tx_commit.
    eapply settles_weaken; [apply tx_SchemaReadImpl | intros ? ->; eauto].
  - unfold resourcePostgreSQLSchemaDelete. tx_locked.
    repeat tx_step. tx_commit. apply settles_ret; eauto.
  - unfold resourcePostgreSQLSchemaRead.
    apply settles_bracket; [done..|]. apply tx_SchemaReadImpl.
  - unfold resourcePostgreSQLSchemaExists.
    apply settles_bracket; [done..|].
    eapply settles_bind; [apply settles_lift_same | | done].
    intros [database schemaName] ? ->.
    eapply (settles_bind _ _ (λ q, q = [])); [| |done].
    { apply (settles_emitsOnly _
               (λ e, bool_decide (e = EQuery None (QDbExists database)))).
      - by intros e ->%bool_decide_eq_true_1.
      - unfold dbExists, lookupExists. emits_any. }
    intros exists_ ? ->. destruct (negb _); [by apply settles_ret|].
    apply settles_block_reading. intros txn. on_tx.
  - unfold resourcePostgreSQLGrantCreate. destruct (negb _); [by apply settles_fail|].
    destruct (validatePrivileges c d); [by apply settles_fail|]. tx_locked.
    repeat tx_step. tx_commit.
    eapply settles_weaken;
      [apply settles_block_reading; intros txn'; on_tx | intros ? ->; eauto].
  - unfold resourcePostgreSQLGrantDelete. destruct (negb _); [by apply settles_fail|].
    tx_locked. repeat tx_step. tx_commit. apply settles_ret; eauto.
  - unfold resourcePostgreSQLGrantRead. destruct (negb _); [by apply settles_fail|].
    apply settles_bracket; [done..|].
    eapply settles_bind; [apply tx_checkRoleDBSchemaExists | | done].
    intros exists_ ? ->. destruct (negb _); [by apply settles_ret|].
    apply settles_block_reading. intros txn. on_tx.
  - unfold resourcePostgreSQLExtensionCreate. destruct (negb _); [by apply settles_fail|].
    tx_locked. repeat tx_step. tx_commit.
    eapply settles_weaken; [apply tx_ExtensionReadImpl | intros ? ->; eauto].
  - unfold resourcePostgreSQLExtensionUpdate. destruct (negb _); [by apply settles_fail|].
    tx_locked. repeat tx_step. tx_commit.
    eapply settles_weaken; [apply tx_ExtensionReadImpl | intros ? ->; eauto].
  - unfold resourcePostgreSQLExtensionDelete. destruct (negb _); [by apply settles_fail|].
    tx_locked. repeat tx_step. tx_commit. apply settles_ret; eauto.
  - unfold resourcePostgreSQLExtensionRead. destruct (negb _); [by apply settles_fail|].
    apply settles_bracket; [done..|]. apply tx_ExtensionReadImpl.
  - unfold resourcePostgreSQLExtensionExists. destruct (negb _); [by apply settles_fail|].
    apply settles_bracket; [done..|]. apply settles_block_reading. intros txn. on_tx.
Qed.

(** ** The roles that an update of the policy touches *)

Section DeclaredRoles.
Context (W : World) (txn : Tx) (schemaName : string).
Context (old new : list (gmap string Attr)).
Local Abbreviation allowed := (λ s, policyStmt schemaName old new s = true).
Local Abbreviation admits := (policyEvent txn schemaName old new).

Lemma declaredRoles_elem (l : list (gmap string Attr)) p a :
  p ∈ l → schemaPolicyToACL p = Ok a → acl.Role a ∈ declaredRoles l.
Proof.
  intros Hin Ha. unfold declaredRoles. apply list_elem_of_omap.
  exists p. by rewrite Ha.
Qed.

Lemma Revokes_allowed a :
  acl.Role a ∈ declaredRoles old → Forall allowed (acl.Revokes a schemaName).
Proof.
  intros Hin. unfold acl.Revokes. apply Forall_app.
  split; [destruct (acl.GetPrivilege a acl.Create)
         | destruct (acl.GetPrivilege a acl.Usage)];
    repeat constructor; simpl; by rewrite bool_decide_eq_true_2.
Qed.

Lemma Grants_allowed a :
  acl.Role a ∈ declaredRoles new → Forall allowed (acl.Grants a schemaName).
Proof.
  intros Hin. unfold acl.Grants. apply Forall_app.
  split; [destruct (acl.GetPrivilege a acl.Create)
         | destruct (acl.GetPrivilege a acl.Usage)];
    repeat constructor; simpl; by rewrite bool_decide_eq_true_2.
Qed.

Lemma droppedQueries_allowed dropped queries :
  Forall (λ kp, kp.2 ∈ old) dropped →
  Forall allowed queries →
  obeys (only admits) tt (λ qs _, Forall allowed qs)
    (droppedQueries W txn schemaName dropped queries).
Proof.
  intros Hold. revert queries.
  induction Hold as [|[k pMap] rest Hin _ IH]; intros queries Hq; simpl.
  - by apply obeys_ret.
  - destruct (schemaPolicyToACL pMap) as [a|e|msg] eqn:Ha;
      [|eapply (obeys_bind _ _ (λ _ _, False)); [by apply obeys_lift | by intros]..].
    eapply (obeys_bind _ _ (λ a' _, a' = a)); [apply obeys_lift; congruence|].
    intros a' [] ->.
    eapply (obeys_bind _ _ (λ qs _, Forall allowed qs)).
    + case_bool_decide; [|by apply obeys_ret].
      eapply obeys_bind.
      { apply obeys_QueryRow_same. unfold only. simpl.
        by rewrite bool_decide_eq_true_2. }
      intros row [] _. destruct row; [| by apply obeys_ret | apply obeys_fail].
      apply obeys_ret. apply Forall_app. split; [done|].
      apply Revokes_allowed. by eapply declaredRoles_elem.
    + intros qs [] Hqs. by apply IH.
Qed.

Lemma addedQueries_allowed added queries qs :
  Forall (λ kp, kp.2 ∈ new) added →
  Forall allowed queries →
  addedQueries schemaName added queries = Ok qs →
  Forall allowed qs.
Proof.
  intros Hnew. revert queries.
  induction Hnew as [|[k pMap] rest Hin _ IH]; intros queries Hq; simpl.
  - by intros [= <-].
  - destruct (schemaPolicyToACL pMap) as [a| |] eqn:Ha; simpl; [|done..].
    apply IH. apply Forall_app. split; [done|].
    apply Grants_allowed. by eapply declaredRoles_elem.
Qed.

Lemma updatedQueries_allowed updated queries qs :
  Forall (λ kp, ∃ vo vn, kp.2 = [vo; vn] ∧ vo ∈ old ∧ vn ∈ new) updated →
  Forall allowed queries →
  updatedQueries schemaName updated queries = Ok qs →
  Forall allowed qs.
Proof.
  intros Hupd. revert queries.
  induction Hupd as [|[k policies] rest (vo & vn & Hp & Hvo & Hvn) _ IH];
    intros queries Hq; simpl.
  - by intros [= <-].
  - simpl in Hp. subst policies. simpl.
    destruct (schemaPolicyToACL vo) as [a| |] eqn:Ha; simpl; [|done..].
    destruct (schemaPolicyToACL vn) as [b| |] eqn:Hb; simpl; [|done..].
    apply IH. apply Forall_app; split; [apply Forall_app; split; [done|]|].
    + apply Revokes_allowed. by eapply declaredRoles_elem.
    + apply Grants_allowed. by eapply declaredRoles_elem.
Qed.

Lemma forEach_Exec_allowed (queries : list Stmt) prefix :
  Forall allowed queries →
  obeys (only admits) tt (λ _ _, True)
    (forEach queries (λ query, err <- Exec W txn query ;; check prefix err)).
Proof.
  intros Hq. apply obeys_forEach; [done|]. intros s Hs.
  apply obeys_Exec_check_end. intros err. exists tt. split; [|done].
  unfold only. simpl. eapply Forall_forall in Hq; [|exact Hs].
  by rewrite bool_decide_eq_true_2, Hq.
Qed.

End DeclaredRoles.

(** X17: an update of the policy of a schema executes, in its
    transaction, only revocations on that schema from roles that the
    prior policy names and grants on that schema to roles that the new
    policy names; besides these it only reads, in the same transaction. *)
Theorem setSchemaPolicy_declared_roles (W : World) (txn : Tx) (d : SchemaData)
    (t0 t : list Event) (r : Res unit) :
  setSchemaPolicy W txn d t0 = (r, t) →
  ∃ evs, t = t0 ++ evs
         ∧ Forall (λ e, policyEvent txn (s_name d) (s_policy_prior d) (s_policy d) e
                        = true) evs.
Proof.
  intros Hrun.
  assert (Hm : emitsOnly (policyEvent txn (s_name d) (s_policy_prior d) (s_policy d))
                 (setSchemaPolicy W txn d)).
  { unfold setSchemaPolicy. destruct (negb _); [apply emitsOnly_ret|].
    destruct (schemaChangedPolicies (s_policy_prior d) (s_policy d))
      as [[[[dropped added] updated] unchanged]|e|msg] eqn:Hdiff;
      [|eapply (obeys_bind _ _ (λ _ _, False)); [by apply obeys_lift | by intros]..].
    eapply (obeys_bind _ _ (λ changed _, changed = (dropped, added, updated, unchanged)));
      [apply obeys_lift; congruence|].
    intros changed [] ->. unfold applyChangedPolicies.
    eapply obeys_bind.
    { apply droppedQueries_allowed; [|done]. apply Forall_forall.
      intros [k p] Hin%elem_of_map_to_list.
      by destruct (dropped_from_old _ _ _ _ _ _ Hdiff k p Hin). }
    intros qs1 [] H1.
    eapply (obeys_bind _ _ (λ qs _, Forall (λ s, policyStmt (s_name d)
                                (s_policy_prior d) (s_policy d) s = true) qs)).
    { apply obeys_lift. intros qs2. apply addedQueries_allowed; [|done].
      apply Forall_forall. intros [k p] Hin%elem_of_map_to_list.
      exact (added_from_new _ _ _ _ _ _ Hdiff k p Hin). }
    intros qs2 [] H2.
    eapply (obeys_bind _ _ (λ qs _, Forall (λ s, policyStmt (s_name d)
                                (s_policy_prior d) (s_policy d) s = true) qs)).
    { apply obeys_lift. intros qs3. apply updatedQueries_allowed; [|done].
      apply Forall_forall. intros [k policies] Hin%elem_of_map_to_list.
      destruct (updated_from_both _ _ _ _ _ _ Hdiff k policies Hin)
        as (vo & vn & -> & _ & Hvo & Hvn & _). by exists vo, vn. }
    intros qs3 [] H3. by apply forEach_Exec_allowed. }
  destruct (emitsOnly_events _ _ Hm t0) as (r' & evs & Heq & Hevs).
  rewrite Hrun in Heq. injection Heq as _ ->. eauto.
Qed.

Lemma setSchemaPolicy_declared_roles_witness :
  ∃ evs, [EQuery (Some 0) (roleQuery "bob");
          EExec 0 (AclRevoke "USAGE" false "app" "bob") None] = [] ++ evs
         ∧ Forall (λ e, policyEvent 0 "app" policies_bob [] e = true) evs.
Proof.
  apply (setSchemaPolicy_declared_roles world_roles 0 policies_bob_dropped []
           _ (Ok tt)).
  vm_compute. reflexivity.
Defined.


(** ** What a read of a schema writes back *)

(** X18: a read of a schema that returns without error leaves the
    declared policy as it was, although it parses the ACL of the schema:
    either it found no schema and only cleared the identifier, or it wrote
    back the name, the owner and the database and set the identifier of
    that state. *)
Theorem schema_read_keeps_policy (W : World) (d d' : SchemaData) (c : Client)
    (t0 t : list Event) :
  resourcePostgreSQLSchemaReadImpl W d c t0 = (Ok d', t) →
  s_policy d' = s_policy d
  ∧ s_policy_prior d' = s_policy_prior d
  ∧ (d' = s_SetId d ""
     ∨ ∃ database schemaName schemaOwner,
         getDBSchemaName d c = Ok (database, schemaName)
         ∧ s_name d' = schemaName ∧ s_owner d' = schemaOwner
         ∧ s_database d' = database
         ∧ s_id d' = generateSchemaID d' c).
Proof.
  unfold resourcePostgreSQLSchemaReadImpl.
  destruct (getDBSchemaName d c) as [[database schemaName]|e|msg] eqn:Hnames;
    [|done..].
  unfold bind at 1, lift. unfold bind at 1, startTransaction.
  destruct (begin_result W t0 database); [done|].
  unfold defer, bind at 1, QueryRow.
  destruct (row_result W _ _ _) as [cols| |e]; simpl.
  - unfold bind, lift. destruct (readPolicies W (tl cols) ∅); simpl; [|done..].
    intros [= <- <-]. split; [done|]. split; [done|]. right.
    by exists database, schemaName, (hd "" cols).
  - intros [= <- <-]. split; [done|]. split; [done|]. by left.
  - done.
Qed.

Lemma schema_read_keeps_policy_witness :
  s_policy (s_SetId policies_bob_dropped "") = s_policy policies_bob_dropped.
Proof.
  apply (schema_read_keeps_policy world_ok policies_bob_dropped
           (s_SetId policies_bob_dropped "") client0 []
           [EBegin 0 "postgres";
            EQuery (Some 0)
              (QSql "SELECT pg_catalog.pg_get_userbyid(n.nspowner), COALESCE(n.nspacl, '{}'::aclitem[])::TEXT[] FROM pg_catalog.pg_namespace n WHERE n.nspname=$1"
                 ["app"]);
            ERollback 0]).
  vm_compute. reflexivity.
Defined.

(** ** Panics of the update of a policy *)

Lemma wellFormed_roleTyped (p : gmap string Attr) : wellFormed p → roleTyped p.
Proof.
  unfold wellFormed, roleTyped, schemaPolicyToACL. intros [a Ha] v Hv.
  rewrite Hv in Ha.
  destruct (asBool (p !! schemaPolicyCreateAttr)); simpl in Ha; [|done..].
  destruct (asBool (p !! schemaPolicyCreateWithGrantAttr)); simpl in Ha; [|done..].
  destruct (asBool (p !! schemaPolicyUsageAttr)); simpl in Ha; [|done..].
  destruct (asBool (p !! schemaPolicyUsageWithGrantAttr)); simpl in Ha; [|done..].
  destruct v as [b|role]; [done | eauto].
Qed.

Section NoPanic.
Context (W : World) (txn : Tx) (schemaName : string).

Lemma droppedQueries_no_panic dropped queries t msg :
  Forall (λ kp, wellFormed kp.2) dropped →
  (droppedQueries W txn schemaName dropped queries t).1 ≠ Panic msg.
Proof.
  intros Hwf. revert queries t.
  induction Hwf as [|[k pMap] rest [a Ha] _ IH]; intros queries t; simpl; [done|].
  unfold bind at 1, lift. simpl in Ha. rewrite Ha. unfold bind at 1.
  case_bool_decide; [|apply IH].
  unfold bind at 1, QueryRow.
  destruct (row_result W t (Some txn) _); simpl; [apply IH..|done].
Qed.

Lemma forEach_Exec_no_panic (queries : list Stmt) prefix t msg :
  (forEach queries (λ query, err <- Exec W txn query ;; check prefix err) t).1
  ≠ Panic msg.
Proof.
  revert t. induction queries as [|s queries IH]; intros t; simpl; [done|].
  unfold bind at 1. rewrite run_Exec_check.
  destruct (exec_result W t txn s); [done | apply IH].
Qed.

End NoPanic.

(** X19: on policies whose fragments all convert (the four switches
    booleans, the role a string, as the resource schema types them) the
    update of the policy never panics, whatever the database answers: the
    type assertions hold and each updated role comes with its pair of
    fragments, so that the panic for a pair of another length is not
    reached. *)
Theorem setSchemaPolicy_no_panic (W : World) (txn : Tx) (d : SchemaData)
    (t0 : list Event) (msg : string) :
  Forall wellFormed (s_policy_prior d ++ s_policy d) →
  (setSchemaPolicy W txn d t0).1 ≠ Panic msg.
Proof.
  intros Hwf. pose proof Hwf as Hwf'. apply Forall_app in Hwf' as [Hold Hnew].
  unfold setSchemaPolicy. destruct (negb _); [done|].
  assert (Htyped : ∀ l, Forall wellFormed l → Forall roleTyped l).
  { intros l Hl. eapply Forall_impl; [exact Hl|]. apply wellFormed_roleTyped. }
  destruct (buildLookupMap_roleTyped (s_policy_prior d) ∅ (Htyped _ Hold))
    as (mo & Hmo & _).
  destruct (buildLookupMap_roleTyped (s_policy d) ∅ (Htyped _ Hnew))
    as (mn & Hmn & _).
  destruct (schemaChangedPolicies (s_policy_prior d) (s_policy d))
    as [[[[dropped added] updated] unchanged]|e|m] eqn:Hdiff.
  2, 3: unfold schemaChangedPolicies in Hdiff; rewrite Hmo, Hmn in Hdiff;
        simpl in Hdiff; by destruct (updatedLoop mo mn).
  unfold bind at 1, lift. unfold applyChangedPolicies. unfold bind at 1.
  pose proof (droppedQueries_no_panic W txn (s_name d) (map_to_list dropped) [] t0 msg)
    as Hdropped.
  destruct (droppedQueries W txn (s_name d) (map_to_list dropped) [] t0)
    as [[qs1|e|m] t1]; simpl in *.
  - unfold bind at 1, lift.
    destruct (addedQueries_total (s_name d) (map_to_list added) qs1) as (qs2 & ->).
    { apply Forall_forall. intros [k p] Hin%elem_of_map_to_list.
      pose proof (added_from_new _ _ _ _ _ _ Hdiff k p Hin) as Hp.
      by eapply Forall_forall in Hnew. }
    unfold bind at 1.
    destruct (updatedQueries_total (s_name d) (map_to_list updated) qs2) as (qs3 & ->).
    { apply Forall_forall. intros [k policies] Hin%elem_of_map_to_list.
      destruct (updated_from_both _ _ _ _ _ _ Hdiff k policies Hin)
        as (vo & vn & -> & _ & Hvo & Hvn & _).
      exists vo, vn. split; [done|].
      split; [by eapply Forall_forall in Hold | by eapply Forall_forall in Hnew]. }
    apply forEach_Exec_no_panic.
  - done.
  - intros [= ->]. apply Hdropped; [|done]. apply Forall_forall. intros [k p] Hin%elem_of_map_to_list.
    destruct (dropped_from_old _ _ _ _ _ _ Hdiff k p Hin) as [_ Hp].
    by eapply Forall_forall in Hold.
Qed.

Lemma setSchemaPolicy_no_panic_witness :
  (setSchemaPolicy world_roles 0 policies_bob_dropped []).1 ≠ Panic "expected 2 policies, old and new".
Proof.
  apply setSchemaPolicy_no_panic.
  repeat (apply Forall_cons_2; [eexists; vm_compute; reflexivity|]).
  apply Forall_nil_2.
Defined.
